(** * The game state machine of the turn-based grid game

    A shallow embedding of [server/gameState.js] (the [GameStateManager]
    class) and of the message handlers of [server/index.js] that drive it
    ([handleJoin], [handleRequestAction], [handleResetGame],
    [handleDisconnect]), followed by the properties of the rules engine.

    Conventions of the embedding:
    - the mutable [this.state] object is passed explicitly: a method that
      mutates the store is a function [State -> State];
    - a [throw new Error(msg)] is the outcome [Throw e], where [message e]
      is the text of the JavaScript error;
    - the two [while] loops take a fuel argument, and running out of fuel is
      the outcome [OutOfFuel]: a loop that never exits has that outcome for
      every fuel;
    - an object reference into [state.players] or [state.obstacles] (what
      [Array.prototype.find] returns) is the index of the object in the list,
      and a field assignment through the reference is [alter] at that index;
    - coordinates are JavaScript numbers.  The operations the code applies to
      them are collected in the class [JsNumber]; the rules are read over the
      integers [Z] (grid cells), and over the rationals [Q] where a property
      speaks of arbitrary numbers. *)

From Stdlib Require Import ZArith QArith Qabs String Ascii Lia Lqa.
From stdpp Require Import base decidable option list strings relations.

Close Scope Q_scope.
Local Open Scope string_scope.
Local Open Scope Z_scope.

(** ** JavaScript numbers *)

(** The operations of the source on coordinates: [+], [-], [Math.abs],
    [Math.sign], [===], [<] and [<=] (with [>], [>=] and [!==] read through
    them), and integer literals. *)
Class JsNumber (N : Type) := {
  num_of_Z : Z → N;
  num_add : N → N → N;
  num_sub : N → N → N;
  num_abs : N → N;
  num_sign : N → N;
  num_eq : N → N → Prop;
  num_lt : N → N → Prop;
  num_le : N → N → Prop;
  num_eq_dec :: RelDecision num_eq;
  num_lt_dec :: RelDecision num_lt;
  num_le_dec :: RelDecision num_le;
}.

(** Integer coordinates: the cells of the grid. *)
#[global] Instance JsNumber_Z : JsNumber Z := {|
  num_of_Z := λ z, z;
  num_add := Z.add;
  num_sub := Z.sub;
  num_abs := Z.abs;
  num_sign := Z.sgn;
  num_eq := eq;
  num_lt := Z.lt;
  num_le := Z.le;
|}.

#[global] Instance Qeq_decision : RelDecision Qeq := Qeq_dec.
#[global] Instance Qlt_decision : RelDecision Qlt.
Proof.
  intros a b. destruct (Qlt_le_dec a b) as [Hlt|Hle].
  - left; exact Hlt.
  - right; apply Qle_not_lt; exact Hle.
Defined.
#[global] Instance Qle_decision : RelDecision Qle.
Proof.
  intros a b. destruct (Qlt_le_dec b a) as [Hlt|Hle].
  - right; apply Qlt_not_le; exact Hlt.
  - left; exact Hle.
Defined.

(** Rational coordinates: finite JavaScript numbers, fractions included.
    The arithmetic of the source on them is exact as long as the values stay
    far below 2^53; NaN and the infinities are not represented. *)
#[global] Instance JsNumber_Q : JsNumber Q := {|
  num_of_Z := inject_Z;
  num_add := Qplus;
  num_sub := Qminus;
  num_abs := Qabs;
  num_sign := λ q, inject_Z (Z.sgn (Qnum q));
  num_eq := Qeq;
  num_lt := Qlt;
  num_le := Qle;
|}.

(** ** Outcomes of the methods *)

(** The errors thrown by the rules engine and by the handlers, one
    constructor per message. *)
Inductive Error :=
  | LobbyComplet
  | PseudoInvalide
  | CouleurInvalide
  | JoueurIntrouvable
  | JoueurDejaElimine
  | CaseHorsLimites
  | DeplacementLigneDroite
  | DistanceMaximale
  | TrajetBloque
  | AttaqueLigneDroite
  | PorteeMaximale
  | AucuneCible
  | EntiteBloque
  | PlusDObstacles
  | CaseAdjacente
  | CaseDejaOccupee
  | UnknownAction
  | NullPosition
  | PlayerAlreadyJoined
  | SpectatorsNotAllowed
  | GameMustBeInProgress
  | NotYourTurn
  | GameNotFinished.

#[global] Instance Error_eq_dec : EqDecision Error.
Proof. solve_decision. Defined.

(** The human-readable reason carried by each error, as UTF-8 bytes.
    [NullPosition] is the [TypeError] of reading [.x] of a [null] position. *)
Definition message (e : Error) : string :=
  match e with
  | LobbyComplet => "Le lobby est complet."
  | PseudoInvalide => "Pseudo invalide."
  | CouleurInvalide => "Couleur invalide."
  | JoueurIntrouvable => "Joueur introuvable."
  | JoueurDejaElimine => "Joueur déjà éliminé."
  | CaseHorsLimites => "Case hors limites."
  | DeplacementLigneDroite => "Le déplacement doit être en ligne droite."
  | DistanceMaximale => "La distance maximale est de 3 cases."
  | TrajetBloque => "Trajet bloqué par un joueur ou un obstacle."
  | AttaqueLigneDroite => "Attaque en ligne droite uniquement."
  | PorteeMaximale => "La portée maximale est de 2 cases."
  | AucuneCible => "Aucune cible dans cette direction."
  | EntiteBloque => "Une entité bloque votre attaque."
  | PlusDObstacles => "Plus d'obstacles disponibles."
  | CaseAdjacente => "La case doit être adjacente."
  | CaseDejaOccupee => "Case déjà occupée."
  | UnknownAction => "Unknown action."
  | NullPosition => "Cannot read properties of null (reading 'x')"
  | PlayerAlreadyJoined => "Player already joined."
  | SpectatorsNotAllowed => "Spectators are not allowed."
  | GameMustBeInProgress => "Game must be in progress."
  | NotYourTurn => "Not your turn."
  | GameNotFinished => "Game is not finished yet."
  end.

(** What a call does: it returns, it throws, or (for the loops) it has not
    finished within the fuel it was given. *)
Inductive Outcome (A : Type) :=
  | Return (a : A)
  | Throw (e : Error)
  | OutOfFuel.
Arguments Return {A} a.
Arguments Throw {A} e.
Arguments OutOfFuel {A}.

#[global] Instance Outcome_ret : MRet Outcome := λ A a, Return a.
#[global] Instance Outcome_bind : MBind Outcome := λ A B f m,
  match m with
  | Return a => f a
  | Throw e => Throw e
  | OutOfFuel => OutOfFuel
  end.

(** [if (c) throw new Error(e)] *)
Definition throwIf (c : Prop) `{!Decision c} (e : Error) : Outcome unit :=
  if decide c then Throw e else Return ().

(** ** The data model *)

Definition MAX_PLAYERS : nat := 4.
Definition PLAYER_HP : Z := 10.
Definition OBSTACLE_HP : Z := 2.
Definition OBSTACLE_STOCK : Z := 3.
Definition ATTACK_COST : Z := 0.
Definition ATTACK_DAMAGE : Z := 2.
Definition MOVE_RANGE : Z := 3.
Definition ATTACK_RANGE : Z := 2.
Definition ALLOWED_GRID_SIZES : list Z := [9].

(** Identifiers are the strings produced by [randomUUID]. *)
Definition Id := string.

(** A string received from a client, of which the characters matter (a
    pseudo, a color), is the sequence of its UTF-16 code units. *)
Definition JsString := list Z.

(** The JavaScript string of an ASCII text. *)
Definition js (s : string) : JsString :=
  (λ c, Z.of_nat (nat_of_ascii c)) <$> list_ascii_of_string s.

Inductive GameStatus := Lobby | InProgress | Finished.
Inductive PlayerStatus := Active | Defeated.

#[global] Instance GameStatus_eq_dec : EqDecision GameStatus.
Proof. solve_decision. Defined.
#[global] Instance PlayerStatus_eq_dec : EqDecision PlayerStatus.
Proof. solve_decision. Defined.

(** [{ x, y }] *)
Record Position (N : Type) := mkPosition { pos_x : N; pos_y : N }.
Arguments mkPosition {N} _ _.
Arguments pos_x {N} _.
Arguments pos_y {N} _.

(** A player object; [p_position] is [None] for JavaScript's [null]. *)
Record Player (N : Type) := mkPlayer {
  p_id : Id;
  p_userId : option string;
  p_pseudo : JsString;
  p_couleur : JsString;
  p_pdv : Z;
  p_position : option (Position N);
  p_obstaclesRestants : Z;
  p_status : PlayerStatus;
}.
Arguments mkPlayer {N} _ _ _ _ _ _ _ _.
Arguments p_id {N} _.
Arguments p_userId {N} _.
Arguments p_pseudo {N} _.
Arguments p_couleur {N} _.
Arguments p_pdv {N} _.
Arguments p_position {N} _.
Arguments p_obstaclesRestants {N} _.
Arguments p_status {N} _.

Record Obstacle (N : Type) := mkObstacle {
  o_id : Id;
  o_position : Position N;
  o_pdv : Z;
  o_ownerId : Id;
}.
Arguments mkObstacle {N} _ _ _ _.
Arguments o_id {N} _.
Arguments o_position {N} _.
Arguments o_pdv {N} _.
Arguments o_ownerId {N} _.

(** [this.state] *)
Record State (N : Type) := mkState {
  gameStatus : GameStatus;
  gridSize : Z;
  players : list (Player N);
  obstacles : list (Obstacle N);
  currentPlayerTurn : option Id;
  winner : option JsString;
  winnerId : option Id;
}.
Arguments mkState {N} _ _ _ _ _ _ _.
Arguments gameStatus {N} _.
Arguments gridSize {N} _.
Arguments players {N} _.
Arguments obstacles {N} _.
Arguments currentPlayerTurn {N} _.
Arguments winner {N} _.
Arguments winnerId {N} _.

(** ** Values received from a client *)

(** A JavaScript value where the code expects a string: a string, or a value
    of another type, of which only the truthiness matters. *)
Inductive JsValue :=
  | VString (s : JsString)
  | VTruthy
  | VFalsy.

Definition truthy (v : JsValue) : bool :=
  match v with
  | VString s => negb (bool_decide (s = []))
  | VTruthy => true
  | VFalsy => false
  end.

Definition isString (v : JsValue) : bool :=
  match v with VString _ => true | _ => false end.

(** [a || b] *)
Definition orElse (a b : JsValue) : JsValue := if truthy a then a else b.

(** A coordinate of a target: a number, or a value whose [typeof] is not
    ["number"] (a missing property included). *)
Inductive JsCoord (N : Type) :=
  | CNum (n : N)
  | CNotNumber.
Arguments CNum {N} n.
Arguments CNotNumber {N}.

(** The [target] of an action: a falsy value, or a value with the
    properties [x] and [y]. *)
Inductive JsTarget (N : Type) :=
  | TFalsy
  | TObject (x y : JsCoord N).
Arguments TFalsy {N}.
Arguments TObject {N} x y.

(** ** Strings: [trim], the color pattern, [toUpperCase] *)

(** The code units that [String.prototype.trim] removes: the white space
    (TAB, VT, FF, SPACE, NBSP, ZWNBSP U+FEFF and the space separators U+1680,
    U+2000 to U+200A, U+202F, U+205F, U+3000) and the line terminators (LF,
    CR, U+2028, U+2029). *)
Definition isWhiteSpace (c : Z) : bool :=
  bool_decide (c ∈ [9; 10; 11; 12; 13; 32; 160; 5760; 8232; 8233; 8239;
                    8287; 12288; 65279]
               ∨ 8192 ≤ c ≤ 8202).

Fixpoint trimStart (s : JsString) : JsString :=
  match s with
  | [] => []
  | c :: s' => if isWhiteSpace c then trimStart s' else s
  end.

Fixpoint trimEnd (s : JsString) : JsString :=
  match s with
  | [] => []
  | c :: s' =>
      match trimEnd s' with
      | [] => if isWhiteSpace c then [] else [c]
      | t => c :: t
      end
  end.

Definition trim (s : JsString) : JsString := trimEnd (trimStart s).

(** [[0-9a-fA-F]] *)
Definition isHexDigit (c : Z) : bool :=
  bool_decide ((48 ≤ c ∧ c ≤ 57) ∨ (65 ≤ c ∧ c ≤ 70) ∨ (97 ≤ c ∧ c ≤ 102)).

(** [/^#([0-9a-fA-F]{6})$/.test(s)]; 35 is the code unit of [#]. *)
Definition matchesHexColor (s : JsString) : bool :=
  match s with
  | c :: rest =>
      bool_decide (c = 35)
      && bool_decide (length rest = 6%nat)
      && forallb isHexDigit rest
  | [] => false
  end.

(** [toUpperCase] on the letters a-z; it is only applied to strings that
    match the color pattern. *)
Definition upperChar (c : Z) : Z :=
  if bool_decide (97 ≤ c ∧ c ≤ 122) then c - 32 else c.

Definition toUpperCase (s : JsString) : JsString := upperChar <$> s.

Definition normalizeColor (color : JsValue) : option JsString :=
  match color with
  | VString s =>
      let trimmed := trim s in
      if matchesHexColor trimmed then Some (toUpperCase trimmed) else None
  | _ => None
  end.

(** ** The rules engine ([GameStateManager]) *)

(** A reference to an entity found on the grid: [{ type, entity }], with the
    index of the entity in its list and the object read there. *)
Inductive Hit (N : Type) :=
  | HitPlayer (i : nat) (p : Player N)
  | HitObstacle (j : nat) (o : Obstacle N).
Arguments HitPlayer {N} i p.
Arguments HitObstacle {N} j o.

Definition hitId {N} (h : Hit N) : Id :=
  match h with
  | HitPlayer _ p => p_id p
  | HitObstacle _ o => o_id o
  end.

Section Game.
Context {N : Type} `{!JsNumber N}.

Local Infix "===" := num_eq (at level 70, no associativity).
Local Infix "<<" := num_lt (at level 70, no associativity).
Local Infix "<<=" := num_le (at level 70, no associativity).

(** *** Field assignments *)

Definition set_gameStatus (s : GameStatus) (st : State N) : State N :=
  mkState s (gridSize st) (players st) (obstacles st)
          (currentPlayerTurn st) (winner st) (winnerId st).
Definition set_gridSize (g : Z) (st : State N) : State N :=
  mkState (gameStatus st) g (players st) (obstacles st)
          (currentPlayerTurn st) (winner st) (winnerId st).
Definition set_players (ps : list (Player N)) (st : State N) : State N :=
  mkState (gameStatus st) (gridSize st) ps (obstacles st)
          (currentPlayerTurn st) (winner st) (winnerId st).
Definition set_obstacles (os : list (Obstacle N)) (st : State N) : State N :=
  mkState (gameStatus st) (gridSize st) (players st) os
          (currentPlayerTurn st) (winner st) (winnerId st).
Definition set_currentPlayerTurn (t : option Id) (st : State N) : State N :=
  mkState (gameStatus st) (gridSize st) (players st) (obstacles st)
          t (winner st) (winnerId st).
Definition set_winner (w : option JsString) (wid : option Id) (st : State N)
  : State N :=
  mkState (gameStatus st) (gridSize st) (players st) (obstacles st)
          (currentPlayerTurn st) w wid.

Definition set_position (q : option (Position N)) (p : Player N) : Player N :=
  mkPlayer (p_id p) (p_userId p) (p_pseudo p) (p_couleur p) (p_pdv p)
           q (p_obstaclesRestants p) (p_status p).
Definition set_pdv (v : Z) (p : Player N) : Player N :=
  mkPlayer (p_id p) (p_userId p) (p_pseudo p) (p_couleur p) v
           (p_position p) (p_obstaclesRestants p) (p_status p).
Definition set_obstaclesRestants (v : Z) (p : Player N) : Player N :=
  mkPlayer (p_id p) (p_userId p) (p_pseudo p) (p_couleur p) (p_pdv p)
           (p_position p) v (p_status p).
Definition set_status (s : PlayerStatus) (p : Player N) : Player N :=
  mkPlayer (p_id p) (p_userId p) (p_pseudo p) (p_couleur p) (p_pdv p)
           (p_position p) (p_obstaclesRestants p) s.
Definition set_o_pdv (v : Z) (o : Obstacle N) : Obstacle N :=
  mkObstacle (o_id o) (o_position o) v (o_ownerId o).

(** *** Construction and lobby *)

Definition createInitialState (gridSize : Z) : State N :=
  mkState Lobby gridSize [] [] None None None.

Definition setGridSizeIfLobby (size : Z) (st : State N) : State N :=
  if decide (gameStatus st ≠ Lobby
             ∨ (0 < length (players st))%nat
             ∨ size ∉ ALLOWED_GRID_SIZES)
  then st
  else set_gridSize size st.

Definition getStartingPositions (st : State N) : list (Position N) :=
  let size := num_of_Z (gridSize st - 1) in
  [ mkPosition (num_of_Z 0) (num_of_Z 0);
    mkPosition size (num_of_Z 0);
    mkPosition (num_of_Z 0) size;
    mkPosition size size ].

(** [addPlayer({ pseudo, color, gridSizeOverride, userId })]; [uuid] is the
    value that [randomUUID()] returns in this call. *)
Definition addPlayer (st : State N) (pseudo color : JsValue)
    (gridSizeOverride : option Z) (userId : option string) (uuid : Id)
  : Outcome (Player N * State N) :=
  throwIf (MAX_PLAYERS ≤ length (players st))%nat LobbyComplet;;
  match pseudo with
  | VString name =>
      throwIf (name = [] ∨ length (trim name) = 0%nat) PseudoInvalide;;
      match normalizeColor color with
      | None => Throw CouleurInvalide
      | Some normalizedColor =>
          let st1 :=
            match gridSizeOverride with
            | Some size => if decide (size = 0) then st
                           else setGridSizeIfLobby size st
            | None => st
            end in
          let startingPosition :=
            getStartingPositions st1 !! length (players st1) in
          let player :=
            mkPlayer uuid
                     (match userId with
                      | Some u => if decide (u = "") then None else Some u
                      | None => None
                      end)
                     (trim name) normalizedColor PLAYER_HP
                     startingPosition OBSTACLE_STOCK Active in
          let st2 := set_players (players st1 ++ [player]) st1 in
          let st3 :=
            if decide (length (players st2) = MAX_PLAYERS)
            then set_currentPlayerTurn (p_id <$> head (players st2))
                   (set_gameStatus InProgress st2)
            else st2 in
          Return (player, st3)
      end
  | _ => Throw PseudoInvalide
  end.

(** *** Defeat, victory, turn rotation *)

Definition markPlayerDefeated (playerId : Id) (st : State N) : State N :=
  match list_find (λ p, p_id p = playerId) (players st) with
  | None => st
  | Some (i, player) =>
      if decide (p_status player = Defeated) then st
      else set_players
             (alter (λ p, set_position None (set_status Defeated p)) i
                    (players st)) st
  end.

Definition activePlayers (st : State N) : list (Player N) :=
  filter (λ p, p_status p = Active) (players st).

Definition checkVictory (st : State N) : State N :=
  let active := activePlayers st in
  if decide (length active = 1%nat ∧ gameStatus st = InProgress) then
    set_winner (p_pseudo <$> head active) (p_id <$> head active)
      (set_gameStatus Finished st)
  else if decide (length active = 0%nat ∧ gameStatus st = InProgress) then
    set_winner None None (set_gameStatus Finished st)
  else st.

(** [findIndex], with -1 when nothing is found. *)
Definition findIndex (P : Player N → Prop) `{!∀ p, Decision (P p)}
    (l : list (Player N)) : Z :=
  match list_find P l with
  | Some (i, _) => Z.of_nat i
  | None => -1
  end.

(** The [for] loop of [advanceTurn], with [iters] iterations left.  The
    index read is always within the list (see [advanceTurn_loop_in_range]
    below); reading outside would be a [TypeError] in JavaScript. *)
Fixpoint advanceTurn_loop (iters : nat) (nextIndex : Z) (st : State N)
  : State N :=
  match iters with
  | O => set_currentPlayerTurn None st
  | S iters' =>
      let nextIndex' := Z.rem (nextIndex + 1) (Z.of_nat (length (players st))) in
      match players st !! Z.to_nat nextIndex' with
      | Some p =>
          if decide (p_status p = Active)
          then set_currentPlayerTurn (Some (p_id p)) st
          else advanceTurn_loop iters' nextIndex' st
      | None => st
      end
  end.

Definition advanceTurn (st : State N) : State N :=
  if decide (gameStatus st ≠ InProgress) then st
  else if decide (length (activePlayers st) ≤ 1)%nat then checkVictory st
  else
    let currentIndex :=
      findIndex (λ player, Some (p_id player) = currentPlayerTurn st)
                (players st) in
    advanceTurn_loop (length (players st)) currentIndex st.

Definition cleanupAfterAction (st : State N) : State N :=
  let st1 := set_obstacles (filter (λ o, 0 < o_pdv o) (obstacles st)) st in
  let st2 :=
    foldl (λ s player,
             if decide (p_pdv player ≤ 0)
             then markPlayerDefeated (p_id player) s
             else s)
          st1 (players st1) in
  checkVictory st2.

Definition removePlayer (playerId : Id) (st : State N) : State N :=
  match list_find (λ p, p_id p = playerId) (players st) with
  | None => st
  | Some (index, player) =>
      let st1 := set_players (delete index (players st)) st in
      if decide (length (players st1) = 0%nat) then
        createInitialState (gridSize st1)
      else if decide (p_status player = Active
                      ∧ gameStatus st1 = InProgress) then
        checkVictory (advanceTurn (markPlayerDefeated (p_id player) st1))
      else if decide (gameStatus st1 = Lobby) then
        set_players
          (imap (λ idx p, set_position (getStartingPositions st1 !! idx) p)
                (players st1)) st1
      else st1
  end.

Definition resetGame (st : State N) : State N :=
  let gridSize :=
    if decide (gridSize st = 0) then default 0 (head ALLOWED_GRID_SIZES)
    else gridSize st in
  createInitialState gridSize.

(** *** Spatial queries *)

(** [players.find(p => p.status === "Active" && p.position.x === position.x
    && p.position.y === position.y)], scanning [l] whose head has index [i].
    Reading the position of an Active player whose position is [null]
    throws. *)
Fixpoint getPlayerAt_from (i : nat) (l : list (Player N))
    (position : Position N) : Outcome (option (nat * Player N)) :=
  match l with
  | [] => Return None
  | p :: l' =>
      if decide (p_status p = Active) then
        match p_position p with
        | None => Throw NullPosition
        | Some q =>
            if decide (pos_x q === pos_x position
                       ∧ pos_y q === pos_y position)
            then Return (Some (i, p))
            else getPlayerAt_from (S i) l' position
        end
      else getPlayerAt_from (S i) l' position
  end.

Definition getPlayerAt (st : State N) (position : Position N)
  : Outcome (option (nat * Player N)) :=
  getPlayerAt_from 0 (players st) position.

Definition getObstacleAt (st : State N) (position : Position N)
  : option (nat * Obstacle N) :=
  list_find (λ o, pos_x (o_position o) === pos_x position
                  ∧ pos_y (o_position o) === pos_y position)
            (obstacles st).

Definition isOccupied (st : State N) (position : Position N) : Outcome bool :=
  player ← getPlayerAt st position;
  Return (bool_decide (is_Some player ∨ is_Some (getObstacleAt st position))).

Definition isStraightLine (a b : Position N) : Prop :=
  pos_x a === pos_x b ∨ pos_y a === pos_y b.

Definition distance (a b : Position N) : N :=
  num_add (num_abs (num_sub (pos_x a) (pos_x b)))
          (num_abs (num_sub (pos_y a) (pos_y b))).

Definition isAdjacent (a b : Position N) : Prop :=
  num_abs (num_sub (pos_x a) (pos_x b)) <<= num_of_Z 1
  ∧ num_abs (num_sub (pos_y a) (pos_y b)) <<= num_of_Z 1
  ∧ ¬ (pos_x a === pos_x b ∧ pos_y a === pos_y b).

#[global] Instance isStraightLine_dec a b : Decision (isStraightLine a b).
Proof. unfold isStraightLine. apply _. Defined.
#[global] Instance isAdjacent_dec a b : Decision (isAdjacent a b).
Proof. unfold isAdjacent. apply _. Defined.

(** The [while] loop of [isPathClear] and the test that follows it; each
    evaluation of the loop condition takes one unit of fuel. *)
Fixpoint isPathClear_loop (fuel : nat) (st : State N) (target : Position N)
    (dx dy x y : N) : Outcome bool :=
  match fuel with
  | O => OutOfFuel
  | S fuel' =>
      if decide (¬ x === pos_x target ∨ ¬ y === pos_y target) then
        occupied ← isOccupied st (mkPosition x y);
        if occupied : bool then Return false
        else isPathClear_loop fuel' st target dx dy
               (num_add x dx) (num_add y dy)
      else
        occupied ← isOccupied st target;
        if occupied : bool then Return false else Return true
  end.

Definition isPathClear (fuel : nat) (st : State N) (start target : Position N)
  : Outcome bool :=
  let dx := num_sign (num_sub (pos_x target) (pos_x start)) in
  let dy := num_sign (num_sub (pos_y target) (pos_y start)) in
  isPathClear_loop fuel st target dx dy
    (num_add (pos_x start) dx) (num_add (pos_y start) dy).

(** The [while] loop of [findFirstEntity]. *)
Fixpoint findFirstEntity_loop (fuel : nat) (st : State N)
    (start target : Position N) (dx dy x y : N) : Outcome (option (Hit N)) :=
  match fuel with
  | O => OutOfFuel
  | S fuel' =>
      if decide (num_of_Z 0 <<= x
                 ∧ num_of_Z 0 <<= y
                 ∧ x << num_of_Z (gridSize st)
                 ∧ y << num_of_Z (gridSize st)
                 ∧ num_add (num_abs (num_sub x (pos_x start)))
                           (num_abs (num_sub y (pos_y start)))
                   <<= num_of_Z ATTACK_RANGE) then
        let pos := mkPosition x y in
        player ← getPlayerAt st pos;
        match player with
        | Some (i, p) => Return (Some (HitPlayer i p))
        | None =>
            match getObstacleAt st pos with
            | Some (j, o) => Return (Some (HitObstacle j o))
            | None =>
                if decide (x === pos_x target ∧ y === pos_y target)
                then Return None
                else findFirstEntity_loop fuel' st start target dx dy
                       (num_add x dx) (num_add y dy)
            end
        end
      else Return None
  end.

Definition findFirstEntity (fuel : nat) (st : State N)
    (start target : Position N) : Outcome (option (Hit N)) :=
  let dx := num_sign (num_sub (pos_x target) (pos_x start)) in
  let dy := num_sign (num_sub (pos_y target) (pos_y start)) in
  findFirstEntity_loop fuel st start target dx dy
    (num_add (pos_x start) dx) (num_add (pos_y start) dy).

(** *** Actions *)

Definition requireActivePlayer (st : State N) (playerId : Id)
  : Outcome (nat * Player N) :=
  match list_find (λ p, p_id p = playerId) (players st) with
  | None => Throw JoueurIntrouvable
  | Some (i, player) =>
      if decide (p_status player ≠ Active) then Throw JoueurDejaElimine
      else Return (i, player)
  end.

(** Returns the validated target as a position. *)
Definition ensureTargetValid (st : State N) (target : JsTarget N)
  : Outcome (Position N) :=
  match target with
  | TObject (CNum x) (CNum y) =>
      throwIf (x << num_of_Z 0
               ∨ num_of_Z (gridSize st) <<= x
               ∨ y << num_of_Z 0
               ∨ num_of_Z (gridSize st) <<= y) CaseHorsLimites;;
      Return (mkPosition x y)
  | _ => Throw CaseHorsLimites
  end.

(** [player.position], about to be read by a spatial predicate. *)
Definition readPosition (player : Player N) : Outcome (Position N) :=
  match p_position player with
  | Some q => Return q
  | None => Throw NullPosition
  end.

Definition executeMove (fuel : nat) (st : State N) (playerId : Id)
    (target : JsTarget N) : Outcome (State N) :=
  '(i, player) ← requireActivePlayer st playerId;
  tgt ← ensureTargetValid st target;
  position ← readPosition player;
  throwIf (¬ isStraightLine position tgt) DeplacementLigneDroite;;
  let distance := distance position tgt in
  throwIf (distance === num_of_Z 0 ∨ num_of_Z MOVE_RANGE << distance)
          DistanceMaximale;;
  clear ← isPathClear fuel st position tgt;
  throwIf (clear = false) TrajetBloque;;
  let st1 := set_players (alter (set_position (Some tgt)) i (players st)) st in
  Return (advanceTurn (cleanupAfterAction st1)).

(** The mutations of [executeAttack] once the attack is accepted: [i] is
    the reference to the caster, [hit] the entity found by the ray. *)
Definition applyAttack (i : nat) (hit : Hit N) (st : State N) : State N :=
  let st1 := set_players
               (alter (λ p, set_pdv (p_pdv p - ATTACK_COST) p) i (players st))
               st in
  let st2 :=
    match players st1 !! i with
    | Some p => if decide (p_pdv p ≤ 0)
                then markPlayerDefeated (p_id p) st1 else st1
    | None => st1
    end in
  match hit with
  | HitPlayer k _ =>
      let st3 := set_players
                   (alter (λ p, set_pdv (p_pdv p - ATTACK_DAMAGE) p) k
                          (players st2)) st2 in
      match players st3 !! k with
      | Some p => if decide (p_pdv p ≤ 0)
                  then markPlayerDefeated (p_id p) st3 else st3
      | None => st3
      end
  | HitObstacle k _ =>
      let st3 := set_obstacles
                   (alter (λ o, set_o_pdv (o_pdv o - ATTACK_DAMAGE) o) k
                          (obstacles st2)) st2 in
      match obstacles st3 !! k with
      | Some o => if decide (o_pdv o ≤ 0)
                  then set_obstacles
                         (filter (λ o', o_id o' ≠ o_id o) (obstacles st3)) st3
                  else st3
      | None => st3
      end
  end.

Definition executeAttack (fuel : nat) (st : State N) (playerId : Id)
    (target : JsTarget N) : Outcome (State N) :=
  '(i, player) ← requireActivePlayer st playerId;
  tgt ← ensureTargetValid st target;
  position ← readPosition player;
  throwIf (¬ isStraightLine position tgt) AttaqueLigneDroite;;
  let distance := distance position tgt in
  throwIf (distance === num_of_Z 0 ∨ num_of_Z ATTACK_RANGE << distance)
          PorteeMaximale;;
  entityHit ← findFirstEntity fuel st position tgt;
  match entityHit with
  | None => Throw AucuneCible
  | Some hit =>
      playerAt ← getPlayerAt st tgt;
      let explicitTarget : option Id :=
        match playerAt with
        | Some (_, p) => Some (p_id p)
        | None => (λ jo : nat * Obstacle N, o_id jo.2)
                    <$> getObstacleAt st tgt
        end in
      throwIf (is_Some explicitTarget ∧ explicitTarget ≠ Some (hitId hit))
              EntiteBloque;;
      Return (advanceTurn (cleanupAfterAction (applyAttack i hit st)))
  end.

(** [uuid] is the value that [randomUUID()] returns for the new obstacle. *)
Definition executePlaceObstacle (st : State N) (playerId : Id)
    (target : JsTarget N) (uuid : Id) : Outcome (State N) :=
  '(i, player) ← requireActivePlayer st playerId;
  tgt ← ensureTargetValid st target;
  throwIf (p_obstaclesRestants player ≤ 0) PlusDObstacles;;
  position ← readPosition player;
  throwIf (¬ isAdjacent position tgt) CaseAdjacente;;
  occupied ← isOccupied st tgt;
  throwIf (occupied = true) CaseDejaOccupee;;
  let st1 := set_obstacles
               (obstacles st ++ [mkObstacle uuid tgt OBSTACLE_HP (p_id player)])
               st in
  let st2 := set_players
               (alter (λ p, set_obstaclesRestants (p_obstaclesRestants p - 1) p)
                      i (players st1)) st1 in
  Return (advanceTurn (cleanupAfterAction st2)).

End Game.

(** ** The message handlers ([server/index.js]) *)

(** The user decoded from the token of a connection. *)
Record User := mkUser { u_id : option string; u_name : JsValue }.

(** The metadata the server keeps for a connection: [{ type, user,
    playerId }]. *)
Inductive ClientMeta :=
  | Spectator (user : option User)
  | PlayerClient (user : option User) (playerId : Id).

Definition clientUser (meta : ClientMeta) : option User :=
  match meta with
  | Spectator u => u
  | PlayerClient u _ => u
  end.

(** The payload of [JOIN_GAME]; [jp_gridSize] is [parseInt(payload.gridSize,
    10)], [None] when that is [NaN]. *)
Record JoinPayload := mkJoinPayload {
  jp_pseudo : JsValue;
  jp_couleur : JsValue;
  jp_color : JsValue;
  jp_gridSize : option Z;
}.

Inductive ActionType := MOVE | ATTACK | PLACE_OBSTACLE | OtherActionType.

(** The payload of [REQUEST_ACTION]. *)
Record ActionPayload (N : Type) := mkActionPayload {
  actionType : ActionType;
  target : JsTarget N;
}.
Arguments mkActionPayload {N} _ _.
Arguments actionType {N} _.
Arguments target {N} _.

(** What the handler sends back: the message to the caller, or on success
    the broadcast of the new state. *)
Inductive Reply :=
  | JOINED_AS_PLAYER (playerId : Id)
  | JOINED_AS_SPECTATOR
  | ACTION_INVALID (e : Error)
  | GAME_STATE_UPDATE
  | GAME_RESET.

Section Handlers.
Context {N : Type} `{!JsNumber N}.

Definition parseGridSize (parsed : option Z) : option Z :=
  match parsed with
  | Some n => if decide (n ∈ ALLOWED_GRID_SIZES) then Some n else None
  | None => None
  end.

(** The pseudo of a join: the name in the token when there is one, the
    pseudo of the payload otherwise. *)
Definition joinPseudo (user : option User) (payload : JoinPayload) : JsValue :=
  match user with
  | Some u => if truthy (u_name u) then u_name u else jp_pseudo payload
  | None => jp_pseudo payload
  end.

(** [payload.couleur || payload.color] *)
Definition joinColor (payload : JoinPayload) : JsValue :=
  orElse (jp_couleur payload) (jp_color payload).

(** [addPlayer] has no loop and never runs out of fuel (see
    [addPlayer_terminates]); the reply of that case is immaterial. *)
Definition e_unreachable : Error := UnknownAction.

Definition handleJoin (st : State N) (meta : ClientMeta)
    (payload : JoinPayload) (uuid : Id) : Reply * State N :=
  match meta with
  | PlayerClient _ _ => (ACTION_INVALID PlayerAlreadyJoined, st)
  | Spectator user =>
      if decide ((MAX_PLAYERS ≤ length (players st))%nat
                 ∨ gameStatus st ≠ Lobby)
      then (JOINED_AS_SPECTATOR, st)
      else
        match addPlayer st (joinPseudo user payload) (joinColor payload)
                (parseGridSize (jp_gridSize payload))
                (user ≫= u_id) uuid with
        | Return (player, st') => (JOINED_AS_PLAYER (p_id player), st')
        | Throw e => (ACTION_INVALID e, st)
        | OutOfFuel => (ACTION_INVALID e_unreachable, st)
        end
  end.

(** [None]: the handler has not returned within the fuel. *)
Definition handleRequestAction (fuel : nat) (st : State N)
    (meta : ClientMeta) (payload : ActionPayload N) (uuid : Id)
  : option (Reply * State N) :=
  match meta with
  | Spectator _ => Some (ACTION_INVALID SpectatorsNotAllowed, st)
  | PlayerClient _ playerId =>
      if decide (gameStatus st ≠ InProgress)
      then Some (ACTION_INVALID GameMustBeInProgress, st)
      else if decide (currentPlayerTurn st ≠ Some playerId)
      then Some (ACTION_INVALID NotYourTurn, st)
      else
        match
          match actionType payload with
          | MOVE => executeMove fuel st playerId (target payload)
          | ATTACK => executeAttack fuel st playerId (target payload)
          | PLACE_OBSTACLE =>
              executePlaceObstacle st playerId (target payload) uuid
          | OtherActionType => Throw UnknownAction
          end
        with
        | Return st' => Some (GAME_STATE_UPDATE, st')
        | Throw e => Some (ACTION_INVALID e, st)
        | OutOfFuel => None
        end
  end.

Definition handleResetGame (st : State N) : Reply * State N :=
  if decide (gameStatus st ≠ Finished)
  then (ACTION_INVALID GameNotFinished, st)
  else (GAME_RESET, resetGame st).

Definition handleDisconnect (st : State N) (meta : ClientMeta) : State N :=
  match meta with
  | Spectator _ => st
  | PlayerClient _ playerId => removePlayer playerId st
  end.

End Handlers.

(** * Vocabulary of the properties *)

(** ** Joining *)

(** A join request is rejected: the store is unchanged and the caller is not
    seated. *)
Definition joinRejected {N} (st : State N) (res : Reply * State N) : Prop :=
  res.2 = st ∧ ∀ playerId, res.1 ≠ JOINED_AS_PLAYER playerId.

(** White space as [String.prototype.trim] understands it: the code points
    TAB, VT, FF, SP, NBSP, ZWNBSP (U+FEFF) and the space separators (U+1680,
    U+2000 to U+200A, U+202F, U+205F, U+3000), and the line terminators LF,
    CR, U+2028 and U+2029. *)
Definition whiteSpace (c : Z) : Prop :=
  c = 9 ∨ c = 11 ∨ c = 12 ∨ c = 32 ∨ c = 160 ∨ c = 65279
  ∨ c = 5760 ∨ 8192 ≤ c ≤ 8202 ∨ c = 8239 ∨ c = 8287 ∨ c = 12288
  ∨ c = 10 ∨ c = 13 ∨ c = 8232 ∨ c = 8233.

(** Empty or white space only. *)
Definition whitespaceOnly (s : JsString) : Prop := Forall whiteSpace s.

(** [core] is [s] without the white space around it: [s] is [core] between
    two runs of white space, and [core] neither starts nor ends with white
    space. *)
Definition trimmedTo (s core : JsString) : Prop :=
  (∃ pre post, s = (pre ++ core ++ post)%list
               ∧ whitespaceOnly pre ∧ whitespaceOnly post)
  ∧ (∀ c, head core = Some c → ¬ whiteSpace c)
  ∧ (∀ c, last core = Some c → ¬ whiteSpace c).

(** The code units of [0-9], [A-F] and [a-f]. *)
Definition hexDigit (d : Z) : Prop :=
  48 ≤ d ≤ 57 ∨ 65 ≤ d ≤ 70 ∨ 97 ≤ d ≤ 102.

(** The strict color pattern: a [#] (code unit 35) followed by exactly six
    hexadecimal digits. *)
Definition isStrictHexColor (s : JsString) : Prop :=
  ∃ d1 d2 d3 d4 d5 d6 : Z,
    s = [35; d1; d2; d3; d4; d5; d6]
    ∧ Forall hexDigit [d1; d2; d3; d4; d5; d6].

(** A strict color without lower-case digit: a [#] followed by six of
    [0-9] and [A-F]. *)
Definition isCanonicalColor (s : JsString) : Prop :=
  ∃ d1 d2 d3 d4 d5 d6 : Z,
    s = [35; d1; d2; d3; d4; d5; d6]
    ∧ Forall (λ d, 48 ≤ d ≤ 57 ∨ 65 ≤ d ≤ 70) [d1; d2; d3; d4; d5; d6].

(** The code unit in upper case, for the letters of a color. *)
Definition upperHex (d : Z) : Z :=
  if decide (97 ≤ d ≤ 102) then d - 32 else d.

(** The starting positions of the 9 x 9 grid: its four corners. *)
Definition corners {N} `{!JsNumber N} : list (Position N) :=
  [ mkPosition (num_of_Z 0) (num_of_Z 0);
    mkPosition (num_of_Z 8) (num_of_Z 0);
    mkPosition (num_of_Z 0) (num_of_Z 8);
    mkPosition (num_of_Z 8) (num_of_Z 8) ].

(** ** Actions *)

(** The preconditions shared by the three actions, for the caller
    [playerId]: the game is in progress, the caller holds the turn, and the
    player object of the caller exists and is Active. *)
Definition actionPreconditions {N} (st : State N) (playerId : Id) : Prop :=
  gameStatus st = InProgress
  ∧ currentPlayerTurn st = Some playerId
  ∧ ∃ i player, list_find (λ p, p_id p = playerId) (players st) = Some (i, player)
                ∧ p_status player = Active.

(** The reasons reported when a shared precondition fails. *)
Definition preconditionErrors : list Error :=
  [GameMustBeInProgress; NotYourTurn; JoueurIntrouvable; JoueurDejaElimine].

(** ** Reachable states *)

(** One public operation of the server: a join, an action request, a reset
    request or the disconnection of a client, with arbitrary arguments. *)
Inductive Step {N} `{!JsNumber N} : State N → State N → Prop :=
  | step_join st meta payload uuid :
      Step st (handleJoin st meta payload uuid).2
  | step_action fuel st meta payload uuid reply st' :
      handleRequestAction fuel st meta payload uuid = Some (reply, st') →
      Step st st'
  | step_reset st :
      Step st (handleResetGame st).2
  | step_leave st meta :
      Step st (handleDisconnect st meta).

(** The same operations when [randomUUID] does its job: the id given to a
    new player is not the id of a seated player. *)
Inductive FreshStep {N} `{!JsNumber N} : State N → State N → Prop :=
| fresh_join st meta payload uuid :
    uuid ∉ p_id <$> players st →
    FreshStep st (handleJoin st meta payload uuid).2
| fresh_action fuel st meta payload uuid reply st' :
    handleRequestAction fuel st meta payload uuid = Some (reply, st') →
    FreshStep st st'
| fresh_reset st :
    FreshStep st (handleResetGame st).2
| fresh_leave st meta :
    FreshStep st (handleDisconnect st meta).

(** The store of the server starts as [new GameStateManager()], whose grid
    size is the first allowed one. *)
Definition initialState {N} : State N :=
  mkState Lobby 9 [] [] None None None.

Definition reachable {N} `{!JsNumber N} (st : State N) : Prop :=
  rtc Step initialState st.

Definition reachableFresh {N} `{!JsNumber N} (st : State N) : Prop :=
  rtc FreshStep initialState st.

(** The turn holder is an Active player of the list. *)
Definition turnHolderActive {N} (st : State N) : Prop :=
  ∃ p, p ∈ players st ∧ p_status p = Active
       ∧ currentPlayerTurn st = Some (p_id p).

(** The turn in each status: none in the Lobby, where every player is
    Active; an Active player of the list while the game is in progress; still
    set once the game is Finished. *)
Definition turnInvariant {N} (st : State N) : Prop :=
  (gameStatus st = Lobby →
     currentPlayerTurn st = None
     ∧ Forall (λ p, p_status p = Active) (players st))
  ∧ (gameStatus st = InProgress → turnHolderActive st)
  ∧ (gameStatus st = Finished → is_Some (currentPlayerTurn st)).

(** An accepted action ends with the cleanup and the rotation, run on a
    store that has the status, the turn and the grid size of the store
    before the action. *)
Definition actionShape {N} `{!JsNumber N} (st st' : State N) : Prop :=
  ∃ stX, st' = advanceTurn (cleanupAfterAction stX)
         ∧ gameStatus stX = gameStatus st
         ∧ currentPlayerTurn stX = currentPlayerTurn st
         ∧ gridSize stX = gridSize st.

(** ** Occupancy of a cell *)

Section Occupancy.
Context {N : Type} `{!JsNumber N}.

(** The Active player [p] stands on [position]. *)
Definition playerAt (position : Position N) (p : Player N) : Prop :=
  p_status p = Active
  ∧ match p_position p with
    | Some q => num_eq (pos_x q) (pos_x position)
                ∧ num_eq (pos_y q) (pos_y position)
    | None => False
    end.

(** The obstacle [o] stands on [position]. *)
Definition obstacleAt (position : Position N) (o : Obstacle N) : Prop :=
  num_eq (pos_x (o_position o)) (pos_x position)
  ∧ num_eq (pos_y (o_position o)) (pos_y position).

#[global] Instance playerAt_dec position p : Decision (playerAt position p).
Proof. unfold playerAt. destruct (p_position p); apply _. Defined.
#[global] Instance obstacleAt_dec position o : Decision (obstacleAt position o).
Proof. unfold obstacleAt. apply _. Defined.

(** The cell is occupied by an Active player or by an obstacle. *)
Definition occupied (st : State N) (position : Position N) : Prop :=
  Exists (playerAt position) (players st)
  ∨ Exists (obstacleAt position) (obstacles st).

#[global] Instance occupied_dec st position : Decision (occupied st position).
Proof. unfold occupied. apply _. Defined.

(** The entity standing on a cell, a player before an obstacle. *)
Definition entityAt (st : State N) (position : Position N) : option (Hit N) :=
  match list_find (playerAt position) (players st) with
  | Some (i, p) => Some (HitPlayer i p)
  | None =>
      match list_find (obstacleAt position) (obstacles st) with
      | Some (j, o) => Some (HitObstacle j o)
      | None => None
      end
  end.

(** Every Active player has a position. *)
Definition positioned (st : State N) : Prop :=
  ∀ p, p ∈ players st → p_status p = Active → is_Some (p_position p).
End Occupancy.

(** ** Geometry of the grid (integer coordinates) *)

(** The cell lies on the grid of the store. *)
Definition inBounds (st : State Z) (c : Position Z) : Prop :=
  0 ≤ pos_x c < gridSize st ∧ 0 ≤ pos_y c < gridSize st.

(** Two cells on the same column or on the same row. *)
Definition aligned (a b : Position Z) : Prop :=
  pos_x a = pos_x b ∨ pos_y a = pos_y b.

(** The number of steps between two cells, along the rows and the columns. *)
Definition taxicab (a b : Position Z) : Z :=
  Z.abs (pos_x a - pos_x b) + Z.abs (pos_y a - pos_y b).

(** The cell [k] steps away from [a] in the direction of [b]. *)
Definition stepToward (a b : Position Z) (k : Z) : Position Z :=
  mkPosition (pos_x a + k * Z.sgn (pos_x b - pos_x a))
             (pos_y a + k * Z.sgn (pos_y b - pos_y a)).

(** The cells of the path from [a] (exclusive) to [b] (inclusive), nearest
    first. *)
Definition pathCells (a b : Position Z) : list (Position Z) :=
  stepToward a b <$> seqZ 1 (taxicab a b).

(** The cells of the ray from [a] toward [b] within the attack range,
    nearest first. *)
Definition rayCells (a b : Position Z) : list (Position Z) :=
  stepToward a b <$> seqZ 1 ATTACK_RANGE.

(** The cells visited by a loop that starts on [(x, y)] and takes [n] steps
    of [(dx, dy)]. *)
Fixpoint cellsFrom (x y dx dy : Z) (n : nat) : list (Position Z) :=
  match n with
  | O => []
  | S n' => mkPosition x y :: cellsFrom (x + dx) (y + dy) dx dy n'
  end.

(** The entity on the first occupied cell of a list of cells. *)
Fixpoint firstEntity {N} `{!JsNumber N} (st : State N)
    (cells : list (Position N)) : option (Hit N) :=
  match cells with
  | [] => None
  | c :: cells' =>
      match entityAt st c with
      | Some h => Some h
      | None => firstEntity st cells'
      end
  end.

(** The loop condition of [findFirstEntity] for a ray cast from [a]: the
    cell [c] is on the grid and within the attack range. *)
Definition withinRay (st : State Z) (a c : Position Z) : Prop :=
  inBounds st c
  ∧ Z.abs (pos_x c - pos_x a) + Z.abs (pos_y c - pos_y a) ≤ ATTACK_RANGE.

(** The invariants of the data model that the actions rely on: distinct
    player ids; an Active player has hit points left and stands on a cell of
    the grid; an obstacle has hit points left. *)
Record wellFormed (st : State Z) : Prop := mkWellFormed {
  wf_ids : NoDup (p_id <$> players st);
  wf_active : ∀ p, p ∈ players st → p_status p = Active →
                0 < p_pdv p ∧ ∃ q, p_position p = Some q ∧ inBounds st q;
  wf_obstacles : ∀ o, o ∈ obstacles st → 0 < o_pdv o;
}.

(** What holds of every store reached with fresh ids on integer
    coordinates: the store is well formed, on the 9 x 9 grid, with at most
    four players. *)
Definition storeInvariant (st : State Z) : Prop :=
  wellFormed st ∧ gridSize st = 9 ∧ (length (players st) ≤ MAX_PLAYERS)%nat.

(** A reference returned by the ray cast points to an Active player, or to
    an obstacle, of the store. *)
Definition validHit (st : State Z) (h : Hit Z) : Prop :=
  match h with
  | HitPlayer k p => players st !! k = Some p ∧ p_status p = Active
  | HitObstacle j o => obstacles st !! j = Some o
  end.

(** The acting player of a request: the first player object with that id,
    Active, found at index [i] and standing on [position]. *)
Definition actingPlayer {N} (st : State N) (playerId : Id) (i : nat)
    (player : Player N) (position : Position N) : Prop :=
  list_find (λ p, p_id p = playerId) (players st) = Some (i, player)
  ∧ p_status player = Active
  ∧ p_position player = Some position.

(** An in-bounds target, as sent by a client. *)
Definition targetOf {N} (c : Position N) : JsTarget N :=
  TObject (CNum (pos_x c)) (CNum (pos_y c)).

(** ** The effect of an accepted attack *)

(** The struck player, found at index [k] as [p], has lost the attack
    damage; it is Defeated, without a position, when no hit points are left;
    the rest of the grid is as before. *)
Definition playerDamaged (st st' : State Z) (k : nat) (p : Player Z) : Prop :=
  (∃ p', players st' !! k = Some p'
         ∧ p_id p' = p_id p
         ∧ p_pdv p' = p_pdv p - ATTACK_DAMAGE
         ∧ (p_pdv p' ≤ 0 → p_status p' = Defeated ∧ p_position p' = None)
         ∧ (0 < p_pdv p' → p_status p' = p_status p
                            ∧ p_position p' = p_position p))
  ∧ (∀ k', k' ≠ k → players st' !! k' = players st !! k')
  ∧ obstacles st' = obstacles st.

(** The struck obstacle, found at index [j] as [o], has lost the attack
    damage, and has left the obstacle list when no hit points are left; the
    players are as before. *)
Definition obstacleDamaged (st st' : State Z) (j : nat) (o : Obstacle Z) : Prop :=
  players st' = players st
  ∧ obstacles st' =
      if decide (o_pdv o - ATTACK_DAMAGE ≤ 0)
      then filter (λ o', o_id o' ≠ o_id o) (obstacles st)
      else alter (λ o', mkObstacle (o_id o') (o_position o')
                                   (o_pdv o' - ATTACK_DAMAGE) (o_ownerId o'))
                 j (obstacles st).

Definition damaged (st st' : State Z) (h : Hit Z) : Prop :=
  match h with
  | HitPlayer k p => playerDamaged st st' k p
  | HitObstacle j o => obstacleDamaged st st' j o
  end.

(** ** Sample games *)

(** Stores obtained by running the handlers from the initial store, used to
    exercise the properties on concrete inputs.  The four players are [p1]
    to [p4], seated in that order on a 9 x 9 grid. *)
Module Samples.

Definition cell (x y : Z) : Position Z := mkPosition x y.

Definition joinAs {N} `{!JsNumber N} (name color : string) (uuid : Id)
    (st : State N) : State N :=
  (handleJoin st (Spectator None)
     (mkJoinPayload (VString (js name)) (VString (js color)) VFalsy None)
     uuid).2.

(** The request of [playerId], with enough fuel for the ray loops on a
    legal target; a request whose handler has not returned by then leaves
    the store as it is. *)
Definition requestAs {N} `{!JsNumber N} (playerId : Id) (kind : ActionType)
    (target : JsTarget N) (uuid : Id) (st : State N) : State N :=
  match handleRequestAction 4 st (PlayerClient None playerId)
          (mkActionPayload kind target) uuid with
  | Some (_, st') => st'
  | None => st
  end.

Definition actAs (playerId : Id) (kind : ActionType) (x y : Z) (uuid : Id)
    (st : State Z) : State Z :=
  requestAs playerId kind (targetOf (cell x y)) uuid st.

Definition leaveAs (playerId : Id) (st : State Z) : State Z :=
  handleDisconnect st (PlayerClient None playerId).

(** The first player, with its position and its stock of obstacles. *)
Definition ada (x y stock : Z) : Player Z :=
  mkPlayer "p1" None (js "Ada") (js "#FF0000") 10 (Some (cell x y)) stock
           Active.

(** Four joins: the game starts, [p1] holds the turn. *)
Definition started : State Z := Eval vm_compute in
  joinAs "Dan" "#abcdef" "p4"
    (joinAs "Cleo" "#0000fF" "p3"
       (joinAs "Bob" " #00ff00 " "p2"
          (joinAs "Ada" "#ff0000" "p1" (initialState (N:=Z))))).

(** [p1] has walled itself in with its three obstacles, at (1,0), (0,1)
    and (1,1), while the others stepped back and forth; [p1] holds the
    turn and has no obstacle left. *)
Definition walled : State Z := Eval vm_compute in
  actAs "p4" MOVE 8 7 ""
    (actAs "p3" MOVE 0 7 ""
       (actAs "p2" MOVE 8 1 ""
          (actAs "p1" PLACE_OBSTACLE 1 1 "o3"
             (actAs "p4" MOVE 8 8 ""
                (actAs "p3" MOVE 0 8 ""
                   (actAs "p2" MOVE 8 0 ""
                      (actAs "p1" PLACE_OBSTACLE 0 1 "o2"
                         (actAs "p4" MOVE 8 7 ""
                            (actAs "p3" MOVE 0 7 ""
                               (actAs "p2" MOVE 8 1 ""
                                  (actAs "p1" PLACE_OBSTACLE 1 0 "o1"
                                     started))))))))))).

(** [p1] stands on (0,0) behind its obstacle on (0,1), [p3] has walked to
    (0,2); [p1] holds the turn. *)
Definition screened : State Z := Eval vm_compute in
  actAs "p4" MOVE 8 8 ""
    (actAs "p3" MOVE 0 2 ""
       (actAs "p2" MOVE 8 0 ""
          (actAs "p1" PLACE_OBSTACLE 1 0 "o2"
             (actAs "p4" MOVE 8 7 ""
                (actAs "p3" MOVE 0 5 ""
                   (actAs "p2" MOVE 8 1 ""
                      (actAs "p1" PLACE_OBSTACLE 0 1 "o1" started))))))).

(** [p1] has moved to (0,1); [p2], on (8,0), holds the turn. *)
Definition opened : State Z := Eval vm_compute in
  actAs "p1" MOVE 0 1 "" started.

(** [p1] and [p2] have left a started game; [p3] holds the turn. *)
Definition twoLeft : State Z := Eval vm_compute in
  leaveAs "p2" (leaveAs "p1" started).

(** Then [p3], the turn holder, leaves too: the game is Finished. *)
Definition oneLeft : State Z := Eval vm_compute in
  leaveAs "p3" twoLeft.

(** A game in progress in which [p1] has lost its last hit points and is
    Defeated: [p2] is the only Active player. *)
Definition fallen : State Z :=
  mkState InProgress 9
    [mkPlayer "p1" None (js "Ada") (js "#FF0000") 0 None 3 Defeated;
     mkPlayer "p2" None (js "Bob") (js "#00FF00") 4 (Some (cell 8 0)) 3
              Active]
    [] (Some "p1") None None.

(** A game in progress in which both players are Defeated. *)
Definition wiped : State Z :=
  mkState InProgress 9
    [mkPlayer "p1" None (js "Ada") (js "#FF0000") 0 None 3 Defeated;
     mkPlayer "p2" None (js "Bob") (js "#00FF00") 0 None 3 Defeated]
    [] (Some "p1") None None.

(** The same opening with coordinates read as rationals: four joins, then
    [p1] moves to (0,1); [p2], on (8,0), holds the turn. *)
Definition openedQ : State Q := Eval vm_compute in
  requestAs "p1" MOVE (TObject (CNum (inject_Z 0)) (CNum (inject_Z 1))) ""
    (joinAs "Dan" "#abcdef" "p4"
       (joinAs "Cleo" "#0000fF" "p3"
          (joinAs "Bob" " #00ff00 " "p2"
             (joinAs "Ada" "#ff0000" "p1" (initialState (N:=Q)))))).

(** The target (7.5, 0): on the grid, half a cell to the left of [p2]. *)
Definition halfCell : JsTarget Q := TObject (CNum (15 # 2)%Q) (CNum (0 # 1)%Q).

End Samples.

(** ** Targets *)

(** A target that passes the bounds check: two integer coordinates naming a
    cell of the grid. *)
Definition validTarget (st : State Z) (target : JsTarget Z) (c : Position Z)
  : Prop :=
  target = targetOf c ∧ inBounds st c.

(** * The invariants of a game in play *)

(** What holds of the stores the server goes through, beyond their being
    well formed.  The coordinates are those of grid cells. *)

(** ** One entity per cell *)

(** Two Active players never stand on the same cell, two obstacles never lie
    on the same cell, and no Active player stands on the cell of an
    obstacle. *)
Definition exclusive (st : State Z) : Prop :=
  (∀ i j p q, players st !! i = Some p → players st !! j = Some q → i ≠ j →
              p_status p = Active → p_status q = Active →
              p_position p ≠ p_position q)
  ∧ NoDup (o_position <$> obstacles st)
  ∧ (∀ p o, p ∈ players st → o ∈ obstacles st → p_status p = Active →
            p_position p ≠ Some (o_position o)).

(** ** Hit points and stocks *)

(** The hit points of a player are an even number between 0 and
    [PLAYER_HP]; a player is Defeated exactly when none is left, and has then
    no position; the stock of obstacles is between 0 and [OBSTACLE_STOCK]. *)
Definition vital (p : Player Z) : Prop :=
  0 ≤ p_pdv p ≤ PLAYER_HP
  ∧ (ATTACK_DAMAGE | p_pdv p)
  ∧ (p_status p = Defeated ↔ p_pdv p = 0)
  ∧ (p_status p = Defeated → p_position p = None)
  ∧ 0 ≤ p_obstaclesRestants p ≤ OBSTACLE_STOCK.

Definition vitals (st : State Z) : Prop := ∀ p, p ∈ players st → vital p.

(** The player [p] once an attack has struck it: it has lost the attack
    damage, and is Defeated, without a position, when no hit point is
    left. *)
Definition struck (p : Player Z) : Player Z :=
  let hurt := set_pdv (p_pdv p - ATTACK_DAMAGE) p in
  if decide (p_pdv hurt ≤ 0)
  then set_position None (set_status Defeated hurt)
  else hurt.

(** An obstacle of the grid has all its hit points and lies on a cell of the
    grid. *)
Definition obstaclesIntact (st : State Z) : Prop :=
  ∀ o, o ∈ obstacles st → o_pdv o = OBSTACLE_HP ∧ inBounds st (o_position o).

(** The obstacles of the grid placed by [playerId]. *)
Definition owned (st : State Z) (playerId : Id) : list (Obstacle Z) :=
  filter (λ o, o_ownerId o = playerId) (obstacles st).

(** The obstacles a player has on the grid and the ones it has left never
    exceed the initial stock. *)
Definition stockLedger (st : State Z) : Prop :=
  ∀ p, p ∈ players st →
    Z.of_nat (length (owned st (p_id p))) + p_obstaclesRestants p
    ≤ OBSTACLE_STOCK.

(** ** The lobby *)

(** The player as [addPlayer] creates it for the seat [k]: Active, with all
    its hit points and obstacles, on the [k]-th starting position. *)
Definition seatedAt (st : State Z) (k : nat) (p : Player Z) : Prop :=
  p_status p = Active
  ∧ p_pdv p = PLAYER_HP
  ∧ p_obstaclesRestants p = OBSTACLE_STOCK
  ∧ p_position p = getStartingPositions st !! k.

(** A lobby holds no trace of a game: no obstacle, no turn, no winner, and
    the players seated in order on the starting positions. *)
Definition pristineLobby (st : State Z) : Prop :=
  obstacles st = []
  ∧ currentPlayerTurn st = None
  ∧ winner st = None ∧ winnerId st = None
  ∧ ∀ k p, players st !! k = Some p → seatedAt st k p.

(** ** Status, Active players and winner *)

(** The store names [w] as the winner. *)
Definition wonBy (st : State Z) (w : Player Z) : Prop :=
  winner st = Some (p_pseudo w) ∧ winnerId st = Some (p_id w).

(** A lobby is pristine; a game in progress has at least two Active players
    and no winner; a finished game has a winner, and no Active player but
    the winner. *)
Definition census (st : State Z) : Prop :=
  match gameStatus st with
  | Lobby => pristineLobby st
  | InProgress =>
      (2 ≤ length (activePlayers st))%nat
      ∧ winner st = None ∧ winnerId st = None
  | Finished =>
      ∃ w, wonBy st w
           ∧ ∀ p, p ∈ players st → p_status p = Active → p = w
  end.

(** What holds of the players and the obstacles of a store, whatever its
    status. *)
Record board (st : State Z) : Prop := mkBoard {
  bd_wellFormed : wellFormed st;
  bd_vitals : vitals st;
  bd_obstacles : obstaclesIntact st;
  bd_exclusive : exclusive st;
  bd_ledger : stockLedger st;
}.

(** The invariant of the stores reached with fresh player ids. *)
Record gameInvariant (st : State Z) : Prop := mkGameInvariant {
  gi_board : board st;
  gi_gridSize : gridSize st = 9;
  gi_roster : (length (players st) ≤ MAX_PLAYERS)%nat;
  gi_turn : turnInvariant st;
  gi_census : census st;
}.

(** ** Turn rotation *)

(** [nxt] is the first Active player met when the list is scanned
    cyclically from the index after [c]; [c] is -1 when the scan starts at
    the head of the list. *)
Definition nextActive {N} (l : list (Player N)) (c : Z) (nxt : Player N)
  : Prop :=
  ∃ d : Z,
    1 ≤ d ≤ Z.of_nat (length l)
    ∧ l !! Z.to_nat ((c + d) `mod` Z.of_nat (length l)) = Some nxt
    ∧ p_status nxt = Active
    ∧ ∀ d' q, 1 ≤ d' < d →
              l !! Z.to_nat ((c + d') `mod` Z.of_nat (length l)) = Some q →
              p_status q ≠ Active.

(** ** Joining *)

(** The userId stored for a player: the id of the token, [null] when it is
    missing or empty. *)
Definition storedUserId (userId : option string) : option string :=
  match userId with
  | Some u => if decide (u = "") then None else Some u
  | None => None
  end.

(** The player that a join seats. *)
Definition newPlayer {N} `{!JsNumber N} (st1 : State N) (seat : nat) (uuid : Id)
    (userId : option string) (name color : JsString) : Player N :=
  mkPlayer uuid (storedUserId userId) (trim name) color PLAYER_HP
           (getStartingPositions st1 !! seat) OBSTACLE_STOCK Active.

(** The store once [player] has joined: the fourth player starts the game
    and gives the turn to the first of the list. *)
Definition seat {N} (st1 : State N) (player : Player N) : State N :=
  let st2 := set_players (players st1 ++ [player]) st1 in
  if decide (length (players st2) = MAX_PLAYERS)
  then set_currentPlayerTurn (p_id <$> head (players st2))
         (set_gameStatus InProgress st2)
  else st2.


(** ** The names and colors of the players *)

(** The pseudo and the color as [addPlayer] stores them: a pseudo that is
    not empty and has no white space around it, a color that
    [normalizeColor] leaves as it is. *)
Definition canonicalBadge {N} (p : Player N) : Prop :=
  p_pseudo p ≠ []
  ∧ trim (p_pseudo p) = p_pseudo p
  ∧ normalizeColor (VString (p_couleur p)) = Some (p_couleur p).

(** Every player of the second list has the id, the pseudo and the color of
    a player of the first. *)
Definition sameBadges {N} (l l' : list (Player N)) : Prop :=
  ∀ p', p' ∈ l' →
    ∃ p, p ∈ l ∧ p_id p' = p_id p
         ∧ p_pseudo p' = p_pseudo p ∧ p_couleur p' = p_couleur p.

(** * Targets that are not cells *)

(** [ensureTargetValid] accepts every pair of numbers within the bounds of
    the grid, integers or not, and the entities of the store are compared by
    their coordinates.  What follows is read on rational coordinates. *)







(** * The connections ([server/index.js]) *)

(** The server keeps one store, [game], and the map [clients] from the
    socket of each connection to its metadata.  A socket object is named by
    a number. *)
Definition Ws := nat.

(** What the server sends: the type and payload of a message. *)
Inductive Payload (N : Type) :=
  | Snapshot (st : State N)
      (** [GAME_STATE_UPDATE], with [game.getSnapshot()] *)
  | GameOver (winnerPseudo : option JsString)
      (** [GAME_OVER], with [game.state.winner] *)
  | Answer (reply : Reply)
      (** what a handler of the game sends to its caller *)
  | InvalidJson
      (** [ACTION_INVALID], Invalid JSON message. *)
  | UnknownMessageType.
      (** [ACTION_INVALID], Unknown message type. *)
Arguments Snapshot {N} _.
Arguments GameOver {N} _.
Arguments Answer {N} _.
Arguments InvalidJson {N}.
Arguments UnknownMessageType {N}.

(** A call of [send(ws, ...)] or of [broadcast(...)]. *)
Inductive Sent (N : Type) :=
  | SendTo (ws : Ws) (m : Payload N)
  | Broadcast (m : Payload N).
Arguments SendTo {N} _ _.
Arguments Broadcast {N} _.

(** What arrives on a socket: a text that [JSON.parse] rejects, or a message
    with its type and payload.  The payloads are objects; a text that parses
    to [null], or a payload that is [null], on which the handlers throw
    outside their [try], is left out. *)
Inductive Message (N : Type) :=
  | Unparsable
  | JOIN_GAME (payload : JoinPayload)
  | REQUEST_ACTION (payload : ActionPayload N)
  | RESET_GAME
  | OtherMessage.
Arguments Unparsable {N}.
Arguments JOIN_GAME {N} _.
Arguments REQUEST_ACTION {N} _.
Arguments RESET_GAME {N}.
Arguments OtherMessage {N}.

Record Server (N : Type) := mkServer {
  game : State N;
  clients : list (Ws * ClientMeta);
}.
Arguments mkServer {N} _ _.
Arguments game {N} _.
Arguments clients {N} _.

(** The [Map] of the clients, in insertion order. *)

(** [clients.get(ws)] *)
Fixpoint getClient (ws : Ws) (cs : list (Ws * ClientMeta))
  : option ClientMeta :=
  match cs with
  | [] => None
  | (w, meta) :: cs' => if decide (w = ws) then Some meta else getClient ws cs'
  end.

(** [clients.set(ws, meta)]: a key of the map keeps its place, a new key
    goes last. *)
Fixpoint setClient (ws : Ws) (meta : ClientMeta) (cs : list (Ws * ClientMeta))
  : list (Ws * ClientMeta) :=
  match cs with
  | [] => [(ws, meta)]
  | (w, m) :: cs' =>
      if decide (w = ws) then (ws, meta) :: cs'
      else (w, m) :: setClient ws meta cs'
  end.

(** [clients.delete(ws)] *)
Definition deleteClient (ws : Ws) (cs : list (Ws * ClientMeta))
  : list (Ws * ClientMeta) :=
  filter (λ c, c.1 ≠ ws) cs.

Section Connections.
Context {N : Type} `{!JsNumber N}.

(** The metadata the handlers read for a socket.  For a socket that is not
    in the map, [handleJoin] reads [{}] and the other handlers [undefined]:
    no type, no user, as for a spectator without user. *)
Definition clientMeta (ws : Ws) (srv : Server N) : ClientMeta :=
  default (Spectator None) (getClient ws (clients srv)).

Definition broadcastGameState (st : State N) : list (Sent N) :=
  Broadcast (Snapshot st)
  :: (if decide (gameStatus st = Finished)
      then [Broadcast (GameOver (winner st))] else []).

(** [wss.on("connection")], with the user decoded from the token of the
    request, if any. *)
Definition onConnection (ws : Ws) (userFromToken : option User)
    (srv : Server N) : list (Sent N) * Server N :=
  ([SendTo ws (Snapshot (game srv))],
   mkServer (game srv)
            (setClient ws (Spectator userFromToken) (clients srv))).

(** [handleJoin(ws, payload)], with what it sends and what it records for
    the socket. *)
Definition joinGame (ws : Ws) (payload : JoinPayload) (uuid : Id)
    (srv : Server N) : list (Sent N) * Server N :=
  let meta := clientMeta ws srv in
  match handleJoin (game srv) meta payload uuid with
  | (JOINED_AS_PLAYER playerId, st') =>
      (SendTo ws (Answer (JOINED_AS_PLAYER playerId))
         :: broadcastGameState st',
       mkServer st'
         (setClient ws (PlayerClient (clientUser meta) playerId)
                    (clients srv)))
  | (reply, st') => ([SendTo ws (Answer reply)], mkServer st' (clients srv))
  end.

(** [handleRequestAction(ws, payload)]; [None]: the handler has not returned
    within the fuel. *)
Definition requestAction (fuel : nat) (ws : Ws) (payload : ActionPayload N)
    (uuid : Id) (srv : Server N) : option (list (Sent N) * Server N) :=
  match handleRequestAction fuel (game srv) (clientMeta ws srv) payload uuid
  with
  | None => None
  | Some (GAME_STATE_UPDATE, st') =>
      Some (broadcastGameState st', mkServer st' (clients srv))
  | Some (reply, st') =>
      Some ([SendTo ws (Answer reply)], mkServer st' (clients srv))
  end.

(** [handleResetGame(ws)]: on success every client of the map becomes
    [{ type: "spectator" }] and is sent [GAME_RESET]. *)
Definition resetGameFor (ws : Ws) (srv : Server N)
  : list (Sent N) * Server N :=
  match handleResetGame (game srv) with
  | (GAME_RESET, st') =>
      ((((λ c : Ws * ClientMeta, SendTo c.1 (Answer GAME_RESET))
           <$> clients srv) ++ broadcastGameState st')%list,
       mkServer st'
         ((λ c : Ws * ClientMeta, (c.1, Spectator None)) <$> clients srv))
  | (reply, st') => ([SendTo ws (Answer reply)], mkServer st' (clients srv))
  end.

(** [ws.on("message")]; [uuid] is the value that [randomUUID()] returns if
    the handler calls it. *)
Definition onMessage (fuel : nat) (ws : Ws) (message : Message N)
    (uuid : Id) (srv : Server N) : option (list (Sent N) * Server N) :=
  match message with
  | Unparsable => Some ([SendTo ws InvalidJson], srv)
  | JOIN_GAME payload => Some (joinGame ws payload uuid srv)
  | REQUEST_ACTION payload => requestAction fuel ws payload uuid srv
  | RESET_GAME => Some (resetGameFor ws srv)
  | OtherMessage => Some ([SendTo ws UnknownMessageType], srv)
  end.

(** [ws.on("close")]: [handleDisconnect(ws)], then [clients.delete(ws)]. *)
Definition onClose (ws : Ws) (srv : Server N) : list (Sent N) * Server N :=
  let meta := clientMeta ws srv in
  let st' := handleDisconnect (game srv) meta in
  (match meta with
   | PlayerClient _ _ => broadcastGameState st'
   | Spectator _ => []
   end,
   mkServer st' (deleteClient ws (clients srv))).

(** One event of the server.  The socket of a new connection is a new
    object, and [randomUUID] gives a new player an id that no seated player
    bears. *)
Inductive ServerStep : Server N → list (Sent N) → Server N → Prop :=
  | serve_connection ws user srv :
      getClient ws (clients srv) = None →
      ServerStep srv (onConnection ws user srv).1 (onConnection ws user srv).2
  | serve_message fuel ws message uuid srv out srv' :
      (∀ payload, message = JOIN_GAME payload →
                  uuid ∉ p_id <$> players (game srv)) →
      onMessage fuel ws message uuid srv = Some (out, srv') →
      ServerStep srv out srv'
  | serve_close ws srv :
      ServerStep srv (onClose ws srv).1 (onClose ws srv).2.

(** The server starts with [new GameStateManager()] and an empty map. *)
Definition initialServer : Server N := mkServer initialState [].

Definition served (srv : Server N) : Prop :=
  rtc (λ s s', ∃ out, ServerStep s out s') initialServer srv.



End Connections.

(** ** More sample games, and sample runs of the server *)

Module Games.
Import Samples.

(** Three players have joined and the first has left: [p2] and [p3] wait in
    the Lobby, seated again on the first two starting positions. *)
Definition waiting : State Z := Eval vm_compute in
  leaveAs "p1"
    (joinAs "Cleo" "#0000fF" "p3"
       (joinAs "Bob" " #00ff00 " "p2"
          (joinAs "Ada" "#ff0000" "p1" (initialState (N:=Z))))).

(** [p1] has walked to (3,0) and [p2] to (5,0), two cells apart; [p1] holds
    the turn. *)
Definition skirmish : State Z := Eval vm_compute in
  actAs "p4" MOVE 8 7 ""
    (actAs "p3" MOVE 0 7 ""
       (actAs "p2" MOVE 5 0 ""
          (actAs "p1" MOVE 3 0 "" started))).


(** In [screened], [p1] attacks (0,1), where its own obstacle stands. *)
Definition breached : State Z := Eval vm_compute in
  actAs "p1" ATTACK 0 1 "" screened.

(** The second player, with its position and its hit points. *)
Definition bob (x y pdv : Z) : Player Z :=
  mkPlayer "p2" None (js "Bob") (js "#00FF00") pdv (Some (cell x y)) 3
           Active.

(** The first obstacle of [walled]. *)
Definition wall : Obstacle Z := mkObstacle "o1" (cell 1 0) 2 "p1".



(** *** Runs of the server *)

Definition connectAs (ws : Ws) (srv : Server Z) : Server Z :=
  (onConnection ws None srv).2.

(** The message of [ws], with enough fuel for the ray loops on a legal
    target; a message whose handler has not returned by then leaves the
    server as it is. *)
Definition sendAs (ws : Ws) (message : Message Z) (uuid : Id)
    (srv : Server Z) : Server Z :=
  match onMessage 4 ws message uuid srv with
  | Some (_, srv') => srv'
  | None => srv
  end.

Definition closeAs (ws : Ws) (srv : Server Z) : Server Z :=
  (onClose ws srv).2.

Definition joinWith (name color : string) : Message Z :=
  JOIN_GAME
    (mkJoinPayload (VString (js name)) (VString (js color)) VFalsy None).

(** Five sockets are connected; the first four have joined, as [p1] to
    [p4], and the game has started; the fifth looks on. *)
Definition table : Server Z := Eval vm_compute in
  connectAs 4%nat
    (sendAs 3%nat (joinWith "Dan" "#abcdef") "p4"
       (connectAs 3%nat
          (sendAs 2%nat (joinWith "Cleo" "#0000fF") "p3"
             (connectAs 2%nat
                (sendAs 1%nat (joinWith "Bob" " #00ff00 ") "p2"
                   (connectAs 1%nat
                      (sendAs 0%nat (joinWith "Ada" "#ff0000") "p1"
                         (connectAs 0%nat initialServer)))))))).

(** The sockets of [p1] and [p2] have closed: [p3] and [p4] play on, [p3]
    holds the turn. *)
Definition duel : Server Z := Eval vm_compute in
  closeAs 1%nat (closeAs 0%nat table).

End Games.

(** * Properties *)

(** ** Outcomes *)

Lemma throwIf_True (c : Prop) `{!Decision c} e : c → throwIf c e = Throw e.
Proof. intros Hc. unfold throwIf. by rewrite decide_True. Qed.

Lemma throwIf_False (c : Prop) `{!Decision c} e : ¬ c → throwIf c e = Return ().
Proof. intros Hc. unfold throwIf. by rewrite decide_False. Qed.

Lemma throwIf_Return (c : Prop) `{!Decision c} e u :
  throwIf c e = Return u → ¬ c.
Proof. unfold throwIf. case_decide; [discriminate|done]. Qed.

Lemma throwIf_terminates (c : Prop) `{!Decision c} e : throwIf c e ≠ OutOfFuel.
Proof. unfold throwIf. case_decide; discriminate. Qed.

Lemma bind_Return {A B} (a : A) (f : A → Outcome B) : Return a ≫= f = f a.
Proof. reflexivity. Qed.

Lemma bind_Throw {A B} e (f : A → Outcome B) : Throw e ≫= f = Throw e.
Proof. reflexivity. Qed.

(** ** Victory evaluation *)

Section Victory.
Context {N : Type} `{!JsNumber N}.
Implicit Types st : State N.

Lemma checkVictory_not_in_progress st :
  gameStatus st ≠ InProgress → checkVictory st = st.
Proof.
  intros Hs. unfold checkVictory.
  repeat case_decide; try reflexivity; tauto.
Qed.

Lemma checkVictory_many st :
  (2 ≤ length (activePlayers st))%nat → checkVictory st = st.
Proof.
  intros Hlen. unfold checkVictory.
  repeat case_decide; destruct_and?; try reflexivity; lia.
Qed.

Lemma checkVictory_status st :
  gameStatus (checkVictory st) = InProgress →
  gameStatus st = InProgress ∧ (2 ≤ length (activePlayers st))%nat.
Proof.
  unfold checkVictory. repeat case_decide; simpl; try discriminate.
  intros Hs. split; [exact Hs|].
  destruct (decide (length (activePlayers st) = 1%nat)); [tauto|].
  destruct (decide (length (activePlayers st) = 0%nat)); [tauto|]. lia.
Qed.

Lemma checkVictory_players st : players (checkVictory st) = players st.
Proof. unfold checkVictory. repeat case_decide; reflexivity. Qed.

Lemma checkVictory_obstacles st : obstacles (checkVictory st) = obstacles st.
Proof. unfold checkVictory. repeat case_decide; reflexivity. Qed.

Lemma checkVictory_turn st :
  currentPlayerTurn (checkVictory st) = currentPlayerTurn st.
Proof. unfold checkVictory. repeat case_decide; reflexivity. Qed.

Lemma checkVictory_gridSize st : gridSize (checkVictory st) = gridSize st.
Proof. unfold checkVictory. repeat case_decide; reflexivity. Qed.
(** A single Active player of a game in progress wins it. *)
Lemma checkVictory_single st p :
  gameStatus st = InProgress → activePlayers st = [p] →
  checkVictory st =
    mkState Finished (gridSize st) (players st) (obstacles st)
            (currentPlayerTurn st) (Some (p_pseudo p)) (Some (p_id p)).
Proof.
  intros Hs Ha. unfold checkVictory. rewrite Ha. simpl.
  repeat case_decide; destruct_and?; try reflexivity; try lia; tauto.
Qed.
End Victory.

(** C9. Victory evaluation counts the players whose status is Active.
    While the game is in progress, a single Active player makes the game
    Finished with that player as winner (pseudo and id), no Active player
    makes it Finished with no winner; in every other case the store is
    unchanged. *)
Theorem checkVictory_spec {N} `{!JsNumber N} (st : State N) :
  (∀ p, gameStatus st = InProgress →
        filter (λ q, p_status q = Active) (players st) = [p] →
        checkVictory st =
          mkState Finished (gridSize st) (players st) (obstacles st)
                  (currentPlayerTurn st) (Some (p_pseudo p)) (Some (p_id p)))
  ∧ (gameStatus st = InProgress →
        filter (λ q, p_status q = Active) (players st) = [] →
        checkVictory st =
          mkState Finished (gridSize st) (players st) (obstacles st)
                  (currentPlayerTurn st) None None)
  ∧ (gameStatus st ≠ InProgress
     ∨ (2 ≤ length (filter (λ q, p_status q = Active) (players st)))%nat →
        checkVictory st = st).
Proof.
  split; [|split].
  - intros p Hs Ha. by apply checkVictory_single.
  - intros Hs Ha. unfold checkVictory, activePlayers. rewrite Ha. simpl.
    repeat case_decide; destruct_and?; try reflexivity; try lia; tauto.
  - intros [Hs|Hlen].
    + by apply checkVictory_not_in_progress.
    + by apply checkVictory_many.
Qed.

(** ** Reset *)

(** C2. A reset request while the game is not Finished is refused and leaves
    the store as it is; while the game is Finished it replaces the store by
    an empty Lobby of the same grid size, for every store whose grid size is
    a number other than zero (as it is in every reachable store, see
    [reachable_gridSize]). *)
Theorem reset_spec {N} `{!JsNumber N} (st : State N) :
  (gameStatus st ≠ Finished →
     handleResetGame st = (ACTION_INVALID GameNotFinished, st))
  ∧ (gameStatus st = Finished → gridSize st ≠ 0 →
     handleResetGame st =
       (GAME_RESET, mkState Lobby (gridSize st) [] [] None None None)).
Proof.
  unfold handleResetGame, resetGame, createInitialState. split.
  - intros Hs. case_decide; [reflexivity|tauto].
  - intros Hs Hg. case_decide; [congruence|].
    case_decide; [tauto|reflexivity].
Qed.

(** ** Shared preconditions of the actions *)

Section Preconditions.
Context {N : Type} `{!JsNumber N}.
Implicit Types st : State N.

Lemma requireActivePlayer_Return st playerId i player :
  requireActivePlayer st playerId = Return (i, player) ↔
  list_find (λ p, p_id p = playerId) (players st) = Some (i, player)
  ∧ p_status player = Active.
Proof.
  unfold requireActivePlayer.
  destruct (list_find _ _) as [[j q]|]; [|split; [discriminate|intros [? _]; discriminate]].
  case_decide as Hq.
  - split; [discriminate|]. intros [[= -> ->] ?]. tauto.
  - split.
    + intros [= -> ->]. split; [reflexivity|].
      destruct (p_status player); [reflexivity|tauto].
    + intros [[= -> ->] _]. reflexivity.
Qed.

Lemma requireActivePlayer_fail st playerId :
  (¬ ∃ i player,
       list_find (λ p, p_id p = playerId) (players st) = Some (i, player)
       ∧ p_status player = Active) →
  requireActivePlayer st playerId = Throw JoueurIntrouvable
  ∨ requireActivePlayer st playerId = Throw JoueurDejaElimine.
Proof.
  intros Hno. unfold requireActivePlayer.
  destruct (list_find _ _) as [[j q]|]; [|by left].
  case_decide as Hq; [by right|].
  exfalso. apply Hno. exists j, q. split; [reflexivity|].
  destruct (p_status q); [reflexivity|tauto].
Qed.
End Preconditions.

(** C1. Each of the three actions first checks the shared preconditions:
    when the game is not in progress, or the caller does not hold the turn,
    or the caller's player object is missing or not Active, the request is
    answered by an action-invalid message carrying one of the reasons of
    these checks, whatever the target, and the store (the turn included) is
    unchanged. *)
Theorem action_preconditions_checked_first {N} `{!JsNumber N}
    (fuel : nat) (st : State N) (user : option User) (playerId : Id)
    (payload : ActionPayload N) (uuid : Id) :
  actionType payload ≠ OtherActionType →
  ¬ actionPreconditions st playerId →
  ∃ e, handleRequestAction fuel st (PlayerClient user playerId) payload uuid
         = Some (ACTION_INVALID e, st)
       ∧ e ∈ preconditionErrors.
Proof.
  intros Hkind Hpre. unfold handleRequestAction.
  case_decide as Hs.
  { exists GameMustBeInProgress. split; [reflexivity|]. set_solver. }
  case_decide as Ht.
  { exists NotYourTurn. split; [reflexivity|]. set_solver. }
  assert (Hno : ¬ ∃ i player,
             list_find (λ p : Player N, p_id p = playerId) (players st)
               = Some (i, player) ∧ p_status player = Active).
  { intros Hex. apply Hpre. unfold actionPreconditions.
    split; [by destruct (decide (gameStatus st = InProgress))|].
    split; [by destruct (decide (currentPlayerTurn st = Some playerId))|].
    exact Hex. }
  destruct (requireActivePlayer_fail st playerId Hno) as [Hr|Hr].
  - exists JoueurIntrouvable. split; [|set_solver].
    unfold executeMove, executeAttack, executePlaceObstacle.
    destruct (actionType payload); try congruence; by rewrite Hr.
  - exists JoueurDejaElimine. split; [|set_solver].
    unfold executeMove, executeAttack, executePlaceObstacle.
    destruct (actionType payload); try congruence; by rewrite Hr.
Qed.

(** ** Joining *)

Section Strings.

Lemma isWhiteSpace_spec (c : Z) : isWhiteSpace c = true ↔ whiteSpace c.
Proof.
  unfold isWhiteSpace, whiteSpace.
  rewrite bool_decide_eq_true, !elem_of_cons, elem_of_nil. lia.
Qed.

Lemma isWhiteSpace_false (c : Z) : isWhiteSpace c = false ↔ ¬ whiteSpace c.
Proof.
  rewrite <- isWhiteSpace_spec. destruct (isWhiteSpace c).
  - split; [discriminate|]. intros H. by destruct H.
  - split; [discriminate|reflexivity].
Qed.

Lemma isHexDigit_range (d : Z) : isHexDigit d = true ↔ hexDigit d.
Proof. unfold isHexDigit, hexDigit. rewrite bool_decide_eq_true. lia. Qed.

Lemma trimStart_empty s : trimStart s = [] ↔ whitespaceOnly s.
Proof.
  unfold whitespaceOnly. induction s as [|c s IH]; simpl.
  - split; [constructor|reflexivity].
  - destruct (isWhiteSpace c) eqn:Hc.
    + apply isWhiteSpace_spec in Hc. rewrite IH. split.
      * intros Hs. by constructor.
      * intros Hs. by inversion Hs.
    + apply isWhiteSpace_false in Hc. split; [discriminate|].
      intros Hs. inversion Hs; contradiction.
Qed.

Lemma trimEnd_nonempty c s :
  isWhiteSpace c = false → trimEnd (c :: s) ≠ [].
Proof.
  intros Hc. simpl. destruct (trimEnd s); [rewrite Hc|]; discriminate.
Qed.

Lemma trimStart_head s c t :
  trimStart s = c :: t → isWhiteSpace c = false.
Proof.
  induction s as [|d s IH]; simpl; [discriminate|].
  destruct (isWhiteSpace d) eqn:Hd; [exact IH|].
  intros [= -> ->]. exact Hd.
Qed.

Lemma trim_empty s : trim s = [] ↔ whitespaceOnly s.
Proof.
  rewrite <- trimStart_empty. unfold trim.
  destruct (trimStart s) as [|c t] eqn:Hs.
  - split; reflexivity.
  - split; [|discriminate].
    intros He. exfalso. revert He. apply trimEnd_nonempty.
    by eapply trimStart_head.
Qed.

Lemma length_zero_empty (s : JsString) : length s = 0%nat ↔ s = [].
Proof. destruct s; simpl; split; (reflexivity || discriminate). Qed.

Lemma matchesHexColor_strict s :
  matchesHexColor s = true ↔ isStrictHexColor s.
Proof.
  unfold isStrictHexColor. split.
  - destruct s as [|c [|d1 [|d2 [|d3 [|d4 [|d5 [|d6 [|d7 s]]]]]]]];
      simpl; rewrite ?andb_false_r; try discriminate;
      try (rewrite andb_true_iff, andb_true_iff, !bool_decide_eq_true;
           simpl; intros [[_ ?] _]; discriminate).
    rewrite !andb_true_iff, !bool_decide_eq_true, !isHexDigit_range.
    intros [[-> _] (H1 & H2 & H3 & H4 & H5 & H6 & _)].
    exists d1, d2, d3, d4, d5, d6. split; [reflexivity|].
    repeat (apply Forall_cons_2; [assumption|]). apply Forall_nil_2.
  - intros (d1 & d2 & d3 & d4 & d5 & d6 & -> & Hd).
    inversion Hd as [|? ? H1 Hd1]; subst.
    inversion Hd1 as [|? ? H2 Hd2]; subst.
    inversion Hd2 as [|? ? H3 Hd3]; subst.
    inversion Hd3 as [|? ? H4 Hd4]; subst.
    inversion Hd4 as [|? ? H5 Hd5]; subst.
    inversion Hd5 as [|? ? H6 Hd6]; subst.
    apply isHexDigit_range in H1, H2, H3, H4, H5, H6.
    simpl. rewrite H1, H2, H3, H4, H5, H6. reflexivity.
Qed.

(** *** What [trim] removes *)

Lemma trimStart_app s pre :
  whitespaceOnly pre → trimStart (pre ++ s)%list = trimStart s.
Proof.
  induction 1 as [|c pre Hc Hpre IH]; [reflexivity|]. simpl.
  apply isWhiteSpace_spec in Hc. by rewrite Hc.
Qed.

Lemma trimStart_keep s :
  (∀ c, head s = Some c → ¬ whiteSpace c) → trimStart s = s.
Proof.
  destruct s as [|c s]; [reflexivity|]. intros Hc. simpl.
  by rewrite (proj2 (isWhiteSpace_false c) (Hc c eq_refl)).
Qed.

Lemma trimEnd_empty s : whitespaceOnly s → trimEnd s = [].
Proof.
  induction 1 as [|c s Hc Hs IH]; [reflexivity|]. simpl. rewrite IH.
  apply isWhiteSpace_spec in Hc. by rewrite Hc.
Qed.

Lemma trimEnd_app s post :
  whitespaceOnly post → trimEnd (s ++ post)%list = trimEnd s.
Proof.
  intros Hpost. induction s as [|c s IH]; simpl.
  - by apply trimEnd_empty.
  - by rewrite IH.
Qed.

Lemma trimEnd_keep s :
  (∀ c, last s = Some c → ¬ whiteSpace c) → trimEnd s = s.
Proof.
  induction s as [|c s IH]; [reflexivity|]. intros Hlast. simpl.
  destruct s as [|d s].
  - simpl. by rewrite (proj2 (isWhiteSpace_false c) (Hlast c eq_refl)).
  - rewrite IH by exact Hlast. reflexivity.
Qed.

Lemma trimStart_split s :
  ∃ pre, s = (pre ++ trimStart s)%list ∧ whitespaceOnly pre.
Proof.
  induction s as [|c s (pre & Hs & Hpre)]; simpl.
  - exists []. split; [reflexivity|constructor].
  - destruct (isWhiteSpace c) eqn:Hc.
    + exists (c :: pre). split; [simpl; by rewrite <- Hs|].
      constructor; [by apply isWhiteSpace_spec|exact Hpre].
    + exists []. split; [reflexivity|constructor].
Qed.

Lemma trimEnd_split s :
  ∃ post, s = (trimEnd s ++ post)%list ∧ whitespaceOnly post.
Proof.
  induction s as [|c s (post & Hs & Hpost)]; simpl.
  - exists []. split; [reflexivity|constructor].
  - destruct (trimEnd s) as [|d t] eqn:Ht.
    + destruct (isWhiteSpace c) eqn:Hc.
      * exists (c :: post). split; [simpl; by rewrite Hs at 1|].
        constructor; [by apply isWhiteSpace_spec|exact Hpost].
      * exists post. split; [simpl; by rewrite Hs at 1|exact Hpost].
    + exists post. split; [simpl; by rewrite Hs at 1|exact Hpost].
Qed.

Lemma trimEnd_last s c : last (trimEnd s) = Some c → ¬ whiteSpace c.
Proof.
  induction s as [|d s IH]; simpl; [discriminate|].
  destruct (trimEnd s) as [|e t] eqn:Ht.
  - destruct (isWhiteSpace d) eqn:Hd; simpl; [discriminate|].
    intros [= <-]. by apply isWhiteSpace_false.
  - intros Hl. apply IH. exact Hl.
Qed.

Lemma trim_head s c : head (trim s) = Some c → ¬ whiteSpace c.
Proof.
  unfold trim. destruct (trimStart s) as [|d t] eqn:Hs; [discriminate|].
  pose proof (trimStart_head s d t Hs) as Hd. simpl.
  destruct (trimEnd t); [rewrite Hd|]; simpl; intros [= <-];
    by apply isWhiteSpace_false.
Qed.

(** [trim] returns the string without the white space around it, and
    nothing else does. *)
Lemma trim_trimmedTo s : trimmedTo s (trim s).
Proof.
  split; [|split; [apply trim_head|apply trimEnd_last]].
  destruct (trimStart_split s) as (pre & Hs & Hpre).
  destruct (trimEnd_split (trimStart s)) as (post & Ht & Hpost).
  exists pre, post. split; [|by split].
  unfold trim. by rewrite <- Ht.
Qed.

Lemma trimmedTo_trim s core : trimmedTo s core → trim s = core.
Proof.
  intros ((pre & post & -> & Hpre & Hpost) & Hhead & Hlast). unfold trim.
  rewrite trimStart_app by exact Hpre.
  destruct core as [|c core].
  - simpl. rewrite (proj2 (trimStart_empty post) Hpost). reflexivity.
  - rewrite trimStart_keep by exact Hhead.
    rewrite trimEnd_app by exact Hpost. by apply trimEnd_keep.
Qed.

Lemma normalizeColor_None color :
  normalizeColor color = None ↔
  ∀ s, color = VString s → ¬ isStrictHexColor (trim s).
Proof.
  destruct color as [s| |]; simpl.
  - destruct (matchesHexColor (trim s)) eqn:Hm.
    + split; [discriminate|]. intros Hs. exfalso.
      apply (Hs s eq_refl). by apply matchesHexColor_strict.
    + split; [|reflexivity]. intros _ s' [= <-].
      rewrite <- matchesHexColor_strict. congruence.
  - split; [intros _ s; discriminate|reflexivity].
  - split; [intros _ s; discriminate|reflexivity].
Qed.

End Strings.

Section Join.
Context {N : Type} `{!JsNumber N}.
Implicit Types st : State N.

(** [addPlayer] has no loop. *)
Lemma addPlayer_terminates st pseudo color size userId uuid :
  addPlayer st pseudo color size userId uuid ≠ OutOfFuel.
Proof.
  unfold addPlayer, throwIf.
  case_decide; simpl; [discriminate|].
  destruct pseudo; try discriminate.
  case_decide; simpl; [discriminate|].
  destruct (normalizeColor color); discriminate.
Qed.

Lemma addPlayer_pseudo_invalid st pseudo color size userId uuid :
  (length (players st) < MAX_PLAYERS)%nat →
  (∀ s, pseudo = VString s → whitespaceOnly s) →
  addPlayer st pseudo color size userId uuid = Throw PseudoInvalide.
Proof.
  intros Hlen Hp. unfold addPlayer, throwIf.
  case_decide; [lia|]. simpl.
  destruct pseudo as [s| |]; try reflexivity.
  case_decide as Hs; [reflexivity|]. exfalso. apply Hs. right.
  apply length_zero_empty, trim_empty. by apply Hp.
Qed.

Lemma addPlayer_color_invalid st pseudo color size userId uuid :
  (∀ s, color = VString s → ¬ isStrictHexColor (trim s)) →
  ∃ e, addPlayer st pseudo color size userId uuid = Throw e.
Proof.
  intros Hc. apply normalizeColor_None in Hc.
  unfold addPlayer, throwIf.
  case_decide; simpl; [by eexists|].
  destruct pseudo; try by eexists.
  case_decide; simpl; [by eexists|].
  rewrite Hc. by eexists.
Qed.

Lemma handleJoin_addPlayer_Throw st user payload uuid e :
  addPlayer st (joinPseudo user payload) (joinColor payload)
            (parseGridSize (jp_gridSize payload)) (user ≫= u_id) uuid
    = Throw e →
  joinRejected st (handleJoin st (Spectator user) payload uuid).
Proof.
  intros Ha. unfold handleJoin.
  case_decide; [by split|]. rewrite Ha. by split.
Qed.
End Join.

(** C5. A join request is rejected (the store is unchanged and the caller is
    not seated) when four players are already seated or the game is not in
    the Lobby; when the display name is not a string, is empty or consists of
    white space only; and when the color is not a string, or is not, once
    the white space around it is removed, a [#] followed by exactly six
    hexadecimal digits. *)
Theorem join_rejected {N} `{!JsNumber N} (st : State N) (meta : ClientMeta)
    (payload : JoinPayload) (uuid : Id) :
  ((MAX_PLAYERS ≤ length (players st))%nat ∨ gameStatus st ≠ Lobby →
     joinRejected st (handleJoin st meta payload uuid))
  ∧ ((∀ s, joinPseudo (clientUser meta) payload = VString s → whitespaceOnly s) →
     joinRejected st (handleJoin st meta payload uuid))
  ∧ ((∀ s core, joinColor payload = VString s → trimmedTo s core →
                ¬ isStrictHexColor core) →
     joinRejected st (handleJoin st meta payload uuid)).
Proof.
  destruct meta as [user|user pid]; [|by repeat split].
  change (clientUser (Spectator user)) with user.
  split; [|split].
  - intros Hfull. unfold handleJoin. case_decide; [by split|tauto].
  - intros Hp.
    destruct (decide ((MAX_PLAYERS ≤ length (players st))%nat
                      ∨ gameStatus st ≠ Lobby)) as [Hfull|Hfree].
    + unfold handleJoin. case_decide; [by split|tauto].
    + eapply handleJoin_addPlayer_Throw.
      apply addPlayer_pseudo_invalid; [|exact Hp].
      destruct (decide (length (players st) < MAX_PLAYERS)%nat); [done|].
      exfalso. apply Hfree. left. lia.
  - intros Hcore.
    assert (Hc : ∀ s, joinColor payload = VString s →
                      ¬ isStrictHexColor (trim s))
      by (intros s Hs; apply (Hcore s (trim s) Hs), trim_trimmedTo).
    destruct (addPlayer_color_invalid st (joinPseudo user payload)
                (joinColor payload) (parseGridSize (jp_gridSize payload))
                (user ≫= u_id) uuid Hc) as [e He].
    by eapply handleJoin_addPlayer_Throw.
Qed.

(** ** Occupancy lookups *)

Section OccupancyLemmas.
Context {N : Type} `{!JsNumber N}.
Implicit Types (st : State N) (position : Position N).

Lemma getPlayerAt_from_find (l : list (Player N)) position i :
  (∀ p, p ∈ l → p_status p = Active → is_Some (p_position p)) →
  getPlayerAt_from i l position
  = Return (prod_map (λ k, (k + i)%nat) id <$> list_find (playerAt position) l).
Proof.
  revert i. induction l as [|p l IH]; intros i Hpos; [reflexivity|].
  simpl.
  assert (Hl : ∀ q, q ∈ l → p_status q = Active → is_Some (p_position q)).
  { intros q Hq. apply Hpos. by right. }
  assert (Hshift : Return (prod_map (λ k, (k + S i)%nat) id
                             <$> list_find (playerAt position) l)
                   = Return (prod_map (λ k, (k + i)%nat) id
                             <$> (prod_map S id
                                  <$> list_find (playerAt position) l))).
  { destruct (list_find (playerAt position) l) as [[k r]|]; simpl;
      [|reflexivity]. do 3 f_equal. lia. }
  destruct (decide (p_status p = Active)) as [Ha|Ha].
  - destruct (Hpos p (list_elem_of_here _ _) Ha) as [q Hq]. rewrite Hq.
    destruct (decide (num_eq (pos_x q) (pos_x position)
                      ∧ num_eq (pos_y q) (pos_y position))) as [Hat|Hat].
    + rewrite decide_True; [reflexivity|].
      unfold playerAt. rewrite Hq. tauto.
    + rewrite decide_False; [|unfold playerAt; rewrite Hq; tauto].
      rewrite IH by exact Hl. exact Hshift.
  - rewrite decide_False; [|unfold playerAt; tauto].
    rewrite IH by exact Hl. exact Hshift.
Qed.

(** The occupancy lookups have no unbounded loop. *)
Lemma getPlayerAt_terminates st position :
  getPlayerAt st position ≠ OutOfFuel.
Proof.
  unfold getPlayerAt. generalize 0%nat.
  induction (players st) as [|p l IH]; intros i; simpl; [discriminate|].
  case_decide; [|apply IH].
  destruct (p_position p); [|discriminate].
  case_decide; [discriminate|apply IH].
Qed.

Lemma isOccupied_terminates st position :
  isOccupied st position ≠ OutOfFuel.
Proof.
  unfold isOccupied.
  pose proof (getPlayerAt_terminates st position).
  destruct (getPlayerAt st position); cbn [mbind Outcome_bind];
    (discriminate || done).
Qed.

Lemma getPlayerAt_find st position :
  positioned st →
  getPlayerAt st position = Return (list_find (playerAt position) (players st)).
Proof.
  intros Hpos. unfold getPlayerAt. rewrite getPlayerAt_from_find by exact Hpos.
  destruct (list_find _ _) as [[k r]|]; simpl; [|reflexivity].
  do 3 f_equal. lia.
Qed.

Lemma getObstacleAt_find st position :
  getObstacleAt st position = list_find (obstacleAt position) (obstacles st).
Proof. reflexivity. Qed.

Lemma list_find_is_Some {A} (P : A → Prop) `{!∀ x, Decision (P x)} (l : list A) :
  is_Some (list_find P l) ↔ Exists P l.
Proof.
  rewrite Exists_exists. split.
  - intros [[i x] Hf]. apply list_find_Some in Hf as (Hl & HP & _).
    exists x. split; [by eapply list_elem_of_lookup_2|done].
  - intros (x & Hx & HP). by eapply list_find_elem_of.
Qed.

Lemma isOccupied_occupied st position :
  positioned st →
  isOccupied st position = Return (bool_decide (occupied st position)).
Proof.
  intros Hpos. unfold isOccupied. rewrite getPlayerAt_find by exact Hpos.
  simpl. f_equal. apply bool_decide_ext. unfold occupied.
  rewrite getObstacleAt_find, !list_find_is_Some. reflexivity.
Qed.

Lemma entityAt_None st position :
  entityAt st position = None ↔ ¬ occupied st position.
Proof.
  unfold entityAt, occupied.
  destruct (list_find (playerAt position) _) as [[i p]|] eqn:Hp.
  { split; [discriminate|]. intros Hn. exfalso. apply Hn. left.
    apply (proj1 (list_find_is_Some (playerAt position) (players st))).
    by eapply mk_is_Some. }
  destruct (list_find (obstacleAt position) _) as [[j o]|] eqn:Ho.
  { split; [discriminate|]. intros Hn. exfalso. apply Hn. right.
    apply (proj1 (list_find_is_Some (obstacleAt position) (obstacles st))).
    by eapply mk_is_Some. }
  split; [|reflexivity]. intros _ [Hs|Hs].
  - apply (proj2 (list_find_is_Some (playerAt position) (players st))) in Hs.
    rewrite Hp in Hs. by apply is_Some_None in Hs.
  - apply (proj2 (list_find_is_Some (obstacleAt position) (obstacles st))) in Hs.
    rewrite Ho in Hs. by apply is_Some_None in Hs.
Qed.
End OccupancyLemmas.

(** ** What the lifecycle routines leave untouched *)

Section Lifecycle.
Context {N : Type} `{!JsNumber N}.
Implicit Types (st : State N) (p : Player N).

Lemma advanceTurn_loop_players iters k st :
  players (advanceTurn_loop iters k st) = players st.
Proof.
  revert k. induction iters as [|n IH]; intros k; simpl; [reflexivity|].
  destruct (players st !! _) as [p|]; [|reflexivity].
  case_decide; [reflexivity|apply IH].
Qed.

Lemma advanceTurn_loop_obstacles iters k st :
  obstacles (advanceTurn_loop iters k st) = obstacles st.
Proof.
  revert k. induction iters as [|n IH]; intros k; simpl; [reflexivity|].
  destruct (players st !! _) as [p|]; [|reflexivity].
  case_decide; [reflexivity|apply IH].
Qed.

Lemma advanceTurn_loop_gridSize iters k st :
  gridSize (advanceTurn_loop iters k st) = gridSize st.
Proof.
  revert k. induction iters as [|n IH]; intros k; simpl; [reflexivity|].
  destruct (players st !! _) as [p|]; [|reflexivity].
  case_decide; [reflexivity|apply IH].
Qed.

Lemma advanceTurn_loop_status iters k st :
  gameStatus (advanceTurn_loop iters k st) = gameStatus st.
Proof.
  revert k. induction iters as [|n IH]; intros k; simpl; [reflexivity|].
  destruct (players st !! _) as [p|]; [|reflexivity].
  case_decide; [reflexivity|apply IH].
Qed.

Lemma advanceTurn_players st : players (advanceTurn st) = players st.
Proof.
  unfold advanceTurn. repeat case_decide;
    auto using checkVictory_players, advanceTurn_loop_players.
Qed.

Lemma advanceTurn_obstacles st : obstacles (advanceTurn st) = obstacles st.
Proof.
  unfold advanceTurn. repeat case_decide;
    auto using checkVictory_obstacles, advanceTurn_loop_obstacles.
Qed.

Lemma advanceTurn_gridSize st : gridSize (advanceTurn st) = gridSize st.
Proof.
  unfold advanceTurn. repeat case_decide;
    auto using checkVictory_gridSize, advanceTurn_loop_gridSize.
Qed.

Lemma markPlayerDefeated_obstacles playerId st :
  obstacles (markPlayerDefeated playerId st) = obstacles st.
Proof.
  unfold markPlayerDefeated. destruct (list_find _ _) as [[i p]|];
    [case_decide|]; reflexivity.
Qed.

Lemma markPlayerDefeated_gridSize playerId st :
  gridSize (markPlayerDefeated playerId st) = gridSize st.
Proof.
  unfold markPlayerDefeated. destruct (list_find _ _) as [[i p]|];
    [case_decide|]; reflexivity.
Qed.

Lemma markPlayerDefeated_status playerId st :
  gameStatus (markPlayerDefeated playerId st) = gameStatus st.
Proof.
  unfold markPlayerDefeated. destruct (list_find _ _) as [[i p]|];
    [case_decide|]; reflexivity.
Qed.

Lemma markPlayerDefeated_turn playerId st :
  currentPlayerTurn (markPlayerDefeated playerId st) = currentPlayerTurn st.
Proof.
  unfold markPlayerDefeated. destruct (list_find _ _) as [[i p]|];
    [case_decide|]; reflexivity.
Qed.

(** Marking a player who is missing or already Defeated changes nothing. *)
Lemma markPlayerDefeated_noop playerId st :
  (∀ i p, list_find (λ q, p_id q = playerId) (players st) = Some (i, p) →
          p_status p = Defeated) →
  markPlayerDefeated playerId st = st.
Proof.
  intros Hd. unfold markPlayerDefeated.
  destruct (list_find _ _) as [[i p]|]; [|reflexivity].
  rewrite decide_True; [reflexivity|]. by eapply Hd.
Qed.

(** With distinct ids, the first player carrying the id of a player of the
    list is that player. *)
Lemma list_find_by_id (l : list (Player N)) p i q :
  NoDup (p_id <$> l) → p ∈ l →
  list_find (λ r, p_id r = p_id p) l = Some (i, q) → q = p.
Proof.
  intros Hnd Hp Hf.
  apply list_find_Some in Hf as (Hi & Hid & _).
  apply list_elem_of_lookup in Hp as [j Hj].
  assert (i = j) as ->; [|congruence].
  eapply NoDup_lookup; [exact Hnd| |].
  - rewrite list_lookup_fmap, Hi. reflexivity.
  - rewrite list_lookup_fmap, Hj. simpl. by rewrite Hid.
Qed.

Lemma alter_ids (f : Player N → Player N) i (l : list (Player N)) :
  (∀ p, p_id (f p) = p_id p) → p_id <$> alter f i l = p_id <$> l.
Proof.
  intros Hf. rewrite (list_fmap_alter p_id f id).
  - by apply list_alter_id.
  - apply Forall_forall. intros p _. apply Hf.
Qed.

(** When ids are distinct and every player without hit points is already
    Defeated, the cleanup only prunes obstacles and evaluates victory. *)
Lemma cleanupAfterAction_players st :
  NoDup (p_id <$> players st) →
  (∀ p, p ∈ players st → p_pdv p ≤ 0 → p_status p = Defeated) →
  cleanupAfterAction st
  = checkVictory (set_obstacles (filter (λ o, 0 < o_pdv o) (obstacles st)) st).
Proof.
  intros Hnd Hdead. unfold cleanupAfterAction. f_equal.
  set (st1 := set_obstacles _ st).
  change (players st1) with (players st).
  assert (Hgen : ∀ l, l ⊆ players st →
            foldl (λ s player,
                     if decide (p_pdv player ≤ 0)
                     then markPlayerDefeated (p_id player) s else s) st1 l
            = st1).
  { induction l as [|p l IH]; intros Hl; [reflexivity|]. simpl.
    assert (Hp : p ∈ players st) by (apply Hl; left).
    case_decide as Hpdv.
    - rewrite markPlayerDefeated_noop; [apply IH; set_solver|].
      intros i q Hf. change (players st1) with (players st) in Hf.
      apply (list_find_by_id _ _ _ _ Hnd Hp) in Hf as ->.
      by apply Hdead.
    - apply IH. set_solver. }
  by apply Hgen.
Qed.
End Lifecycle.

(** ** The two ray loops on integer coordinates *)

Section IntegerRays.
Implicit Types (st : State Z) (a b c t : Position Z).

Lemma cellsFrom_seqZ x y dx dy n :
  cellsFrom x y dx dy n
  = (λ k, mkPosition (x + k * dx) (y + k * dy)) <$> seqZ 0 (Z.of_nat n).
Proof.
  revert x y. induction n as [|n IH]; intros x y; [reflexivity|].
  simpl cellsFrom. rewrite IH.
  rewrite Nat2Z.inj_succ, (seqZ_cons 0 (Z.succ (Z.of_nat n))) by lia.
  replace (Z.pred (Z.succ (Z.of_nat n))) with (Z.of_nat n) by lia.
  change (Z.succ 0) with (1 + 0).
  rewrite <- (fmap_add_seqZ 1 0), fmap_cons, <- list_fmap_compose.
  f_equal; [f_equal; lia|].
  apply list_fmap_ext. intros _ k _. simpl. f_equal; lia.
Qed.

Lemma pathCells_cellsFrom a b :
  pathCells a b
  = cellsFrom (pos_x a + Z.sgn (pos_x b - pos_x a))
              (pos_y a + Z.sgn (pos_y b - pos_y a))
              (Z.sgn (pos_x b - pos_x a)) (Z.sgn (pos_y b - pos_y a))
              (Z.to_nat (distance a b)).
Proof.
  unfold pathCells. rewrite cellsFrom_seqZ.
  assert (Hd : 0 ≤ distance a b) by (unfold distance; simpl; lia).
  rewrite Z2Nat.id by exact Hd.
  change 1 with (1 + 0) at 1.
  rewrite <- (fmap_add_seqZ 1 0), <- list_fmap_compose.
  apply list_fmap_ext. intros _ k _. unfold stepToward. simpl. f_equal; lia.
Qed.

Lemma isPathClear_loop_cells st t dx dy :
  positioned st → Z.abs dx + Z.abs dy = 1 →
  ∀ (n fuel : nat) x y,
    (n < fuel)%nat →
    pos_x t = x + Z.of_nat n * dx → pos_y t = y + Z.of_nat n * dy →
    isPathClear_loop fuel st t dx dy x y
    = Return (bool_decide
                (Forall (λ c, ¬ occupied st c) (cellsFrom x y dx dy (S n)))).
Proof.
  intros Hpos Hd. induction n as [|n IH]; intros fuel x y Hfuel Hx Hy;
    (destruct fuel as [|fuel]; [lia|]); simpl isPathClear_loop.
  - rewrite decide_False by (simpl; lia).
    rewrite isOccupied_occupied by exact Hpos. simpl.
    replace (mkPosition x y) with t by (destruct t; simpl in *; f_equal; lia).
    destruct (decide (occupied st t)) as [Ho|Ho].
    + rewrite bool_decide_true by exact Ho.
      rewrite bool_decide_false; [reflexivity|].
      intros HF. by inversion HF.
    + rewrite bool_decide_false by exact Ho.
      rewrite bool_decide_true; [reflexivity|].
      by repeat constructor.
  - rewrite decide_True by (simpl; lia).
    rewrite isOccupied_occupied by exact Hpos. simpl.
    destruct (decide (occupied st (mkPosition x y))) as [Ho|Ho].
    + rewrite bool_decide_true by exact Ho.
      rewrite bool_decide_false; [reflexivity|].
      intros HF. by inversion HF.
    + rewrite bool_decide_false by exact Ho.
      rewrite IH by lia. f_equal. apply bool_decide_ext.
      change (cellsFrom x y dx dy (S (S n)))
        with (mkPosition x y :: cellsFrom (x + dx) (y + dy) dx dy (S n)).
      rewrite (Forall_cons _ (mkPosition x y)). tauto.
Qed.

(** On a straight line of length at least one, the direction of the loops
    is a unit vector of an axis, and the target is [distance] steps
    away. *)
Lemma straight_direction a b :
  isStraightLine a b → 1 ≤ distance a b →
  Z.abs (Z.sgn (pos_x b - pos_x a)) + Z.abs (Z.sgn (pos_y b - pos_y a)) = 1
  ∧ pos_x b = pos_x a + distance a b * Z.sgn (pos_x b - pos_x a)
  ∧ pos_y b = pos_y a + distance a b * Z.sgn (pos_y b - pos_y a).
Proof. unfold isStraightLine, distance. simpl. intros [Hx|Hy] Hd; nia. Qed.

(** [isPathClear] returns, and tells whether every cell of the path is
    free, as soon as the fuel covers the distance. *)
Lemma isPathClear_pathCells st a b (fuel : nat) :
  positioned st → isStraightLine a b →
  1 ≤ distance a b ≤ Z.of_nat fuel →
  isPathClear fuel st a b
  = Return (bool_decide (Forall (λ c, ¬ occupied st c) (pathCells a b))).
Proof.
  intros Hpos Hline Hd.
  destruct (straight_direction a b Hline) as (Hunit & Hx & Hy); [lia|].
  unfold isPathClear. simpl num_sign. simpl num_sub. simpl num_add.
  rewrite pathCells_cellsFrom.
  replace (Z.to_nat (distance a b))
    with (S (Z.to_nat (distance a b - 1))) by lia.
  apply isPathClear_loop_cells; [exact Hpos|exact Hunit|lia| |].
  - rewrite Z2Nat.id by lia. lia.
  - rewrite Z2Nat.id by lia. lia.
Qed.
End IntegerRays.

(** ** The actions once the acting player and the target are known *)

Section Run.
Implicit Types (st : State Z) (position tgt : Position Z).

Lemma requireActivePlayer_acting st playerId i player position :
  actingPlayer st playerId i player position →
  requireActivePlayer st playerId = Return (i, player).
Proof. intros (Hf & Ha & _). by apply requireActivePlayer_Return. Qed.

Lemma ensureTargetValid_inBounds st target :
  inBounds st target → ensureTargetValid st (targetOf target) = Return target.
Proof.
  intros [Hx Hy]. unfold ensureTargetValid, targetOf, throwIf.
  rewrite decide_False by (simpl; lia). by destruct target.
Qed.

Lemma wellFormed_positioned st : wellFormed st → positioned st.
Proof.
  intros Hwf p Hp Ha. destruct (wf_active st Hwf p Hp Ha) as (_ & q & Hq & _).
  by eapply mk_is_Some.
Qed.

(** [getPlayerAt(target) || getObstacleAt(target)], read for its id. *)
Lemma explicitTarget_entityAt st target :
  match list_find (playerAt target) (players st) with
  | Some (_, p) => Some (p_id p)
  | None => (λ jo : nat * Obstacle Z, o_id jo.2) <$> getObstacleAt st target
  end = hitId <$> entityAt st target.
Proof.
  unfold entityAt. rewrite getObstacleAt_find.
  destruct (list_find (playerAt target) _) as [[k p]|]; [reflexivity|].
  by destruct (list_find (obstacleAt target) _) as [[j o]|].
Qed.

Lemma executeMove_run st playerId i player position tgt
    (target : JsTarget Z) fuel :
  actingPlayer st playerId i player position →
  ensureTargetValid st target = Return tgt →
  executeMove fuel st playerId target
  = (throwIf (¬ isStraightLine position tgt) DeplacementLigneDroite;;
     throwIf (distance position tgt = 0 ∨ MOVE_RANGE < distance position tgt)
             DistanceMaximale;;
     clear ← isPathClear fuel st position tgt;
     throwIf (clear = false) TrajetBloque;;
     Return (advanceTurn (cleanupAfterAction
               (set_players (alter (set_position (Some tgt)) i (players st))
                            st)))).
Proof.
  intros Hact Htgt.
  pose proof (requireActivePlayer_acting _ _ _ _ _ Hact) as Hreq.
  destruct Hact as (Hfind & Hactive & Hposition).
  unfold executeMove, readPosition.
  rewrite Hreq. cbn [mbind Outcome_bind]. rewrite Htgt.
  cbn [mbind Outcome_bind]. rewrite Hposition. reflexivity.
Qed.

Lemma executeAttack_run st playerId i player position tgt
    (target : JsTarget Z) fuel :
  positioned st →
  actingPlayer st playerId i player position →
  ensureTargetValid st target = Return tgt →
  executeAttack fuel st playerId target
  = (throwIf (¬ isStraightLine position tgt) AttaqueLigneDroite;;
     throwIf (distance position tgt = 0 ∨ ATTACK_RANGE < distance position tgt)
             PorteeMaximale;;
     entityHit ← findFirstEntity fuel st position tgt;
     match entityHit with
     | None => Throw AucuneCible
     | Some hit =>
         throwIf (is_Some (hitId <$> entityAt st tgt)
                  ∧ hitId <$> entityAt st tgt ≠ Some (hitId hit))
                 EntiteBloque;;
         Return (advanceTurn (cleanupAfterAction (applyAttack i hit st)))
     end).
Proof.
  intros Hpos Hact Htgt.
  pose proof (requireActivePlayer_acting _ _ _ _ _ Hact) as Hreq.
  destruct Hact as (Hfind & Hactive & Hposition).
  unfold executeAttack, readPosition.
  rewrite Hreq. cbn [mbind Outcome_bind]. rewrite Htgt.
  cbn [mbind Outcome_bind]. rewrite Hposition.
  cbn [mbind Outcome_bind].
  destruct (throwIf (¬ isStraightLine position tgt) _); try reflexivity.
  cbn [mbind Outcome_bind].
  change (throwIf (num_eq (distance position tgt) (num_of_Z 0)
                   ∨ num_lt (num_of_Z ATTACK_RANGE) (distance position tgt))
                  PorteeMaximale)
    with (throwIf (distance position tgt = 0
                   ∨ ATTACK_RANGE < distance position tgt) PorteeMaximale).
  destruct (throwIf (distance position tgt = 0 ∨ _) _); try reflexivity.
  cbn [mbind Outcome_bind].
  destruct (findFirstEntity fuel st position tgt) as [[hit|]| |];
    try reflexivity.
  cbn [mbind Outcome_bind].
  rewrite getPlayerAt_find by exact Hpos.
  rewrite bind_Return, explicitTarget_entityAt. reflexivity.
Qed.

Lemma executePlaceObstacle_run st playerId i player position tgt
    (target : JsTarget Z) uuid :
  positioned st →
  actingPlayer st playerId i player position →
  ensureTargetValid st target = Return tgt →
  executePlaceObstacle st playerId target uuid
  = (throwIf (p_obstaclesRestants player ≤ 0) PlusDObstacles;;
     throwIf (¬ isAdjacent position tgt) CaseAdjacente;;
     throwIf (occupied st tgt) CaseDejaOccupee;;
     Return (advanceTurn (cleanupAfterAction
               (set_players
                  (alter (λ p, set_obstaclesRestants
                                 (p_obstaclesRestants p - 1) p)
                         i (players st))
                  (set_obstacles
                     (obstacles st
                        ++ [mkObstacle uuid tgt OBSTACLE_HP (p_id player)])
                     st))))).
Proof.
  intros Hpos Hact Htgt.
  pose proof (requireActivePlayer_acting _ _ _ _ _ Hact) as Hreq.
  destruct Hact as (Hfind & Hactive & Hposition).
  unfold executePlaceObstacle, readPosition.
  rewrite Hreq. cbn [mbind Outcome_bind]. rewrite Htgt.
  cbn [mbind Outcome_bind].
  destruct (throwIf (p_obstaclesRestants player ≤ 0) _); try reflexivity.
  cbn [mbind Outcome_bind]. rewrite Hposition. cbn [mbind Outcome_bind].
  destruct (throwIf (¬ isAdjacent position tgt) _); try reflexivity.
  cbn [mbind Outcome_bind].
  rewrite isOccupied_occupied by exact Hpos. rewrite bind_Return.
  unfold throwIf.
  destruct (decide (occupied st tgt)) as [Ho|Ho].
  - rewrite bool_decide_true by exact Ho. by rewrite decide_True.
  - rewrite bool_decide_false by exact Ho. by rewrite decide_False.
Qed.
End Run.

(** ** Moves *)

(** An assignment through a reference is the replacement of the object. *)
Lemma alter_insert {A} (f : A → A) (l : list A) i x :
  l !! i = Some x → alter f i l = <[i := f x]> l.
Proof.
  intros Hi. apply list_eq. intros j.
  destruct (decide (i = j)) as [<-|Hne].
  - rewrite list_lookup_alter_eq, Hi.
    by rewrite list_lookup_insert_eq by (by eapply lookup_lt_Some).
  - by rewrite list_lookup_alter_ne, list_lookup_insert_ne.
Qed.

Section Move.
Implicit Types (st : State Z) (position target : Position Z).

End Move.


(** ** Attacks *)

Section Attack.
Implicit Types (st : State Z) (a b c t position target : Position Z).

Lemma entityAt_player st c i p :
  list_find (playerAt c) (players st) = Some (i, p) →
  entityAt st c = Some (HitPlayer i p).
Proof. intros Hf. unfold entityAt. by rewrite Hf. Qed.

Lemma entityAt_obstacle st c j o :
  list_find (playerAt c) (players st) = None →
  list_find (obstacleAt c) (obstacles st) = Some (j, o) →
  entityAt st c = Some (HitObstacle j o).
Proof. intros Hp Ho. unfold entityAt. by rewrite Hp, Ho. Qed.

Lemma entityAt_nothing st c :
  list_find (playerAt c) (players st) = None →
  list_find (obstacleAt c) (obstacles st) = None →
  entityAt st c = None.
Proof. intros Hp Ho. unfold entityAt. by rewrite Hp, Ho. Qed.

Lemma findFirstEntity_loop_cells st a t dx dy :
  positioned st → Z.abs dx + Z.abs dy = 1 →
  ∀ (n fuel : nat) x y,
    (n < fuel)%nat →
    pos_x t = x + Z.of_nat n * dx → pos_y t = y + Z.of_nat n * dy →
    Forall (withinRay st a) (cellsFrom x y dx dy (S n)) →
    findFirstEntity_loop fuel st a t dx dy x y
    = Return (firstEntity st (cellsFrom x y dx dy (S n))).
Proof.
  intros Hpos Hd. induction n as [|n IH]; intros fuel x y Hfuel Hx Hy Hray;
    (destruct fuel as [|fuel]; [lia|]);
    apply Forall_cons in Hray as [[[Hbx Hby] Hrange] Hray];
    simpl in Hbx, Hby, Hrange; simpl findFirstEntity_loop;
    (rewrite decide_True by (simpl; lia));
    rewrite getPlayerAt_find by exact Hpos; rewrite bind_Return;
    rewrite getObstacleAt_find;
    change (firstEntity st (cellsFrom x y dx dy (S ?k)))
      with (match entityAt st (mkPosition x y) with
            | Some h => Some h
            | None => firstEntity st (cellsFrom (x + dx) (y + dy) dx dy k)
            end);
    (destruct (list_find (playerAt _) _) as [[i p]|] eqn:Hp;
     [by erewrite entityAt_player|]);
    (destruct (list_find (obstacleAt _) _) as [[j o]|] eqn:Ho;
     [by erewrite entityAt_obstacle|]);
    rewrite entityAt_nothing by assumption.
  - rewrite decide_True by (simpl; lia). reflexivity.
  - rewrite decide_False by (simpl; lia).
    apply IH; [lia|lia|lia|exact Hray].
Qed.

(** The cells of the path between two cells of the grid lie on the grid,
    within the distance of the two cells. *)
Lemma pathCells_withinRay st a b :
  inBounds st a → inBounds st b → isStraightLine a b →
  distance a b ≤ ATTACK_RANGE →
  Forall (withinRay st a) (pathCells a b).
Proof.
  intros [Hax Hay] [Hbx Hby] Hline Hd. unfold pathCells.
  apply Forall_fmap, Forall_seqZ. intros k Hk.
  unfold withinRay, inBounds, stepToward, isStraightLine, distance, taxicab in *.
  simpl in *. destruct Hline as [Hl|Hl]; nia.
Qed.

(** [findFirstEntity] returns the entity on the first occupied cell of the
    path to the target. *)
Lemma findFirstEntity_pathCells st a b (fuel : nat) :
  positioned st → inBounds st a → inBounds st b → isStraightLine a b →
  1 ≤ distance a b ≤ ATTACK_RANGE → (2 ≤ fuel)%nat →
  findFirstEntity fuel st a b = Return (firstEntity st (pathCells a b)).
Proof.
  intros Hpos Ha Hb Hline Hd Hfuel.
  destruct (straight_direction a b Hline) as (Hunit & Hx & Hy); [lia|].
  pose proof (pathCells_withinRay st a b Ha Hb Hline) as Hray.
  unfold findFirstEntity. simpl num_sign. simpl num_sub. simpl num_add.
  rewrite pathCells_cellsFrom in Hray |- *.
  unfold ATTACK_RANGE in *.
  replace (Z.to_nat (distance a b))
    with (S (Z.to_nat (distance a b - 1))) in Hray |- * by lia.
  apply findFirstEntity_loop_cells;
    [exact Hpos|exact Hunit|lia| | |apply Hray; lia].
  - rewrite Z2Nat.id by lia. lia.
  - rewrite Z2Nat.id by lia. lia.
Qed.

Lemma firstEntity_Some st cells h :
  firstEntity st cells = Some h → ∃ c, c ∈ cells ∧ entityAt st c = Some h.
Proof.
  induction cells as [|c cells IH]; simpl; [discriminate|].
  destruct (entityAt st c) as [h'|] eqn:He.
  - intros [= ->]. exists c. split; [left|exact He].
  - intros Hf. destruct (IH Hf) as (c' & Hc' & He').
    exists c'. split; [by right|exact He'].
Qed.

Lemma firstEntity_None st cells :
  firstEntity st cells = None ↔ Forall (λ c, ¬ occupied st c) cells.
Proof.
  induction cells as [|c cells IH]; simpl.
  - split; [constructor|reflexivity].
  - rewrite Forall_cons, <- IH, <- entityAt_None.
    destruct (entityAt st c); split; try tauto; try discriminate.
Qed.

Lemma firstEntity_app_Some st cells cells' h :
  firstEntity st cells = Some h → firstEntity st (cells ++ cells') = Some h.
Proof.
  induction cells as [|c cells IH]; simpl; [discriminate|].
  destruct (entityAt st c); [done|exact IH].
Qed.

Lemma entityAt_HitPlayer st c k p :
  entityAt st c = Some (HitPlayer k p) →
  players st !! k = Some p ∧ playerAt c p.
Proof.
  unfold entityAt.
  destruct (list_find (playerAt c) _) as [[i q]|] eqn:Hp.
  - intros [= -> ->]. by apply list_find_Some in Hp as (? & ? & _).
  - destruct (list_find (obstacleAt c) _) as [[j o]|]; discriminate.
Qed.

Lemma entityAt_HitObstacle st c j o :
  entityAt st c = Some (HitObstacle j o) →
  obstacles st !! j = Some o ∧ obstacleAt c o.
Proof.
  unfold entityAt.
  destruct (list_find (playerAt c) _) as [[i q]|] eqn:Hp; [discriminate|].
  destruct (list_find (obstacleAt c) _) as [[k o']|] eqn:Ho; [|discriminate].
  intros [= -> ->]. by apply list_find_Some in Ho as (? & ? & _).
Qed.

(** With distinct ids, a player of the list is the first one carrying its
    id. *)
Lemma list_find_own_id {N} (l : list (Player N)) k (p : Player N) :
  NoDup (p_id <$> l) → l !! k = Some p →
  list_find (λ q, p_id q = p_id p) l = Some (k, p).
Proof.
  intros Hnd Hk. apply list_find_Some. split; [exact Hk|].
  split; [reflexivity|]. intros j q Hj Hlt Hid.
  assert (j = k); [|lia].
  eapply NoDup_lookup; [exact Hnd| |].
  - rewrite list_lookup_fmap, Hj. simpl. by rewrite Hid.
  - rewrite list_lookup_fmap, Hk. reflexivity.
Qed.

Lemma set_pdv_same {N} (p : Player N) :
  set_pdv (p_pdv p - ATTACK_COST) p = p.
Proof.
  destruct p. unfold set_pdv, ATTACK_COST. simpl. f_equal. lia.
Qed.

Lemma set_players_same {N} (st : State N) : set_players (players st) st = st.
Proof. by destruct st. Qed.

(** The attack cost is zero: the caster of a well-formed store is left as
    it is. *)
Lemma applyAttack_caster st i player hit :
  wellFormed st → players st !! i = Some player → p_status player = Active →
  applyAttack i hit st
  = match hit with
    | HitPlayer k _ =>
        let st3 := set_players
                     (alter (λ p, set_pdv (p_pdv p - ATTACK_DAMAGE) p) k
                            (players st)) st in
        match players st3 !! k with
        | Some p => if decide (p_pdv p ≤ 0)
                    then markPlayerDefeated (p_id p) st3 else st3
        | None => st3
        end
    | HitObstacle k _ =>
        let st3 := set_obstacles
                     (alter (λ o, set_o_pdv (o_pdv o - ATTACK_DAMAGE) o) k
                            (obstacles st)) st in
        match obstacles st3 !! k with
        | Some o => if decide (o_pdv o ≤ 0)
                    then set_obstacles
                           (filter (λ o', o_id o' ≠ o_id o) (obstacles st3)) st3
                    else st3
        | None => st3
        end
    end.
Proof.
  intros Hwf Hi Ha. unfold applyAttack.
  rewrite (list_alter_id _ (players st) i) by apply set_pdv_same.
  rewrite set_players_same, Hi.
  destruct (wf_active st Hwf player) as [Hpdv _];
    [by eapply list_elem_of_lookup_2|exact Ha|].
  rewrite decide_False by lia. reflexivity.
Qed.

Lemma filter_all {A} (P : A → Prop) `{!∀ x, Decision (P x)} (l : list A) :
  Forall P l → filter P l = l.
Proof.
  induction 1 as [|x l Hx Hl IH]; [reflexivity|].
  rewrite filter_cons_True by exact Hx. by rewrite IH.
Qed.

Lemma filter_alter_out {A} (P : A → Prop) `{!∀ x, Decision (P x)}
    (f : A → A) (l : list A) j x :
  l !! j = Some x → ¬ P x → ¬ P (f x) → filter P (alter f j l) = filter P l.
Proof.
  revert j. induction l as [|y l IH]; intros [|j] Hj Hx Hfx;
    simpl in Hj; try discriminate.
  - injection Hj as ->.
    change (alter f 0%nat (x :: l)) with (f x :: l).
    by rewrite !filter_cons_False by assumption.
  - change (alter f (S j) (y :: l)) with (y :: alter f j l).
    rewrite !filter_cons. by rewrite (IH j Hj Hx Hfx).
Qed.

Lemma cleanup_obstacles_wf {N} `{!JsNumber N} (st : State N) os ps :
  Forall (λ o : Obstacle N, 0 < o_pdv o) os →
  NoDup (p_id <$> ps) →
  (∀ p, p ∈ ps → p_pdv p ≤ 0 → p_status p = Defeated) →
  players (advanceTurn (cleanupAfterAction (set_obstacles os (set_players ps st))))
  = ps
  ∧ obstacles (advanceTurn (cleanupAfterAction
                              (set_obstacles os (set_players ps st))))
    = os.
Proof.
  intros Hos Hnd Hdead.
  rewrite advanceTurn_players, advanceTurn_obstacles.
  rewrite cleanupAfterAction_players by assumption.
  rewrite checkVictory_players, checkVictory_obstacles. simpl.
  split; [reflexivity|]. by apply filter_all.
Qed.

(** The store after an accepted attack that strikes a player. *)
Lemma attack_player_result st i player k p :
  wellFormed st → players st !! i = Some player → p_status player = Active →
  players st !! k = Some p → p_status p = Active →
  playerDamaged st
    (advanceTurn (cleanupAfterAction (applyAttack i (HitPlayer k p) st))) k p.
Proof.
  intros Hwf Hi Ha Hk Hpa.
  rewrite (applyAttack_caster st i player) by assumption. cbv zeta.
  set (hurt := λ q : Player Z, set_pdv (p_pdv q - ATTACK_DAMAGE) q).
  set (st3 := set_players (alter hurt k (players st)) st).
  assert (Hk3 : players st3 !! k = Some (hurt p)).
  { simpl. by rewrite list_lookup_alter_eq, Hk. }
  assert (Hnd3 : NoDup (p_id <$> players st3)).
  { simpl. rewrite alter_ids by reflexivity. apply (wf_ids st Hwf). }
  assert (Halive : ∀ q, q ∈ players st → p_pdv q ≤ 0 → p_status q = Defeated).
  { intros q Hq Hpdv. destruct (p_status q) eqn:Hs; [|reflexivity].
    destruct (wf_active st Hwf q Hq Hs) as [Hpos _]. lia. }
  assert (Hos : Forall (λ o : Obstacle Z, 0 < o_pdv o) (obstacles st)).
  { apply Forall_forall. apply (wf_obstacles st Hwf). }
  rewrite Hk3.
  destruct (decide (p_pdv (hurt p) ≤ 0)) as [Hdead|Hlive].
  - unfold markPlayerDefeated.
    rewrite (list_find_own_id (players st3) k (hurt p) Hnd3 Hk3).
    rewrite decide_False by (simpl; congruence).
    set (fall := λ q : Player Z, set_position None (set_status Defeated q)).
    destruct (cleanup_obstacles_wf st (obstacles st)
                (alter fall k (players st3))) as [Hps Hobs].
    { exact Hos. }
    { rewrite alter_ids by reflexivity. exact Hnd3. }
    { intros q Hq Hpdv. apply list_elem_of_lookup in Hq as [j Hj].
      destruct (decide (k = j)) as [<-|Hne].
      - rewrite list_lookup_alter_eq, Hk3 in Hj. by injection Hj as <-.
      - rewrite list_lookup_alter_ne in Hj by done.
        simpl in Hj. rewrite list_lookup_alter_ne in Hj by done.
        apply Halive; [by eapply list_elem_of_lookup_2|exact Hpdv]. }
    replace (set_players (alter fall k (players st3)) st3)
      with (set_obstacles (obstacles st)
              (set_players (alter fall k (players st3)) st))
      by reflexivity.
    unfold playerDamaged.
    rewrite Hps, Hobs. split; [|split; [|reflexivity]].
    + exists (fall (hurt p)).
      rewrite list_lookup_alter_eq, Hk3.
      split; [reflexivity|]. split; [reflexivity|]. split; [reflexivity|].
      split; [by intros _|]. intros Hpos. simpl in Hdead, Hpos. lia.
    + intros k' Hne. rewrite list_lookup_alter_ne by done. simpl.
      by rewrite list_lookup_alter_ne.
  - destruct (cleanup_obstacles_wf st (obstacles st) (players st3))
      as [Hps Hobs].
    { exact Hos. }
    { exact Hnd3. }
    { intros q Hq Hpdv. apply list_elem_of_lookup in Hq as [j Hj].
      destruct (decide (k = j)) as [<-|Hne].
      - rewrite Hk3 in Hj. injection Hj as <-. lia.
      - simpl in Hj. rewrite list_lookup_alter_ne in Hj by done.
        apply Halive; [by eapply list_elem_of_lookup_2|exact Hpdv]. }
    replace st3
      with (set_obstacles (obstacles st) (set_players (players st3) st))
      by reflexivity.
    unfold playerDamaged.
    rewrite Hps, Hobs. split; [|split; [|reflexivity]].
    + exists (hurt p). split; [exact Hk3|].
      split; [reflexivity|]. split; [reflexivity|].
      split; [intros Hneg; simpl in Hneg, Hlive; lia|by intros _].
    + intros k' Hne. simpl. by rewrite list_lookup_alter_ne.
Qed.

(** The store after an accepted attack that strikes an obstacle. *)
Lemma attack_obstacle_result st i player j o :
  wellFormed st → players st !! i = Some player → p_status player = Active →
  obstacles st !! j = Some o →
  obstacleDamaged st
    (advanceTurn (cleanupAfterAction (applyAttack i (HitObstacle j o) st))) j o.
Proof.
  intros Hwf Hi Ha Hj.
  rewrite (applyAttack_caster st i player) by assumption. cbv zeta.
  set (hurt := λ q : Obstacle Z, set_o_pdv (o_pdv q - ATTACK_DAMAGE) q).
  set (st3 := set_obstacles (alter hurt j (obstacles st)) st).
  assert (Hj3 : obstacles st3 !! j = Some (hurt o)).
  { simpl. by rewrite list_lookup_alter_eq, Hj. }
  assert (Halive : ∀ q, q ∈ players st → p_pdv q ≤ 0 → p_status q = Defeated).
  { intros q Hq Hpdv. destruct (p_status q) eqn:Hs; [|reflexivity].
    destruct (wf_active st Hwf q Hq Hs) as [Hpos _]. lia. }
  rewrite Hj3. unfold obstacleDamaged.
  change (o_pdv (hurt o)) with (o_pdv o - ATTACK_DAMAGE).
  destruct (decide (o_pdv o - ATTACK_DAMAGE ≤ 0)) as [Hdead|Hlive].
  - change (o_id (hurt o)) with (o_id o).
    change (obstacles st3) with (alter hurt j (obstacles st)).
    rewrite (filter_alter_out _ hurt (obstacles st) j o Hj)
      by (simpl; tauto).
    destruct (cleanup_obstacles_wf st
                (filter (λ o', o_id o' ≠ o_id o) (obstacles st)) (players st))
      as [Hps Hobs].
    { apply Forall_forall. intros q Hq.
      apply list_elem_of_filter in Hq as [_ Hq].
      by apply (wf_obstacles st Hwf). }
    { apply (wf_ids st Hwf). }
    { exact Halive. }
    replace (set_obstacles (filter (λ o', o_id o' ≠ o_id o) (obstacles st)) st3)
      with (set_obstacles (filter (λ o', o_id o' ≠ o_id o) (obstacles st))
              (set_players (players st) st))
      by reflexivity.
    by rewrite Hps, Hobs.
  - destruct (cleanup_obstacles_wf st (alter hurt j (obstacles st)) (players st))
      as [Hps Hobs].
    { apply Forall_forall. intros q Hq.
      apply list_elem_of_lookup in Hq as [j' Hj'].
      destruct (decide (j = j')) as [<-|Hne].
      - rewrite list_lookup_alter_eq, Hj in Hj'. injection Hj' as <-.
        simpl. lia.
      - rewrite list_lookup_alter_ne in Hj' by done.
        apply (wf_obstacles st Hwf). by eapply list_elem_of_lookup_2. }
    { apply (wf_ids st Hwf). }
    { exact Halive. }
    replace st3
      with (set_obstacles (alter hurt j (obstacles st))
              (set_players (players st) st))
      by reflexivity.
    by rewrite Hps, Hobs.
Qed.

(** The path to a target within the attack range is the beginning of the
    ray within the attack range. *)
Lemma rayCells_pathCells a b :
  0 ≤ distance a b ≤ ATTACK_RANGE →
  ∃ rest, rayCells a b = (pathCells a b ++ rest)%list.
Proof.
  intros Hd. unfold rayCells, pathCells.
  exists (stepToward a b
            <$> seqZ (1 + distance a b) (ATTACK_RANGE - distance a b)).
  rewrite <- fmap_app, <- seqZ_app by lia. do 2 f_equal. lia.
Qed.

Lemma firstEntity_valid st i player cells h :
  wellFormed st → players st !! i = Some player → p_status player = Active →
  firstEntity st cells = Some h →
  damaged st (advanceTurn (cleanupAfterAction (applyAttack i h st))) h.
Proof.
  intros Hwf Hi Ha Hf.
  apply firstEntity_Some in Hf as (c & _ & Hc).
  destruct h as [k p|j o]; simpl.
  - apply entityAt_HitPlayer in Hc as [Hk [Hpa _]].
    by eapply attack_player_result.
  - apply entityAt_HitObstacle in Hc as [Hj _].
    by eapply attack_obstacle_result.
Qed.
End Attack.

(** C3 (as amended). For an attack of the acting player of a well-formed
    store whose target is a cell of the grid, on a straight line and within
    the attack range: the ray cast stops at the target cell and returns the
    entity on the first occupied cell of the path from the caster
    (exclusive) to the target (inclusive); when no entity lies on that path
    the attack fails with the no-target reason; when the target cell holds
    an entity whose id differs from the struck one, it fails with the
    blocked reason; otherwise it succeeds and the struck entity has lost the
    attack damage (a player without hit points left is Defeated, an obstacle
    without hit points left is removed). *)
Theorem attack_resolution (st : State Z) (playerId : Id) (i : nat)
    (player : Player Z) (position target : Position Z) (fuel : nat) :
  wellFormed st →
  actingPlayer st playerId i player position →
  inBounds st target →
  aligned position target →
  1 ≤ taxicab position target ≤ ATTACK_RANGE →
  (2 ≤ fuel)%nat →
  let struck := firstEntity st (pathCells position target) in
  findFirstEntity fuel st position target = Return struck
  ∧ (struck = None →
     executeAttack fuel st playerId (targetOf target) = Throw AucuneCible)
  ∧ (∀ h e, struck = Some h → entityAt st target = Some e →
            hitId e ≠ hitId h →
            executeAttack fuel st playerId (targetOf target)
            = Throw EntiteBloque)
  ∧ (∀ h, struck = Some h →
          (∀ e, entityAt st target = Some e → hitId e = hitId h) →
          ∃ st', executeAttack fuel st playerId (targetOf target) = Return st'
                 ∧ damaged st st' h).
Proof.
  intros Hwf Hact Hin Hline Hdist Hfuel struck.
  change (isStraightLine position target) in Hline.
  change (1 ≤ distance position target ≤ ATTACK_RANGE) in Hdist.
  pose proof (wellFormed_positioned st Hwf) as Hpos.
  pose proof (executeAttack_run st playerId i player position target
                (targetOf target) fuel Hpos Hact
                (ensureTargetValid_inBounds _ _ Hin)) as Hrun.
  destruct Hact as (Hfind & Hactive & Hposition).
  assert (Hi : players st !! i = Some player)
    by (by apply list_find_Some in Hfind as (? & _)).
  assert (Hpin : inBounds st position).
  { destruct (wf_active st Hwf player) as (_ & q & Hq & Hb);
      [by eapply list_elem_of_lookup_2|exact Hactive|]. congruence. }
  assert (Hray : findFirstEntity fuel st position target = Return struck).
  { by apply findFirstEntity_pathCells. }
  rewrite (throwIf_False (¬ isStraightLine position target)) in Hrun by tauto.
  rewrite bind_Return, (throwIf_False (_ ∨ _)) in Hrun by lia.
  rewrite bind_Return, Hray, bind_Return in Hrun.
  split; [exact Hray|]. split; [|split].
  - intros Hnone. by rewrite Hrun, Hnone.
  - intros h e Hs He Hne. rewrite Hrun, Hs, He.
    rewrite throwIf_True; [reflexivity|].
    split; [by eapply mk_is_Some|]. simpl. congruence.
  - intros h Hs Hsame. rewrite Hrun, Hs.
    rewrite throwIf_False, bind_Return.
    + eexists. split; [reflexivity|].
      by eapply firstEntity_valid.
    + intros [[eid He] Hne]. apply Hne.
      destruct (entityAt st target) as [e|]; [|discriminate].
      simpl. f_equal. by apply Hsame.
Qed.

(** ** Order of the legality checks *)

Section CheckOrder.
Implicit Types (st : State Z) (position tgt : Position Z).

Lemma ensureTargetValid_invalid st (target : JsTarget Z) :
  (∀ c, ¬ validTarget st target c) →
  ensureTargetValid st target = Throw CaseHorsLimites.
Proof.
  intros Hinv. unfold ensureTargetValid.
  destruct target as [|[x|] [y|]]; try reflexivity.
  rewrite throwIf_True; [reflexivity|].
  destruct (decide (inBounds st (mkPosition x y))) as [Hin|Hout].
  - exfalso. by apply (Hinv (mkPosition x y)).
  - unfold inBounds in Hout. simpl in *. lia.
Qed.

Lemma ensureTargetValid_valid st (target : JsTarget Z) tgt :
  validTarget st target tgt → ensureTargetValid st target = Return tgt.
Proof. intros [-> Hin]. by apply ensureTargetValid_inBounds. Qed.
End CheckOrder.

(** C6 (as amended). For the acting player of a well-formed store, each
    action evaluates its legality checks in a fixed order and reports the
    reason of the first check that fails: the bounds of the target first;
    then, for a move, the straight line, the range and the path; for an
    attack, the straight line, the range, the presence of a target and the
    blocking entity; for an obstacle, the stock, then the adjacency, then
    the occupancy of the cell. *)
Theorem check_order (st : State Z) (playerId : Id) (i : nat)
    (player : Player Z) (position : Position Z) (target : JsTarget Z)
    (fuel : nat) (uuid : Id) :
  wellFormed st →
  actingPlayer st playerId i player position →
  (3 ≤ fuel)%nat →
  ((∀ c, ¬ validTarget st target c) →
     executeMove fuel st playerId target = Throw CaseHorsLimites
     ∧ executeAttack fuel st playerId target = Throw CaseHorsLimites
     ∧ executePlaceObstacle st playerId target uuid = Throw CaseHorsLimites)
  ∧ (∀ tgt, validTarget st target tgt →
       let d := distance position tgt in
       (¬ isStraightLine position tgt →
          executeMove fuel st playerId target = Throw DeplacementLigneDroite)
       ∧ (isStraightLine position tgt → d = 0 ∨ MOVE_RANGE < d →
          executeMove fuel st playerId target = Throw DistanceMaximale)
       ∧ (isStraightLine position tgt → 1 ≤ d ≤ MOVE_RANGE →
          Exists (occupied st) (pathCells position tgt) →
          executeMove fuel st playerId target = Throw TrajetBloque)
       ∧ (¬ isStraightLine position tgt →
          executeAttack fuel st playerId target = Throw AttaqueLigneDroite)
       ∧ (isStraightLine position tgt → d = 0 ∨ ATTACK_RANGE < d →
          executeAttack fuel st playerId target = Throw PorteeMaximale)
       ∧ (isStraightLine position tgt → 1 ≤ d ≤ ATTACK_RANGE →
          firstEntity st (pathCells position tgt) = None →
          executeAttack fuel st playerId target = Throw AucuneCible)
       ∧ (isStraightLine position tgt → 1 ≤ d ≤ ATTACK_RANGE →
          ∀ h e, firstEntity st (pathCells position tgt) = Some h →
                 entityAt st tgt = Some e → hitId e ≠ hitId h →
                 executeAttack fuel st playerId target = Throw EntiteBloque)
       ∧ (p_obstaclesRestants player ≤ 0 →
          executePlaceObstacle st playerId target uuid = Throw PlusDObstacles)
       ∧ (0 < p_obstaclesRestants player → ¬ isAdjacent position tgt →
          executePlaceObstacle st playerId target uuid = Throw CaseAdjacente)
       ∧ (0 < p_obstaclesRestants player → isAdjacent position tgt →
          occupied st tgt →
          executePlaceObstacle st playerId target uuid = Throw CaseDejaOccupee)).
Proof.
  intros Hwf Hact Hfuel.
  pose proof (wellFormed_positioned st Hwf) as Hpos.
  pose proof (requireActivePlayer_acting _ _ _ _ _ Hact) as Hreq.
  split.
  - intros Hinv. apply ensureTargetValid_invalid in Hinv.
    unfold executeMove, executeAttack, executePlaceObstacle.
    rewrite Hreq. cbn [mbind Outcome_bind]. by rewrite Hinv.
  - intros tgt Hvalid d.
    pose proof (ensureTargetValid_valid _ _ _ Hvalid) as Htgt.
    rewrite (executeMove_run st playerId i player position tgt target fuel
               Hact Htgt).
    rewrite (executeAttack_run st playerId i player position tgt target fuel
               Hpos Hact Htgt).
    rewrite (executePlaceObstacle_run st playerId i player position tgt target
               uuid Hpos Hact Htgt).
    destruct Hvalid as [_ Hin].
    destruct Hact as (Hfind & Hactive & Hposition).
    assert (Hpin : inBounds st position).
    { apply list_find_Some in Hfind as (Hi & _).
      destruct (wf_active st Hwf player) as (_ & q & Hq & Hb);
        [by eapply list_elem_of_lookup_2|exact Hactive|]. congruence. }
    fold d. unfold MOVE_RANGE, ATTACK_RANGE in *.
    repeat split.
    + intros Hline.
      by rewrite (throwIf_True (¬ isStraightLine position tgt)).
    + intros Hline Hd.
      rewrite (throwIf_False (¬ isStraightLine position tgt)) by tauto.
      by rewrite bind_Return, (throwIf_True (_ ∨ _)).
    + intros Hline Hd Hocc.
      rewrite (throwIf_False (¬ isStraightLine position tgt)) by tauto.
      rewrite bind_Return, (throwIf_False (_ ∨ _)), bind_Return by lia.
      rewrite isPathClear_pathCells by (done || (fold d; lia)).
      rewrite bind_Return, bool_decide_false; [reflexivity|].
      apply Exists_exists in Hocc as (c & Hc & Ho). intros HF.
      rewrite Forall_forall in HF. by apply (HF c Hc).
    + intros Hline.
      by rewrite (throwIf_True (¬ isStraightLine position tgt)).
    + intros Hline Hd.
      rewrite (throwIf_False (¬ isStraightLine position tgt)) by tauto.
      by rewrite bind_Return, (throwIf_True (_ ∨ _)).
    + intros Hline Hd Hnone.
      rewrite (throwIf_False (¬ isStraightLine position tgt)) by tauto.
      rewrite bind_Return, (throwIf_False (_ ∨ _)), bind_Return by lia.
      rewrite findFirstEntity_pathCells
        by (done || (fold d; unfold ATTACK_RANGE; lia) || lia).
      by rewrite bind_Return, Hnone.
    + intros Hline Hd h e Hh He Hne.
      rewrite (throwIf_False (¬ isStraightLine position tgt)) by tauto.
      rewrite bind_Return, (throwIf_False (_ ∨ _)), bind_Return by lia.
      rewrite findFirstEntity_pathCells
        by (done || (fold d; unfold ATTACK_RANGE; lia) || lia).
      rewrite bind_Return, Hh, He.
      rewrite throwIf_True; [reflexivity|].
      split; [by eapply mk_is_Some|]. simpl. congruence.
    + intros Hstock. by rewrite (throwIf_True (_ ≤ 0)).
    + intros Hstock Hadj.
      rewrite (throwIf_False (_ ≤ 0)), bind_Return by lia.
      by rewrite (throwIf_True (¬ isAdjacent position tgt)).
    + intros Hstock Hadj Hocc.
      rewrite (throwIf_False (_ ≤ 0)), bind_Return by lia.
      rewrite (throwIf_False (¬ isAdjacent position tgt)), bind_Return by tauto.
      by rewrite (throwIf_True (occupied st tgt)).
Qed.

(** ** Turn rotation *)

Section Turn.
Context {N : Type} `{!JsNumber N}.
Implicit Types (st : State N) (p : Player N).

(** The rotation either stops on an Active player, or has met none on the
    [iters] seats that follow [idx] around the table. *)
Lemma advanceTurn_loop_spec iters idx st :
  (0 < length (players st))%nat →
  -1 ≤ idx < Z.of_nat (length (players st)) →
  (∃ p, p ∈ players st ∧ p_status p = Active
        ∧ advanceTurn_loop iters idx st
          = set_currentPlayerTurn (Some (p_id p)) st)
  ∨ (advanceTurn_loop iters idx st = set_currentPlayerTurn None st
     ∧ ∀ j, 1 ≤ j ≤ Z.of_nat iters →
            ∀ q, players st
                   !! Z.to_nat ((idx + j) `mod` Z.of_nat (length (players st)))
                 = Some q →
                 p_status q ≠ Active).
Proof.
  intros Hlen. revert idx.
  induction iters as [|n IH]; intros idx Hidx.
  { right. split; [reflexivity|]. intros j Hj. lia. }
  simpl advanceTurn_loop.
  set (len := Z.of_nat (length (players st))) in *.
  assert (Hrem : Z.rem (idx + 1) len = (idx + 1) `mod` len).
  { apply Z.rem_mod_nonneg; lia. }
  rewrite Hrem.
  assert (Hnext : 0 ≤ (idx + 1) `mod` len < len)
    by (apply Z.mod_pos_bound; lia).
  destruct (players st !! Z.to_nat ((idx + 1) `mod` len)) as [p|] eqn:Hp.
  2:{ apply lookup_ge_None in Hp. lia. }
  case_decide as Ha.
  { left. exists p. split; [by eapply list_elem_of_lookup_2|]. by split. }
  destruct (IH ((idx + 1) `mod` len)) as [Hfound|[Hnone Hall]]; [lia| |].
  { by left. }
  right. split; [exact Hnone|].
  intros j Hj q Hq.
  destruct (decide (j = 1)) as [->|Hne].
  - rewrite Hp in Hq. by injection Hq as <-.
  - apply (Hall (j - 1)); [lia|].
    rewrite Zplus_mod_idemp_l.
    by replace (idx + 1 + (j - 1)) with (idx + j) by lia.
Qed.

(** Once around the table, the rotation finds an Active player if there is
    one. *)
Lemma advanceTurn_loop_finds idx st :
  -1 ≤ idx < Z.of_nat (length (players st)) →
  (∃ q, q ∈ players st ∧ p_status q = Active) →
  ∃ p, p ∈ players st ∧ p_status p = Active
       ∧ advanceTurn_loop (length (players st)) idx st
         = set_currentPlayerTurn (Some (p_id p)) st.
Proof.
  intros Hidx (q & Hq & Hqa).
  apply list_elem_of_lookup in Hq as [t Ht].
  pose proof (lookup_lt_Some _ _ _ Ht) as Hlt.
  destruct (advanceTurn_loop_spec (length (players st)) idx st)
    as [Hfound|[_ Hall]]; [lia|exact Hidx|exact Hfound|].
  exfalso.
  set (len := Z.of_nat (length (players st))) in *.
  apply (Hall ((Z.of_nat t - idx - 1) `mod` len + 1)) with q.
  - pose proof (Z.mod_pos_bound (Z.of_nat t - idx - 1) len). lia.
  - replace (idx + ((Z.of_nat t - idx - 1) `mod` len + 1))
      with (idx + 1 + (Z.of_nat t - idx - 1) `mod` len) by lia.
    rewrite Zplus_mod_idemp_r.
    replace (idx + 1 + (Z.of_nat t - idx - 1)) with (Z.of_nat t) by lia.
    rewrite Z.mod_small by lia. by rewrite Nat2Z.id.
  - exact Hqa.
Qed.


Lemma findIndex_range (P : Player N → Prop) `{!∀ p, Decision (P p)}
    (l : list (Player N)) :
  -1 ≤ findIndex P l < Z.of_nat (length l).
Proof.
  unfold findIndex. destruct (list_find P l) as [[i p]|] eqn:Hf; [|lia].
  apply list_find_Some in Hf as (Hi & _).
  apply lookup_lt_Some in Hi. lia.
Qed.

(** After [advanceTurn], a game still in progress has an Active turn
    holder. *)
Lemma advanceTurn_holder st :
  gameStatus (advanceTurn st) = InProgress → turnHolderActive (advanceTurn st).
Proof.
  unfold advanceTurn. case_decide as Hs.
  { intros Hs'. congruence. }
  case_decide as Hact.
  { intros Hv. apply checkVictory_status in Hv as [_ Hv]. lia. }
  intros _.
  destruct (advanceTurn_loop_finds
              (findIndex (λ player, Some (p_id player) = currentPlayerTurn st)
                         (players st)) st) as (p & Hp & Ha & ->).
  - apply findIndex_range.
  - unfold activePlayers in Hact.
    destruct (filter _ (players st)) as [|q l] eqn:Hfl; [simpl in Hact; lia|].
    assert (Hq : q ∈ filter (λ p, p_status p = Active) (players st))
      by (rewrite Hfl; left).
    apply list_elem_of_filter in Hq as [Hqa Hq]. by exists q.
  - exists p. simpl. by split.
Qed.
End Turn.


(** ** The turn holder in the reachable stores *)

Section TurnInvariant.
Context {N : Type} `{!JsNumber N}.
Implicit Types (st : State N) (p : Player N).

Lemma checkVictory_in_progress st :
  gameStatus (checkVictory st) = InProgress → checkVictory st = st.
Proof.
  intros Hs. apply checkVictory_status in Hs as [_ Hlen].
  by apply checkVictory_many.
Qed.

Lemma checkVictory_status_cases st :
  gameStatus st = InProgress →
  gameStatus (checkVictory st) = InProgress
  ∨ gameStatus (checkVictory st) = Finished.
Proof.
  intros Hs. unfold checkVictory. repeat case_decide; simpl; auto.
Qed.

(** What [advanceTurn] does to a game in progress. *)
Lemma advanceTurn_cases st :
  gameStatus st = InProgress →
  (gameStatus (advanceTurn st) = InProgress
   ∧ turnHolderActive (advanceTurn st))
  ∨ (gameStatus (advanceTurn st) = Finished
     ∧ currentPlayerTurn (advanceTurn st) = currentPlayerTurn st).
Proof.
  intros Hs.
  destruct (gameStatus (advanceTurn st)) eqn:Hs'.
  - exfalso. revert Hs'. unfold advanceTurn.
    rewrite decide_False by congruence. case_decide.
    + destruct (checkVictory_status_cases st Hs); congruence.
    + rewrite advanceTurn_loop_status. congruence.
  - left. split; [reflexivity|]. by apply advanceTurn_holder.
  - right. split; [reflexivity|]. revert Hs'. unfold advanceTurn.
    rewrite decide_False by congruence. case_decide.
    + intros _. apply checkVictory_turn.
    + rewrite advanceTurn_loop_status. congruence.
Qed.

Lemma advanceTurn_not_in_progress st :
  gameStatus st ≠ InProgress → advanceTurn st = st.
Proof. intros Hs. unfold advanceTurn. by rewrite decide_True. Qed.

Lemma defeat_fold_turn (l : list (Player N)) st :
  currentPlayerTurn
    (foldl (λ s player,
              if decide (p_pdv player ≤ 0)
              then markPlayerDefeated (p_id player) s else s) st l)
  = currentPlayerTurn st.
Proof.
  revert st. induction l as [|p l IH]; intros st; [reflexivity|]. simpl.
  rewrite IH. case_decide; [apply markPlayerDefeated_turn|reflexivity].
Qed.

Lemma defeat_fold_status (l : list (Player N)) st :
  gameStatus
    (foldl (λ s player,
              if decide (p_pdv player ≤ 0)
              then markPlayerDefeated (p_id player) s else s) st l)
  = gameStatus st.
Proof.
  revert st. induction l as [|p l IH]; intros st; [reflexivity|]. simpl.
  rewrite IH. case_decide; [apply markPlayerDefeated_status|reflexivity].
Qed.

Lemma defeat_fold_gridSize (l : list (Player N)) st :
  gridSize
    (foldl (λ s player,
              if decide (p_pdv player ≤ 0)
              then markPlayerDefeated (p_id player) s else s) st l)
  = gridSize st.
Proof.
  revert st. induction l as [|p l IH]; intros st; [reflexivity|]. simpl.
  rewrite IH. case_decide; [apply markPlayerDefeated_gridSize|reflexivity].
Qed.

Lemma cleanupAfterAction_gridSize st :
  gridSize (cleanupAfterAction st) = gridSize st.
Proof.
  unfold cleanupAfterAction.
  by rewrite checkVictory_gridSize, defeat_fold_gridSize.
Qed.

Lemma cleanupAfterAction_turn st :
  currentPlayerTurn (cleanupAfterAction st) = currentPlayerTurn st.
Proof.
  unfold cleanupAfterAction. by rewrite checkVictory_turn, defeat_fold_turn.
Qed.

Lemma cleanupAfterAction_status st :
  gameStatus st = InProgress →
  gameStatus (cleanupAfterAction st) = InProgress
  ∨ gameStatus (cleanupAfterAction st) = Finished.
Proof.
  intros Hs. unfold cleanupAfterAction. apply checkVictory_status_cases.
  by rewrite defeat_fold_status.
Qed.

(** The end of every accepted action, and of the departure of an Active
    player: cleanup, rotation and victory evaluation establish the
    invariant. *)
Lemma turnInvariant_advance st :
  gameStatus st = InProgress → is_Some (currentPlayerTurn st) →
  turnInvariant (advanceTurn st) ∧ turnInvariant (checkVictory (advanceTurn st)).
Proof.
  intros Hs Hcur.
  assert (Hinv : turnInvariant (advanceTurn st)).
  { destruct (advanceTurn_cases st Hs) as [[Hs' Hh]|[Hs' Hc]].
    - split; [intros ?; congruence|].
      split; [intros _; exact Hh|intros ?; congruence].
    - split; [intros ?; congruence|].
      split; [intros ?; congruence|intros _; by rewrite Hc]. }
  split; [exact Hinv|].
  destruct (gameStatus (checkVictory (advanceTurn st))) eqn:Hv.
  - pose proof (checkVictory_not_in_progress (advanceTurn st)) as Hn.
    destruct (decide (gameStatus (advanceTurn st) = InProgress)) as [Hp|Hp].
    + destruct (checkVictory_status_cases _ Hp); congruence.
    + rewrite Hn by exact Hp. exact Hinv.
  - rewrite checkVictory_in_progress by exact Hv. exact Hinv.
  - split; [intros ?; congruence|]. split; [intros ?; congruence|].
    intros _. rewrite checkVictory_turn.
    destruct (advanceTurn_cases st Hs) as [[Hs' (p & _ & _ & Hh)]|[Hs' Hc]].
    + rewrite Hh. by eapply mk_is_Some.
    + by rewrite Hc.
Qed.

Lemma turnInvariant_action st :
  gameStatus st = InProgress → is_Some (currentPlayerTurn st) →
  turnInvariant (advanceTurn (cleanupAfterAction st)).
Proof.
  intros Hs Hcur.
  destruct (cleanupAfterAction_status st Hs) as [Hc|Hc].
  - apply turnInvariant_advance; [exact Hc|].
    by rewrite cleanupAfterAction_turn.
  - rewrite advanceTurn_not_in_progress by congruence.
    split; [intros ?; congruence|]. split; [intros ?; congruence|].
    intros _. by rewrite cleanupAfterAction_turn.
Qed.
End TurnInvariant.

(** Inversion of a sequence of calls that returned. *)
Ltac outcome_inv H :=
  repeat (lazymatch type of H with
          | mbind _ ?m = Return _ =>
              let E := fresh "E" in
              destruct m as [?| |] eqn:E; cbn [mbind Outcome_bind] in H;
              [|discriminate H|discriminate H]
          | (let '(_, _) := ?a in _) = Return _ => destruct a
          | match ?a with Some _ => _ | None => _ end = Return _ =>
              destruct a; [|discriminate H]
          end).

Section Preservation.
Context {N : Type} `{!JsNumber N}.
Implicit Types (st : State N) (p : Player N).

Lemma executeMove_shape fuel st playerId target st' :
  executeMove fuel st playerId target = Return st' → actionShape st st'.
Proof.
  intros H. unfold executeMove in H. outcome_inv H.
  injection H as <-. eexists. split; [reflexivity|]. by repeat split.
Qed.

Lemma applyAttack_frame i hit st :
  gameStatus (applyAttack i hit st) = gameStatus st
  ∧ currentPlayerTurn (applyAttack i hit st) = currentPlayerTurn st
  ∧ gridSize (applyAttack i hit st) = gridSize st.
Proof.
  unfold applyAttack.
  set (st1 := set_players _ st).
  set (st2 := match players st1 !! i with
              | Some p => if decide (p_pdv p ≤ 0)
                          then markPlayerDefeated (p_id p) st1 else st1
              | None => st1
              end).
  assert (H2 : gameStatus st2 = gameStatus st
               ∧ currentPlayerTurn st2 = currentPlayerTurn st
               ∧ gridSize st2 = gridSize st).
  { unfold st2. destruct (players st1 !! i) as [p|]; [|by repeat split].
    case_decide; [|by repeat split].
    by rewrite markPlayerDefeated_status, markPlayerDefeated_turn,
               markPlayerDefeated_gridSize. }
  destruct H2 as (Hs & Ht & Hg). destruct hit as [k q|k o].
  - destruct (players (set_players _ st2) !! k) as [p|]; [|by repeat split].
    case_decide; [|by repeat split].
    by rewrite markPlayerDefeated_status, markPlayerDefeated_turn,
               markPlayerDefeated_gridSize.
  - destruct (obstacles (set_obstacles _ st2) !! k) as [o'|];
      [|by repeat split].
    case_decide; by repeat split.
Qed.

Lemma executeAttack_shape fuel st playerId target st' :
  executeAttack fuel st playerId target = Return st' → actionShape st st'.
Proof.
  intros H. unfold executeAttack in H. outcome_inv H.
  injection H as <-. eexists. split; [reflexivity|].
  apply applyAttack_frame.
Qed.

Lemma executePlaceObstacle_shape st playerId target uuid st' :
  executePlaceObstacle st playerId target uuid = Return st' →
  actionShape st st'.
Proof.
  intros H. unfold executePlaceObstacle in H. outcome_inv H.
  injection H as <-. eexists. split; [reflexivity|]. by repeat split.
Qed.

Lemma handleRequestAction_shape fuel st meta payload uuid reply st' :
  handleRequestAction fuel st meta payload uuid = Some (reply, st') →
  st' = st
  ∨ (gameStatus st = InProgress ∧ is_Some (currentPlayerTurn st)
     ∧ actionShape st st').
Proof.
  unfold handleRequestAction. destruct meta as [user|user playerId].
  { intros [= _ <-]. by left. }
  case_decide as Hs; [intros [= _ <-]; by left|].
  case_decide as Ht; [intros [= _ <-]; by left|].
  assert (Hs' : gameStatus st = InProgress)
    by (destruct (decide (gameStatus st = InProgress)); tauto).
  assert (Ht' : is_Some (currentPlayerTurn st)).
  { destruct (decide (currentPlayerTurn st = Some playerId)) as [He|He];
      [rewrite He; by eapply mk_is_Some|tauto]. }
  destruct (actionType payload).
  - destruct (executeMove _ _ _ _) as [st''| |] eqn:E; intros [= _ <-];
      [right|by left]. repeat split; try done. by eapply executeMove_shape.
  - destruct (executeAttack _ _ _ _) as [st''| |] eqn:E; intros [= _ <-];
      [right|by left]. repeat split; try done. by eapply executeAttack_shape.
  - destruct (executePlaceObstacle _ _ _ _) as [st''| |] eqn:E;
      intros [= _ <-]; [right|by left].
    repeat split; try done. by eapply executePlaceObstacle_shape.
  - intros [= _ <-]. by left.
Qed.

Lemma gridOverride_frame st (size : option Z) :
  let st1 := match size with
             | Some size0 => if decide (size0 = 0) then st
                             else setGridSizeIfLobby size0 st
             | None => st
             end in
  players st1 = players st ∧ gameStatus st1 = gameStatus st
  ∧ currentPlayerTurn st1 = currentPlayerTurn st
  ∧ (gridSize st1 = gridSize st ∨ gridSize st1 ∈ ALLOWED_GRID_SIZES)
  ∧ obstacles st1 = obstacles st.
Proof.
  destruct size as [g|]; simpl; [|by auto 10].
  case_decide; [by auto 10|]. unfold setGridSizeIfLobby.
  case_decide as Hg; [by auto 10|]. simpl. repeat split; try done.
  right. destruct (decide (g ∈ ALLOWED_GRID_SIZES)); tauto.
Qed.

Lemma addPlayer_Return st pseudo color size userId uuid player st' :
  addPlayer st pseudo color size userId uuid = Return (player, st') →
  players st' = (players st ++ [player])%list
  ∧ p_status player = Active
  ∧ (gridSize st' = gridSize st ∨ gridSize st' ∈ ALLOWED_GRID_SIZES)
  ∧ ((length (players st') = MAX_PLAYERS
      ∧ gameStatus st' = InProgress
      ∧ currentPlayerTurn st' = p_id <$> head (players st'))
     ∨ (gameStatus st' = gameStatus st
        ∧ currentPlayerTurn st' = currentPlayerTurn st)).
Proof.
  unfold addPlayer. intros H.
  destruct (throwIf (MAX_PLAYERS ≤ _)%nat _); cbn [mbind Outcome_bind] in H;
    try discriminate.
  destruct pseudo as [name| |]; try discriminate.
  destruct (throwIf (name = [] ∨ _) _); cbn [mbind Outcome_bind] in H;
    try discriminate.
  destruct (normalizeColor color) as [c|]; [|discriminate].
  pose proof (gridOverride_frame st size) as H1. cbv zeta in H1.
  set (st1 := match size with
              | Some size0 => if decide (size0 = 0) then st
                              else setGridSizeIfLobby size0 st
              | None => st
              end) in *.
  destruct H1 as (Hp & Hs & Ht & Hg & _).
  injection H as <- <-.
  case_decide as Hfull.
  - split; [simpl; by rewrite Hp|]. split; [done|]. split; [exact Hg|].
    left. split; [exact Hfull|]. by split.
  - split; [simpl; by rewrite Hp|]. split; [done|]. split; [exact Hg|].
    right. by split.
Qed.

Lemma turnInvariant_join st meta payload uuid :
  turnInvariant st → turnInvariant (handleJoin st meta payload uuid).2.
Proof.
  intros Hinv. unfold handleJoin. destruct meta as [user|user pid]; [|done].
  case_decide as Hfull; [done|].
  destruct (addPlayer _ _ _ _ _ _) as [[player st']| |] eqn:Ha; try done.
  simpl. apply addPlayer_Return in Ha as (Hp & Hpa & _ & Hcase).
  assert (Hlobby : gameStatus st = Lobby)
    by (destruct (decide (gameStatus st = Lobby)); tauto).
  destruct Hinv as (Hl & _ & _). destruct (Hl Hlobby) as [Hcur Hall].
  assert (Hall' : Forall (λ p, p_status p = Active) (players st')).
  { rewrite Hp. apply Forall_app. split; [exact Hall|]. by repeat constructor. }
  destruct Hcase as [(Hlen & Hs & Ht)|(Hs & Ht)].
  - split; [intros ?; congruence|]. split; [|intros ?; congruence].
    intros _. destruct (players st') as [|q l] eqn:Hq; [done|].
    exists q. split; [rewrite Hq; left|]. split; [|by rewrite Ht].
    by inversion Hall'.
  - split; [|split; intros ?; congruence].
    intros _. split; [congruence|exact Hall'].
Qed.

Lemma turnInvariant_reset st :
  turnInvariant st → turnInvariant (handleResetGame st).2.
Proof.
  intros Hinv. unfold handleResetGame. case_decide; [done|]. simpl.
  split; [|split; intros ?; discriminate]. intros _. split; [done|constructor].
Qed.

Lemma turnInvariant_initial g : turnInvariant (createInitialState (N:=N) g).
Proof.
  split; [|split; intros ?; discriminate]. intros _. split; [done|constructor].
Qed.

Lemma lookup_delete_other {A} (l : list A) i j x :
  l !! j = Some x → j ≠ i → x ∈ delete i l.
Proof.
  intros Hj Hne. destruct (decide (j < i)%nat) as [Hlt|Hge].
  - apply list_elem_of_lookup. exists j.
    by rewrite list_lookup_delete_lt.
  - apply list_elem_of_lookup. exists (j - 1)%nat.
    rewrite list_lookup_delete_ge by lia.
    by replace (S (j - 1)) with j by lia.
Qed.

Lemma turnInvariant_leave st meta :
  turnInvariant st → turnInvariant (handleDisconnect st meta).
Proof.
  intros Hinv. unfold handleDisconnect. destruct meta as [user|user pid];
    [done|]. unfold removePlayer.
  destruct (list_find _ _) as [[index leaver]|] eqn:Hf; [|done].
  apply list_find_Some in Hf as (Hindex & Hid & _).
  set (st1 := set_players (delete index (players st)) st).
  case_decide as Hempty; [apply turnInvariant_initial|].
  destruct Hinv as (Hl & Hp & Hfin).
  case_decide as Hact.
  { destruct Hact as [Hla Hs].
    apply turnInvariant_advance.
    - by rewrite markPlayerDefeated_status.
    - rewrite markPlayerDefeated_turn. simpl.
      destruct (Hp Hs) as (p & _ & _ & ->). by eapply mk_is_Some. }
  case_decide as Hlobby.
  { split; [|split; intros ?; simpl in *; congruence].
    intros _. destruct (Hl Hlobby) as [Hcur Hall]. split; [exact Hcur|].
    simpl. apply Forall_forall. intros q Hq.
    apply list_elem_of_lookup in Hq as [j Hj].
    rewrite list_lookup_imap in Hj.
    destruct (delete index (players st) !! j) as [r|] eqn:Hr; [|done].
    simpl in Hj. injection Hj as <-. simpl.
    rewrite Forall_forall in Hall. apply Hall.
    apply list_elem_of_lookup_2 in Hr.
    by eapply list_elem_of_delete_inv. }
  split; [intros ?; simpl in *; congruence|]. split.
  - intros Hs. simpl in Hs. destruct (Hp Hs) as (p & Hpin & Hpa & Hpt).
    exists p. split; [|by split]. simpl.
    apply list_elem_of_lookup in Hpin as [j Hj].
    destruct (decide (j = index)) as [->|Hne].
    + exfalso. apply Hact. rewrite Hindex in Hj. injection Hj as ->. done.
    + by eapply lookup_delete_other.
  - intros Hs. by apply Hfin.
Qed.
End Preservation.

Section Reachable.
Context {N : Type} `{!JsNumber N}.
Implicit Types st : State N.

Lemma turnInvariant_step st st' :
  Step st st' → turnInvariant st → turnInvariant st'.
Proof.
  intros Hstep Hinv. destruct Hstep as [st meta payload uuid
    | fuel st meta payload uuid reply st' Hact | st | st meta].
  - by apply turnInvariant_join.
  - apply handleRequestAction_shape in Hact
      as [->|(Hs & Ht & stX & -> & HsX & HtX & _)]; [exact Hinv|].
    apply turnInvariant_action; congruence.
  - by apply turnInvariant_reset.
  - by apply turnInvariant_leave.
Qed.

Lemma reachable_turnInvariant st : reachable st → turnInvariant st.
Proof.
  unfold reachable. intros Hr.
  revert st Hr. apply (rtc_ind_r (R:=Step) (λ s, turnInvariant s)).
  - split; [|split; intros ?; discriminate].
    intros _. split; [done|constructor].
  - intros st1 st2 _ Hstep IH. by eapply turnInvariant_step.
Qed.

Lemma gridSize_step st st' :
  Step st st' → gridSize st = 9 → gridSize st' = 9.
Proof.
  intros Hstep Hg. destruct Hstep as [st meta payload uuid
    | fuel st meta payload uuid reply st' Hact | st | st meta].
  - unfold handleJoin. destruct meta as [user|user pid]; [|done].
    case_decide; [done|].
    destruct (addPlayer _ _ _ _ _ _) as [[player st']| |] eqn:Ha; try done.
    apply addPlayer_Return in Ha as (_ & _ & [Hsame|Hallowed] & _); simpl.
    + congruence.
    + unfold ALLOWED_GRID_SIZES in Hallowed.
      by apply list_elem_of_singleton in Hallowed.
  - apply handleRequestAction_shape in Hact
      as [->|(_ & _ & stX & -> & _ & _ & HgX)]; [exact Hg|].
    rewrite advanceTurn_gridSize, cleanupAfterAction_gridSize. congruence.
  - unfold handleResetGame, resetGame. case_decide; [done|]. simpl.
    case_decide; [lia|exact Hg].
  - unfold handleDisconnect. destruct meta as [user|user pid]; [done|].
    unfold removePlayer.
    destruct (list_find _ _) as [[index leaver]|]; [|done].
    repeat case_decide; simpl; try done.
    by rewrite checkVictory_gridSize, advanceTurn_gridSize,
               markPlayerDefeated_gridSize.
Qed.

Lemma advanceTurn_finished st :
  gameStatus (advanceTurn st) = Finished →
  currentPlayerTurn (advanceTurn st) = currentPlayerTurn st.
Proof.
  intros Hf. destruct (decide (gameStatus st = InProgress)) as [Hs|Hs].
  - destruct (advanceTurn_cases st Hs) as [[Hp _]|[_ Ht]];
      [congruence|exact Ht].
  - by rewrite advanceTurn_not_in_progress.
Qed.

(** A game that the rotation leaves in progress has Active players enough
    for the victory evaluation to leave it as it is. *)
Lemma advanceTurn_in_progress st :
  gameStatus (advanceTurn st) = InProgress →
  checkVictory (advanceTurn st) = advanceTurn st.
Proof.
  unfold advanceTurn. case_decide as Hs.
  - intros Hp. by destruct Hs.
  - case_decide as Hlen.
    + intros Hp. by rewrite !(checkVictory_in_progress st Hp).
    + intros _. apply checkVictory_many. unfold activePlayers.
      rewrite advanceTurn_loop_players. fold (activePlayers st). lia.
Qed.

(** A step that leaves the game Finished leaves the turn as it was: the
    turn of a finished game is the turn of the last store in progress. *)
Lemma finished_keeps_turn st st' :
  Step st st' → gameStatus st' = Finished →
  currentPlayerTurn st' = currentPlayerTurn st.
Proof.
  intros Hstep. destruct Hstep as [st meta payload uuid
    | fuel st meta payload uuid reply st' Hact | st | st meta].
  - unfold handleJoin. destruct meta as [user|user pid]; [|done].
    case_decide as Hfull; [done|].
    destruct (addPlayer _ _ _ _ _ _) as [[player st']| |] eqn:Ha; try done.
    simpl. apply addPlayer_Return in Ha as (_ & _ & _ & Hcase).
    assert (Hlobby : gameStatus st = Lobby)
      by (destruct (decide (gameStatus st = Lobby)); tauto).
    destruct Hcase as [(_ & Hs & _)|[Hs _]]; congruence.
  - apply handleRequestAction_shape in Hact
      as [->|(Hs & Ht & stX & -> & HsX & HtX & _)]; [done|].
    intros Hf. rewrite (advanceTurn_finished _ Hf), cleanupAfterAction_turn.
    exact HtX.
  - unfold handleResetGame, resetGame. case_decide; [done|]. simpl.
    discriminate.
  - unfold handleDisconnect. destruct meta as [user|user pid]; [done|].
    unfold removePlayer.
    destruct (list_find _ _) as [[index leaver]|]; [|done].
    case_decide; [simpl; discriminate|].
    case_decide as Hact.
    + intros Hf.
      destruct (gameStatus (advanceTurn
                  (markPlayerDefeated (p_id leaver)
                     (set_players (delete index (players st)) st))))
        eqn:Hadv.
      * rewrite checkVictory_not_in_progress in Hf by congruence.
        congruence.
      * rewrite advanceTurn_in_progress in Hf by exact Hadv. congruence.
      * rewrite checkVictory_turn, (advanceTurn_finished _ Hadv).
        by rewrite markPlayerDefeated_turn.
    + case_decide as Hl; [|done]. simpl in *. congruence.
Qed.

(** The grid of every reachable store is the 9 x 9 grid. *)
Lemma reachable_gridSize st : reachable st → gridSize st = 9.
Proof.
  unfold reachable. intros Hr.
  revert st Hr. apply (rtc_ind_r (R:=Step) (λ s, gridSize s = 9)).
  - reflexivity.
  - intros st1 st2 _ Hstep IH. by eapply gridSize_step.
Qed.
End Reachable.

(** C7 (as amended). In every store reachable through the public operations:
    in the Lobby the turn is none; while the game is in progress the turn is
    the id of an Active player of the list; once the game is Finished the
    turn is not cleared: it is set, and an operation that leaves the game
    Finished leaves the turn as it was, so that it still names the turn
    holder of the last store in progress, who may have left the list. *)
Theorem turn_holder_invariant {N} `{!JsNumber N} (st : State N) :
  reachable st →
  (gameStatus st = Lobby → currentPlayerTurn st = None)
  ∧ (gameStatus st = InProgress →
     ∃ p, p ∈ players st ∧ p_status p = Active
          ∧ currentPlayerTurn st = Some (p_id p))
  ∧ (gameStatus st = Finished → is_Some (currentPlayerTurn st))
  ∧ (∀ st', Step st st' → gameStatus st' = Finished →
            currentPlayerTurn st' = currentPlayerTurn st).
Proof.
  intros Hr. destruct (reachable_turnInvariant st Hr) as (Hl & Hp & Hf).
  split; [intros Hs; by destruct (Hl Hs)|].
  split; [exact Hp|]. split; [exact Hf|].
  intros st' Hstep. by apply finished_keeps_turn.
Qed.

(** ** Termination of the ray loops *)

Section IntegerTermination.
Implicit Types (st : State Z) (a b : Position Z).

Lemma findFirstEntity_loop_total st a b dx dy :
  1 ≤ Z.abs dx + Z.abs dy →
  ∀ (fuel : nat) (k x y : Z),
    1 ≤ k → (1 ≤ fuel)%nat → 4 ≤ Z.of_nat fuel + k →
    x = pos_x a + k * dx → y = pos_y a + k * dy →
    findFirstEntity_loop fuel st a b dx dy x y ≠ OutOfFuel.
Proof.
  intros Hd. induction fuel as [|fuel IH]; intros k x y Hk Hf Hfk Hx Hy;
    [lia|]. simpl findFirstEntity_loop.
  case_decide as Hcond; [|discriminate].
  pose proof (getPlayerAt_terminates st (mkPosition x y)) as Hterm.
  destruct (getPlayerAt st _) as [[[i p]|]| |];
    cbn [mbind Outcome_bind]; try discriminate; try done.
  destruct (getObstacleAt st _) as [[j o]|]; [discriminate|].
  case_decide; [discriminate|].
  simpl in Hcond. unfold ATTACK_RANGE in Hcond.
  destruct Hcond as (_ & _ & _ & _ & Hrange).
  assert (Hk2 : k ≤ 2) by nia.
  apply (IH (k + 1)); simpl; lia.
Qed.

(** On integer coordinates [findFirstEntity] always returns or throws:
    three units of fuel are enough for every store, start and target. *)
Lemma findFirstEntity_total st a b (fuel : nat) :
  (3 ≤ fuel)%nat → findFirstEntity fuel st a b ≠ OutOfFuel.
Proof.
  intros Hfuel. unfold findFirstEntity.
  simpl num_sign. simpl num_sub. simpl num_add.
  destruct (decide (Z.sgn (pos_x b - pos_x a) = 0
                    ∧ Z.sgn (pos_y b - pos_y a) = 0)) as [[Hx Hy]|Hne].
  - rewrite Hx, Hy. destruct fuel as [|fuel]; [lia|].
    simpl findFirstEntity_loop.
    case_decide as Hcond; [|discriminate].
    pose proof (getPlayerAt_terminates st
                  (mkPosition (pos_x a + 0) (pos_y a + 0))) as Hterm.
    destruct (getPlayerAt st _) as [[[i p]|]| |];
      cbn [mbind Outcome_bind]; try discriminate; try done.
    destruct (getObstacleAt st _) as [[j o]|]; [discriminate|].
    rewrite decide_True; [discriminate|].
    apply Z.sgn_null_iff in Hx, Hy. simpl. lia.
  - apply (findFirstEntity_loop_total st a b _ _) with (k := 1); lia.
Qed.

(** On integer coordinates [isPathClear] returns or throws on every
    straight line, given fuel for one test per cell and one more. *)
Lemma isPathClear_total st a b (fuel : nat) :
  isStraightLine a b → distance a b < Z.of_nat fuel →
  isPathClear fuel st a b ≠ OutOfFuel.
Proof.
  intros Hline Hfuel. unfold isPathClear.
  simpl num_sign. simpl num_sub. simpl num_add.
  set (dx := Z.sgn (pos_x b - pos_x a)). set (dy := Z.sgn (pos_y b - pos_y a)).
  assert (Hgen : ∀ (n fuel : nat) x y,
             (n < fuel)%nat →
             (pos_x b = x + Z.of_nat n * dx ∧ pos_y b = y + Z.of_nat n * dy) →
             isPathClear_loop fuel st b dx dy x y ≠ OutOfFuel).
  { induction n as [|n IH]; intros f x y Hf [Hx Hy];
      (destruct f as [|f]; [lia|]); simpl isPathClear_loop;
      pose proof (isOccupied_terminates st b) as Hb;
      pose proof (isOccupied_terminates st (mkPosition x y)) as Hxy.
    - rewrite decide_False by (simpl; lia).
      destruct (isOccupied st b) as [[|]| |];
        cbn [mbind Outcome_bind]; (discriminate || done).
    - case_decide.
      + destruct (isOccupied st (mkPosition x y)) as [[|]| |];
          cbn [mbind Outcome_bind]; try discriminate; try done.
        apply IH; [lia|]. split; lia.
      + destruct (isOccupied st b) as [[|]| |];
          cbn [mbind Outcome_bind]; (discriminate || done). }
  destruct (decide (distance a b = 0)) as [Hzero|Hpos].
  - apply (Hgen 0%nat); [lia|].
    unfold distance, dx, dy in *. simpl in *. lia.
  - assert (Hone : 1 ≤ distance a b) by (unfold distance in *; simpl in *; lia).
    destruct (straight_direction a b Hline Hone) as (_ & Hx & Hy).
    apply (Hgen (Z.to_nat (distance a b - 1))); [lia|].
    fold dx dy in Hx, Hy. rewrite Z2Nat.id by lia. split; lia.
Qed.

Lemma ensureTargetValid_terminates st (target : JsTarget Z) :
  ensureTargetValid st target ≠ OutOfFuel.
Proof.
  unfold ensureTargetValid, throwIf.
  destruct target as [|[x|] [y|]]; try discriminate.
  case_decide; cbn [mbind Outcome_bind]; discriminate.
Qed.

(** With integer targets every action returns or throws: four units of fuel
    cover the longest legal path. *)
Lemma requireActivePlayer_terminates st playerId :
  requireActivePlayer st playerId ≠ OutOfFuel.
Proof.
  unfold requireActivePlayer.
  destruct (list_find _ _) as [[i p]|]; [case_decide|]; discriminate.
Qed.

Lemma readPosition_terminates (player : Player Z) :
  readPosition player ≠ OutOfFuel.
Proof. unfold readPosition. destruct (p_position player); discriminate. Qed.

(** One call of a sequence: it returned, it threw, or it is one of the calls
    that cannot run out of fuel. *)
Ltac total_step x E :=
  lazymatch goal with
  | |- mbind _ ?m ≠ OutOfFuel =>
      destruct m as [x| |] eqn:E; cbn [mbind Outcome_bind];
      [|discriminate
       |first [ by apply throwIf_terminates in E
              | by apply ensureTargetValid_terminates in E
              | by apply getPlayerAt_terminates in E
              | by apply isOccupied_terminates in E
              | by apply requireActivePlayer_terminates in E
              | by apply readPosition_terminates in E
              | idtac ]]
  end.

Lemma executeMove_total st playerId (target : JsTarget Z) (fuel : nat) :
  (4 ≤ fuel)%nat → executeMove fuel st playerId target ≠ OutOfFuel.
Proof.
  intros Hfuel. unfold executeMove.
  total_step found E0. destruct found as [i player].
  total_step tgt E1. total_step position E2.
  total_step u1 E3. total_step u2 E4.
  apply throwIf_Return in E3, E4.
  total_step isClear E5; [total_step u3 E6; discriminate|].
  exfalso. revert E5. apply isPathClear_total.
  - destruct (decide (isStraightLine position tgt)); tauto.
  - unfold MOVE_RANGE, distance in *. simpl in *. lia.
Qed.

Lemma executeAttack_total st playerId (target : JsTarget Z) (fuel : nat) :
  (4 ≤ fuel)%nat → executeAttack fuel st playerId target ≠ OutOfFuel.
Proof.
  intros Hfuel. unfold executeAttack.
  total_step found E0. destruct found as [i player].
  total_step tgt E1. total_step position E2.
  total_step u1 E3. total_step u2 E4.
  total_step entityHit E5.
  - destruct entityHit as [hit|]; [|discriminate].
    total_step aimed E6. total_step u3 E7. discriminate.
  - exfalso. revert E5. apply findFirstEntity_total. lia.
Qed.

Lemma executePlaceObstacle_total st playerId (target : JsTarget Z) uuid :
  executePlaceObstacle st playerId target uuid ≠ OutOfFuel.
Proof.
  unfold executePlaceObstacle.
  total_step found E0. destruct found as [i player].
  total_step tgt E1. total_step u1 E2. total_step position E3.
  total_step u2 E4. total_step taken E5. total_step u3 E6. discriminate.
Qed.

(** With integer coordinates the handler of an action request always
    answers, on every store. *)
Lemma handleRequestAction_total st meta (payload : ActionPayload Z) uuid
    (fuel : nat) :
  (4 ≤ fuel)%nat → is_Some (handleRequestAction fuel st meta payload uuid).
Proof.
  intros Hfuel. unfold handleRequestAction.
  destruct meta as [user|user playerId]; [by eapply mk_is_Some|].
  case_decide; [by eapply mk_is_Some|].
  case_decide; [by eapply mk_is_Some|].
  destruct (actionType payload).
  - pose proof (executeMove_total st playerId (target payload) fuel Hfuel).
    destruct (executeMove _ _ _ _) as [st'|e|];
      [by eapply mk_is_Some|by eapply mk_is_Some|done].
  - pose proof (executeAttack_total st playerId (target payload) fuel Hfuel).
    destruct (executeAttack _ _ _ _) as [st'|e|];
      [by eapply mk_is_Some|by eapply mk_is_Some|done].
  - pose proof (executePlaceObstacle_total st playerId (target payload) uuid).
    destruct (executePlaceObstacle _ _ _ _) as [st'|e|];
      [by eapply mk_is_Some|by eapply mk_is_Some|done].
  - by eapply mk_is_Some.
Qed.
End IntegerTermination.

Section FractionalTarget.
Import Samples.

Lemma openedQ_positioned : positioned openedQ.
Proof.
  intros p Hp _. unfold openedQ in Hp. simpl in Hp.
  repeat (apply elem_of_cons in Hp as [->|Hp]; [by eapply mk_is_Some|]).
  by apply elem_of_nil in Hp.
Qed.

(** No cell of the row y = 0 at or left of x = 7 is occupied. *)
Lemma openedQ_row_free (x y : Q) :
  (x <= 7 # 1)%Q → (y == 0 # 1)%Q → ¬ occupied openedQ (mkPosition x y).
Proof.
  intros Hx Hy [Hocc|Hocc].
  - unfold openedQ in Hocc. simpl in Hocc.
    repeat (apply Exists_cons in Hocc as [[_ [H1 H2]]|Hocc];
            [simpl in H1, H2; lra|]).
    by apply Exists_nil in Hocc.
  - unfold openedQ in Hocc. simpl in Hocc. by apply Exists_nil in Hocc.
Qed.

(** The loop of [isPathClear] toward (7.5, 0), stepping left from a cell at
    or left of x = 7: the exit test never succeeds. *)
Lemma path_to_halfCell_loop (fuel : nat) (x y : Q) :
  (x <= 7 # 1)%Q → (y == 0 # 1)%Q →
  isPathClear_loop fuel openedQ (mkPosition (15 # 2)%Q (0 # 1)%Q)
    (inject_Z (-1)) (inject_Z 0) x y = OutOfFuel.
Proof.
  revert x y. induction fuel as [|fuel IH]; intros x y Hx Hy; [reflexivity|].
  simpl isPathClear_loop.
  rewrite decide_True by (left; simpl; lra).
  rewrite isOccupied_occupied by apply openedQ_positioned.
  rewrite bind_Return.
  rewrite bool_decide_false by (by apply openedQ_row_free).
  apply IH; simpl; unfold inject_Z; lra.
Qed.
(** The move of [p2], on (8,0), to (7.5, 0) has not returned, whatever the
    fuel. *)
Lemma executeMove_halfCell (fuel : nat) :
  executeMove fuel openedQ "p2" halfCell = OutOfFuel.
Proof.
  unfold executeMove.
  assert (Hreq : requireActivePlayer openedQ "p2"
                 = Return (1%nat,
                           mkPlayer "p2" None (js "Bob") (js "#00FF00") 10
                             (Some (mkPosition (8 # 1)%Q (0 # 1)%Q)) 3 Active))
    by reflexivity.
  assert (Htgt : ensureTargetValid openedQ halfCell
                 = Return (mkPosition (15 # 2)%Q (0 # 1)%Q)) by reflexivity.
  rewrite Hreq, bind_Return, Htgt, bind_Return.
  cbn [readPosition p_position]. rewrite bind_Return.
  rewrite (throwIf_False (¬ isStraightLine _ _)), bind_Return
    by (intros H; apply H; right; reflexivity).
  rewrite (throwIf_False (_ ∨ _)), bind_Return
    by (intros [H|H]; vm_compute in H; discriminate).
  unfold isPathClear.
  change (num_sign _) with (inject_Z (-1)) at 1.
  change (num_sign _) with (inject_Z 0) at 1.
  rewrite path_to_halfCell_loop;
    [reflexivity|vm_compute; discriminate|vm_compute; reflexivity].
Qed.
End FractionalTarget.

(** C8, at the failing input. After four joins and the move of [p1] to
    (0,1), the turn holder [p2], on (8,0), asks to move to (7.5, 0).  The
    target passes the bounds check, the straight-line test and the range
    test; the path loop then steps through x = 7, 6, 5, ... and never meets
    x = 7.5: the handler does not return, whatever the fuel. *)
Theorem fractional_move_never_returns (fuel : nat) :
  ensureTargetValid Samples.openedQ Samples.halfCell
    = Return (mkPosition (15 # 2)%Q (0 # 1)%Q)
  ∧ handleRequestAction fuel Samples.openedQ (PlayerClient None "p2")
      (mkActionPayload MOVE Samples.halfCell) "" = None.
Proof.
  split; [reflexivity|].
  unfold handleRequestAction.
  rewrite decide_False by (intros H; by apply H).
  rewrite decide_False by (intros H; by apply H).
  cbn [actionType target]. by rewrite executeMove_halfCell.
Qed.

(** ** Well-formedness of the reachable stores *)

(** Inversion of the first call of a sequence that returned. *)
Ltac bind_step H x E :=
  lazymatch type of H with
  | mbind _ ?m = Return _ =>
      destruct m as [x| |] eqn:E; cbn [mbind Outcome_bind] in H;
      [|discriminate H|discriminate H]
  end.

Section WellFormed.
Implicit Types (st : State Z) (p : Player Z) (tgt : Position Z).

Lemma wellFormed_ext st st' :
  players st' = players st → obstacles st' = obstacles st →
  gridSize st' = gridSize st → wellFormed st → wellFormed st'.
Proof.
  intros Hp Ho Hg [Hids Hact Hobs]. constructor.
  - by rewrite Hp.
  - intros p. rewrite Hp. unfold inBounds. rewrite Hg. apply Hact.
  - intros o. rewrite Ho. apply Hobs.
Qed.

(** On a well-formed store the cleanup and the rotation leave the players,
    the obstacles and the grid as they are. *)
Lemma action_end_frame st :
  wellFormed st →
  players (advanceTurn (cleanupAfterAction st)) = players st
  ∧ obstacles (advanceTurn (cleanupAfterAction st)) = obstacles st
  ∧ gridSize (advanceTurn (cleanupAfterAction st)) = gridSize st.
Proof.
  intros [Hids Hact Hobs].
  destruct (cleanup_obstacles_wf st (obstacles st) (players st)) as [Hp Ho].
  - by apply Forall_forall.
  - exact Hids.
  - intros p Hp Hpdv. destruct (p_status p) eqn:Hs; [|reflexivity].
    destruct (Hact p Hp Hs) as [Hpos _]. lia.
  - replace (set_obstacles (obstacles st) (set_players (players st) st))
      with st in Hp, Ho by (by destruct st).
    split; [exact Hp|]. split; [exact Ho|].
    by rewrite advanceTurn_gridSize, cleanupAfterAction_gridSize.
Qed.


Lemma ensureTargetValid_Return st (target : JsTarget Z) tgt :
  ensureTargetValid st target = Return tgt → inBounds st tgt.
Proof.
  unfold ensureTargetValid. destruct target as [|[x|] [y|]]; try discriminate.
  intros H. outcome_inv H. injection H as <-.
  apply throwIf_Return in E. unfold inBounds. simpl in *. lia.
Qed.

Lemma requireActivePlayer_lookup st playerId i player :
  requireActivePlayer st playerId = Return (i, player) →
  players st !! i = Some player ∧ p_status player = Active.
Proof.
  intros H. apply requireActivePlayer_Return in H as [Hf Ha].
  by apply list_find_Some in Hf as (? & _).
Qed.

(** A change of one Active player that keeps its id, its status and its hit
    points, and leaves it on a cell of the grid. *)
Lemma wellFormed_alter st i player (f : Player Z → Player Z) :
  wellFormed st → players st !! i = Some player →
  p_id (f player) = p_id player →
  (p_status (f player) = Active →
   0 < p_pdv (f player)
   ∧ ∃ q, p_position (f player) = Some q ∧ inBounds st q) →
  wellFormed (set_players (<[i := f player]> (players st)) st).
Proof.
  intros [Hids Hact Hobs] Hi Hid Hnew. constructor; simpl.
  - rewrite list_fmap_insert, Hid.
    rewrite list_insert_id; [exact Hids|].
    by rewrite list_lookup_fmap, Hi.
  - intros p Hp Ha. apply list_elem_of_lookup in Hp as [j Hj].
    destruct (decide (i = j)) as [<-|Hne].
    + rewrite list_lookup_insert_eq in Hj by (by eapply lookup_lt_Some).
      injection Hj as <-. by apply Hnew.
    + rewrite list_lookup_insert_ne in Hj by done.
      apply Hact; [by eapply list_elem_of_lookup_2|exact Ha].
  - exact Hobs.
Qed.



Lemma getPlayerAt_Some st position i p :
  positioned st → getPlayerAt st position = Return (Some (i, p)) →
  players st !! i = Some p ∧ p_status p = Active.
Proof.
  intros Hpos H. rewrite getPlayerAt_find in H by exact Hpos.
  injection H as H. apply list_find_Some in H as (Hi & [Ha _] & _). by split.
Qed.

Lemma findFirstEntity_loop_valid st a b dx dy :
  positioned st →
  ∀ (fuel : nat) x y hit,
    findFirstEntity_loop fuel st a b dx dy x y = Return (Some hit) →
    validHit st hit.
Proof.
  intros Hpos. induction fuel as [|fuel IH]; intros x y hit H;
    [discriminate|]. simpl in H.
  case_decide; [|discriminate].
  destruct (getPlayerAt st (mkPosition x y)) as [[[i p]|]| |] eqn:Hat;
    cbn [mbind Outcome_bind] in H; try discriminate.
  - injection H as <-. by apply (getPlayerAt_Some st (mkPosition x y)).
  - destruct (getObstacleAt st (mkPosition x y)) as [[j o]|] eqn:Ho.
    + injection H as <-. simpl. unfold getObstacleAt in Ho.
      by apply list_find_Some in Ho as (? & _).
    + case_decide; [discriminate|]. by eapply IH.
Qed.





Lemma corner_inBounds st (k : nat) :
  gridSize st = 9 → (k < MAX_PLAYERS)%nat →
  ∃ q, getStartingPositions st !! k = Some q ∧ inBounds st q.
Proof.
  intros Hg Hk. unfold getStartingPositions, inBounds. rewrite Hg.
  unfold MAX_PLAYERS in Hk.
  destruct k as [|[|[|[|k]]]]; [..|lia]; eexists; (split; [reflexivity|]);
    simpl; lia.
Qed.



Lemma wellFormed_delete st i :
  wellFormed st → wellFormed (set_players (delete i (players st)) st).
Proof.
  intros [Hids Hact Hobs]. constructor; simpl; [| |exact Hobs].
  - rewrite list_fmap_delete.
    apply (sublist_NoDup _ (p_id <$> players st)); [exact Hids|].
    apply sublist_delete.
  - intros p Hp. apply Hact. by eapply list_elem_of_delete_inv.
Qed.

Lemma markPlayerDefeated_wellFormed playerId st :
  wellFormed st →
  wellFormed (markPlayerDefeated playerId st)
  ∧ length (players (markPlayerDefeated playerId st)) = length (players st).
Proof.
  intros Hwf. unfold markPlayerDefeated.
  destruct (list_find _ _) as [[i p]|] eqn:Hf; [|done].
  case_decide; [done|].
  apply list_find_Some in Hf as (Hi & _).
  rewrite (alter_insert _ _ _ _ Hi).
  split; [|simpl; apply length_insert].
  apply (wellFormed_alter st i p
           (λ q, set_position None (set_status Defeated q)));
    [exact Hwf|exact Hi|reflexivity|]. simpl. discriminate.
Qed.

Lemma storeInvariant_leave st meta :
  storeInvariant st → storeInvariant (handleDisconnect st meta).
Proof.
  intros (Hwf & Hg & Hlen). unfold handleDisconnect.
  destruct meta as [user|user pid]; [done|]. unfold removePlayer.
  destruct (list_find _ _) as [[index leaver]|] eqn:Hf; [|done].
  apply list_find_Some in Hf as (Hindex & _).
  pose proof (lookup_lt_Some _ _ _ Hindex) as Hlt.
  set (st1 := set_players (delete index (players st)) st).
  pose proof (wellFormed_delete st index Hwf) as Hwf1. fold st1 in Hwf1.
  assert (Hlen1 : (length (players st1) < MAX_PLAYERS)%nat).
  { simpl. rewrite length_delete by (by eapply mk_is_Some). lia. }
  case_decide as Hempty.
  { split; [|split; [exact Hg|simpl; lia]].
    constructor; simpl; [apply NoDup_nil_2|intros p Hp|intros o Ho];
      by apply elem_of_nil in Hp || by apply elem_of_nil in Ho. }
  case_decide as Hact.
  { destruct (markPlayerDefeated_wellFormed (p_id leaver) st1 Hwf1)
      as [Hwf2 Hlen2].
    split; [|split].
    - eapply wellFormed_ext; [| | |exact Hwf2].
      + by rewrite checkVictory_players, advanceTurn_players.
      + by rewrite checkVictory_obstacles, advanceTurn_obstacles.
      + by rewrite checkVictory_gridSize, advanceTurn_gridSize.
    - by rewrite checkVictory_gridSize, advanceTurn_gridSize,
                 markPlayerDefeated_gridSize.
    - rewrite checkVictory_players, advanceTurn_players, Hlen2. lia. }
  case_decide as Hlobby.
  { split; [|split; [exact Hg|simpl; rewrite length_imap; simpl in Hlen1; lia]].
    destruct Hwf1 as [Hids1 Hact1 Hobs1]. constructor; simpl; [| |exact Hobs1].
    - rewrite fmap_imap.
      replace (imap (λ n, p_id ∘ (λ p, set_position
                                         (getStartingPositions st1 !! n) p))
                    (delete index (players st)))
        with (p_id <$> delete index (players st)); [exact Hids1|].
      apply list_eq. intros j.
      rewrite list_lookup_fmap, list_lookup_imap.
      by destruct (delete index (players st) !! j).
    - intros p Hp Ha. apply list_elem_of_lookup in Hp as [j Hj].
      rewrite list_lookup_imap in Hj.
      destruct (delete index (players st) !! j) as [r|] eqn:Hr; [|done].
      simpl in Hj. injection Hj as <-. simpl in *.
      split.
      + apply (Hact1 r); [by eapply list_elem_of_lookup_2|exact Ha].
      + apply (corner_inBounds st1 j Hg).
        apply lookup_lt_Some in Hr. simpl in Hlen1. lia. }
  split; [exact Hwf1|]. split; [exact Hg|]. lia.
Qed.



Lemma FreshStep_Step {N} `{!JsNumber N} (st st' : State N) :
  FreshStep st st' → Step st st'.
Proof. intros []; by econstructor. Qed.

Lemma reachableFresh_reachable {N} `{!JsNumber N} (st : State N) :
  reachableFresh st → reachable st.
Proof.
  unfold reachableFresh, reachable. apply rtc_subrel.
  intros x y. apply FreshStep_Step.
Qed.
End WellFormed.

(** ** The sample games *)

Section SampleFacts.
Import Samples.

Lemma reachable_joinAs {N} `{!JsNumber N} name color uuid (st : State N) :
  reachable st → reachable (joinAs name color uuid st).
Proof. intros Hr. eapply rtc_r; [exact Hr|]. apply step_join. Qed.

Lemma reachable_requestAs {N} `{!JsNumber N} playerId kind target uuid
    (st : State N) :
  reachable st → reachable (requestAs playerId kind target uuid st).
Proof.
  intros Hr. unfold requestAs.
  destruct (handleRequestAction _ _ _ _ _) as [[reply st']|] eqn:Hact;
    [|exact Hr].
  eapply rtc_r; [exact Hr|]. by eapply step_action.
Qed.

Lemma reachable_leaveAs playerId (st : State Z) :
  reachable st → reachable (leaveAs playerId st).
Proof. intros Hr. eapply rtc_r; [exact Hr|]. apply step_leave. Qed.

Lemma reachable_started : reachable started.
Proof.
  replace started
    with (joinAs "Dan" "#abcdef" "p4"
            (joinAs "Cleo" "#0000fF" "p3"
               (joinAs "Bob" " #00ff00 " "p2"
                  (joinAs "Ada" "#ff0000" "p1" (initialState (N:=Z))))))
    by (vm_compute; reflexivity).
  do 4 apply reachable_joinAs. apply rtc_refl.
Qed.

Lemma reachable_opened : reachable opened.
Proof.
  replace opened with (actAs "p1" MOVE 0 1 "" started)
    by (vm_compute; reflexivity).
  apply reachable_requestAs, reachable_started.
Qed.

Lemma reachable_twoLeft : reachable twoLeft.
Proof.
  replace twoLeft with (leaveAs "p2" (leaveAs "p1" started))
    by (vm_compute; reflexivity).
  do 2 apply reachable_leaveAs. apply reachable_started.
Qed.

Lemma reachable_oneLeft : reachable oneLeft.
Proof.
  replace oneLeft with (leaveAs "p3" (leaveAs "p2" (leaveAs "p1" started)))
    by (vm_compute; reflexivity).
  do 3 apply reachable_leaveAs. apply reachable_started.
Qed.

Lemma reachable_walled : reachable walled.
Proof.
  replace walled
    with (actAs "p4" MOVE 8 7 ""
            (actAs "p3" MOVE 0 7 ""
               (actAs "p2" MOVE 8 1 ""
                  (actAs "p1" PLACE_OBSTACLE 1 1 "o3"
                     (actAs "p4" MOVE 8 8 ""
                        (actAs "p3" MOVE 0 8 ""
                           (actAs "p2" MOVE 8 0 ""
                              (actAs "p1" PLACE_OBSTACLE 0 1 "o2"
                                 (actAs "p4" MOVE 8 7 ""
                                    (actAs "p3" MOVE 0 7 ""
                                       (actAs "p2" MOVE 8 1 ""
                                          (actAs "p1" PLACE_OBSTACLE 1 0 "o1"
                                             started))))))))))))
    by (vm_compute; reflexivity).
  do 12 apply reachable_requestAs. apply reachable_started.
Qed.

Lemma reachable_screened : reachable screened.
Proof.
  replace screened
    with (actAs "p4" MOVE 8 8 ""
            (actAs "p3" MOVE 0 2 ""
               (actAs "p2" MOVE 8 0 ""
                  (actAs "p1" PLACE_OBSTACLE 1 0 "o2"
                     (actAs "p4" MOVE 8 7 ""
                        (actAs "p3" MOVE 0 5 ""
                           (actAs "p2" MOVE 8 1 ""
                              (actAs "p1" PLACE_OBSTACLE 0 1 "o1"
                                 started))))))))
    by (vm_compute; reflexivity).
  do 8 apply reachable_requestAs. apply reachable_started.
Qed.

Ltac sample_wellFormed :=
  constructor;
  [ lazymatch goal with |- ?G => apply (bool_decide_unpack G) end;
    vm_compute; exact I
  | intros p Hp _; simpl in Hp;
    repeat (apply elem_of_cons in Hp as [->|Hp];
            [split; [simpl; lia|];
             eexists; split; [reflexivity|]; unfold inBounds; simpl; lia|]);
    by apply elem_of_nil in Hp
  | intros o Ho; simpl in Ho;
    repeat (apply elem_of_cons in Ho as [->|Ho]; [simpl; lia|]);
    by apply elem_of_nil in Ho ].

Lemma started_wellFormed : wellFormed started.
Proof. sample_wellFormed. Qed.

Lemma walled_wellFormed : wellFormed walled.
Proof. sample_wellFormed. Qed.

Lemma screened_wellFormed : wellFormed screened.
Proof. sample_wellFormed. Qed.
End SampleFacts.

(** ** The properties on the sample games *)

(** Closed decidable facts are settled by evaluation. *)
Ltac by_evaluation :=
  lazymatch goal with |- ?G => apply (bool_decide_unpack G) end;
  vm_compute; exact I.

(** C1 on a sample: in the started game [p2] does not hold the turn, and its
    move is refused with one of the precondition reasons. *)
Lemma action_preconditions_checked_first_witness :
  ∃ e, handleRequestAction 4 Samples.started (PlayerClient None "p2")
         (mkActionPayload MOVE (targetOf (Samples.cell 8 1))) ""
       = Some (ACTION_INVALID e, Samples.started)
     ∧ e ∈ preconditionErrors.
Proof.
  apply (action_preconditions_checked_first 4 Samples.started None "p2").
  - discriminate.
  - intros (_ & Hturn & _). discriminate Hturn.
Defined.

(** C2 on samples: the Finished game is reset to an empty Lobby on the same
    grid, the started game refuses the reset. *)
Lemma reset_spec_witness :
  handleResetGame Samples.oneLeft
    = (GAME_RESET, mkState Lobby 9 [] [] None None None)
  ∧ handleResetGame Samples.started
    = (ACTION_INVALID GameNotFinished, Samples.started).
Proof.
  split.
  - apply (proj2 (reset_spec Samples.oneLeft)); [reflexivity|discriminate].
  - apply (proj1 (reset_spec Samples.started)). discriminate.
Defined.

(** C9 on samples: with [p1] Defeated and [p2] the only Active player of
    a game in progress, [p2] wins; with both Defeated the game is Finished
    without winner; the started game, with four Active players, is left as
    it is. *)
Lemma checkVictory_spec_witness :
  checkVictory Samples.fallen
  = mkState Finished 9 (players Samples.fallen) [] (Some "p1")
            (Some (js "Bob")) (Some "p2")
  ∧ checkVictory Samples.wiped
    = mkState Finished 9 (players Samples.wiped) [] (Some "p1") None None
  ∧ checkVictory Samples.started = Samples.started.
Proof.
  split; [|split].
  - apply (proj1 (checkVictory_spec Samples.fallen)
                 (mkPlayer "p2" None (js "Bob") (js "#00FF00") 4
                           (Some (Samples.cell 8 0)) 3 Active));
      reflexivity.
  - apply (proj1 (proj2 (checkVictory_spec Samples.wiped))); reflexivity.
  - apply (proj2 (proj2 (checkVictory_spec Samples.started))).
    right. vm_compute. lia.
Defined.

(** C5 on samples: a fifth join is refused; so are, in the empty Lobby, a
    pseudo made of a space, an em space (U+2003) and an ideographic space
    (U+3000), and a three-digit color. *)
Lemma join_rejected_witness :
  joinRejected Samples.started
    (handleJoin Samples.started (Spectator None)
       (mkJoinPayload (VString (js "Eve")) (VString (js "#123456"))
                      VFalsy None) "p5")
  ∧ joinRejected (initialState (N:=Z))
      (handleJoin initialState (Spectator None)
         (mkJoinPayload (VString [32; 8195; 12288]) (VString (js "#123456"))
                        VFalsy None) "p1")
  ∧ joinRejected (initialState (N:=Z))
      (handleJoin initialState (Spectator None)
         (mkJoinPayload (VString (js "Eve")) (VString (js "#abc"))
                        VFalsy None) "p1").
Proof.
  split; [|split].
  - apply (proj1 (join_rejected Samples.started (Spectator None)
                    (mkJoinPayload (VString (js "Eve"))
                                   (VString (js "#123456")) VFalsy None)
                    "p5")).
    left. simpl. unfold MAX_PLAYERS. lia.
  - apply (proj1 (proj2 (join_rejected initialState (Spectator None)
                    (mkJoinPayload (VString [32; 8195; 12288])
                                   (VString (js "#123456")) VFalsy None)
                    "p1"))).
    intros s [= <-].
    repeat (apply Forall_cons_2; [unfold whiteSpace; lia|]).
    apply Forall_nil_2.
  - apply (proj2 (proj2 (join_rejected initialState (Spectator None)
                    (mkJoinPayload (VString (js "Eve")) (VString (js "#abc"))
                                   VFalsy None) "p1"))).
    intros s core [= <-] ((pre & post & Heq & _) & _)
      (d1 & d2 & d3 & d4 & d5 & d6 & -> & _).
    apply (f_equal length) in Heq. rewrite !length_app in Heq.
    simpl in Heq. lia.
Defined.



(** C3 as amended, on a sample, the example of the specification: [p1] on
    (0,0), its obstacle on (0,1), [p3] on (0,2).  Aimed at (0,2) the attack
    is blocked by the obstacle; aimed at (0,1) it destroys the obstacle. *)
Lemma attack_resolution_witness :
  executeAttack 2 Samples.screened "p1" (targetOf (Samples.cell 0 2))
    = Throw EntiteBloque
  ∧ ∃ st', executeAttack 2 Samples.screened "p1" (targetOf (Samples.cell 0 1))
           = Return st'
         ∧ players st' = players Samples.screened
         ∧ obstacles st'
           = [mkObstacle "o2" (Samples.cell 1 0) 2 "p1"].
Proof.
  split.
  - destruct (attack_resolution Samples.screened "p1" 0 (Samples.ada 0 0 1)
                (Samples.cell 0 0) (Samples.cell 0 2) 2)
      as (_ & _ & Hblocked & _).
    + apply screened_wellFormed.
    + repeat split; reflexivity.
    + unfold inBounds. simpl. lia.
    + left. reflexivity.
    + unfold taxicab, ATTACK_RANGE. simpl. lia.
    + lia.
    + eapply (Hblocked
                (HitObstacle 0 (mkObstacle "o1" (Samples.cell 0 1) 2 "p1"))
                (HitPlayer 2 (mkPlayer "p3" None (js "Cleo") (js "#0000FF")
                                10 (Some (Samples.cell 0 2)) 3 Active)));
        [reflexivity|reflexivity|discriminate].
  - destruct (attack_resolution Samples.screened "p1" 0 (Samples.ada 0 0 1)
                (Samples.cell 0 0) (Samples.cell 0 1) 2)
      as (_ & _ & _ & Hhit).
    + apply screened_wellFormed.
    + repeat split; reflexivity.
    + unfold inBounds. simpl. lia.
    + left. reflexivity.
    + unfold taxicab, ATTACK_RANGE. simpl. lia.
    + lia.
    + destruct (Hhit (HitObstacle 0 (mkObstacle "o1" (Samples.cell 0 1) 2 "p1")))
        as (st' & Hrun & Hplayers & Hobstacles).
      * reflexivity.
      * intros e [= <-]. reflexivity.
      * exists st'. split; [exact Hrun|]. split; [exact Hplayers|].
        rewrite Hobstacles. reflexivity.
Defined.

(** C6 as stated fails on a sample: [p1], walled in on (0,0) with no
    obstacle left, aims at (5,5), a cell of the grid that is not adjacent;
    the reason reported is the stock, not the adjacency. *)
Lemma place_obstacle_order_counterexample :
  actingPlayer Samples.walled "p1" 0 (Samples.ada 0 0 0) (Samples.cell 0 0)
  ∧ inBounds Samples.walled (Samples.cell 5 5)
  ∧ ¬ isAdjacent (Samples.cell 0 0) (Samples.cell 5 5)
  ∧ handleRequestAction 4 Samples.walled (PlayerClient None "p1")
      (mkActionPayload PLACE_OBSTACLE (targetOf (Samples.cell 5 5))) "o4"
    = Some (ACTION_INVALID PlusDObstacles, Samples.walled)
  ∧ PlusDObstacles ≠ CaseAdjacente.
Proof.
  split; [repeat split; reflexivity|].
  split; [unfold inBounds; simpl; lia|].
  split; [unfold isAdjacent; simpl; lia|].
  split; [reflexivity|discriminate].
Qed.

(** C6 as amended, on the same sample. *)
Lemma check_order_witness :
  executePlaceObstacle Samples.walled "p1" (targetOf (Samples.cell 5 5)) "o4"
    = Throw PlusDObstacles
  ∧ executeMove 3 Samples.walled "p1" (targetOf (Samples.cell 0 2))
    = Throw TrajetBloque.
Proof.
  destruct (check_order Samples.walled "p1" 0 (Samples.ada 0 0 0)
              (Samples.cell 0 0) (targetOf (Samples.cell 5 5)) 3 "o4")
    as [_ Hfar];
    [apply walled_wellFormed|repeat split; reflexivity|lia|].
  destruct (check_order Samples.walled "p1" 0 (Samples.ada 0 0 0)
              (Samples.cell 0 0) (targetOf (Samples.cell 0 2)) 3 "o4")
    as [_ Hnear];
    [apply walled_wellFormed|repeat split; reflexivity|lia|].
  split.
  - destruct (Hfar (Samples.cell 5 5)) as (_ & _ & _ & _ & _ & _ & _ & Hstock & _).
    + split; [reflexivity|]. unfold inBounds. simpl. lia.
    + apply Hstock. simpl. lia.
  - destruct (Hnear (Samples.cell 0 2)) as (_ & _ & Hpath & _).
    + split; [reflexivity|]. unfold inBounds. simpl. lia.
    + apply Hpath.
      * left. reflexivity.
      * unfold distance, MOVE_RANGE. simpl. lia.
      * by_evaluation.
Defined.

(** C7 as stated fails on a sample: after [p1], [p2] and then the turn
    holder [p3] have left the started game, the game is Finished and the
    turn still names [p3], who is no longer in the list. *)
Lemma turn_holder_counterexample :
  reachable Samples.oneLeft
  ∧ gameStatus Samples.oneLeft = Finished
  ∧ currentPlayerTurn Samples.oneLeft = Some "p3"
  ∧ ¬ (currentPlayerTurn Samples.oneLeft = None
       ∨ turnHolderActive Samples.oneLeft).
Proof.
  split; [apply reachable_oneLeft|]. split; [reflexivity|].
  split; [reflexivity|]. intros [Hnone|(p & Hp & _ & Hturn)].
  - discriminate Hnone.
  - unfold Samples.oneLeft in Hp. simpl in Hp.
    apply list_elem_of_singleton in Hp as ->. discriminate Hturn.
Qed.

(** C7 as amended, on samples: after the first move the turn holder is an
    Active player of the list; and the departure of [p3] that finishes the
    game of [p3] and [p4] leaves the turn to [p3]. *)
Lemma turn_holder_invariant_witness :
  (∃ p, p ∈ players Samples.opened ∧ p_status p = Active
        ∧ currentPlayerTurn Samples.opened = Some (p_id p))
  ∧ currentPlayerTurn Samples.oneLeft = currentPlayerTurn Samples.twoLeft.
Proof.
  split.
  - apply (turn_holder_invariant Samples.opened).
    + apply reachable_opened.
    + reflexivity.
  - apply (turn_holder_invariant Samples.twoLeft).
    + apply reachable_twoLeft.
    + apply (step_leave Samples.twoLeft (PlayerClient None "p3")).
    + reflexivity.
Defined.


(** * What an accepted request does to the store *)

Section Cells.
Implicit Types (st : State Z) (p : Player Z) (o : Obstacle Z)
  (c tgt : Position Z).

Lemma position_eq c c' :
  pos_x c = pos_x c' ∧ pos_y c = pos_y c' ↔ c = c'.
Proof.
  destruct c, c'; simpl. split; [intros [-> ->]; reflexivity|].
  by intros [= -> ->].
Qed.

Lemma playerAt_iff c p :
  playerAt c p ↔ p_status p = Active ∧ p_position p = Some c.
Proof.
  unfold playerAt. destruct (p_position p) as [q|]; simpl.
  - change (num_eq (pos_x q) (pos_x c)) with (pos_x q = pos_x c).
    change (num_eq (pos_y q) (pos_y c)) with (pos_y q = pos_y c).
    rewrite position_eq. split; intros [Ha Hq]; (split; [exact Ha|]);
      congruence.
  - split; intros [Ha Hq]; [done|discriminate].
Qed.

Lemma obstacleAt_iff c o : obstacleAt c o ↔ o_position o = c.
Proof. unfold obstacleAt. simpl. apply position_eq. Qed.

Lemma occupied_iff st c :
  occupied st c ↔
  (∃ p, p ∈ players st ∧ p_status p = Active ∧ p_position p = Some c)
  ∨ (∃ o, o ∈ obstacles st ∧ o_position o = c).
Proof.
  unfold occupied. rewrite !Exists_exists.
  split; (intros [(x & Hin & Hx)|(x & Hin & Hx)]; [left|right]);
    exists x; (split; [exact Hin|]);
    first [by apply playerAt_iff | by apply obstacleAt_iff].
Qed.

(** [isPathClear] answers [true] only after it has found the target cell
    free. *)
Lemma isPathClear_loop_free st tgt dx dy (fuel : nat) x y :
  positioned st →
  isPathClear_loop fuel st tgt dx dy x y = Return true → ¬ occupied st tgt.
Proof.
  intros Hpos. revert x y. induction fuel as [|fuel IH]; intros x y H;
    [discriminate|]. simpl in H.
  rewrite !isOccupied_occupied in H by exact Hpos.
  cbn [mbind Outcome_bind] in H.
  case_decide.
  - destruct (bool_decide (occupied st (mkPosition x y))); [discriminate|].
    by eapply IH.
  - destruct (bool_decide (occupied st tgt)) eqn:Hocc; [discriminate|].
    by apply bool_decide_eq_false in Hocc.
Qed.

Lemma isPathClear_free st a tgt (fuel : nat) :
  positioned st → isPathClear fuel st a tgt = Return true → ¬ occupied st tgt.
Proof. intros Hpos. unfold isPathClear. by apply isPathClear_loop_free. Qed.

(** The entity returned by the ray cast stands on a cell that the loop has
    visited. *)
Lemma findFirstEntity_loop_hit st a b dx dy :
  positioned st →
  ∀ (fuel : nat) x y hit,
    findFirstEntity_loop fuel st a b dx dy x y = Return (Some hit) →
    ∃ n : nat,
      entityAt st (mkPosition (x + Z.of_nat n * dx) (y + Z.of_nat n * dy))
      = Some hit.
Proof.
  intros Hpos. induction fuel as [|fuel IH]; intros x y hit H;
    [discriminate|]. simpl in H.
  case_decide; [|discriminate].
  rewrite getPlayerAt_find in H by exact Hpos.
  cbn [mbind Outcome_bind] in H. rewrite getObstacleAt_find in H.
  destruct (list_find (playerAt (mkPosition x y)) (players st))
    as [[i p]|] eqn:Hp.
  { injection H as <-. exists 0%nat.
    replace (x + Z.of_nat 0 * dx) with x by lia.
    replace (y + Z.of_nat 0 * dy) with y by lia.
    by apply entityAt_player. }
  destruct (list_find (obstacleAt (mkPosition x y)) (obstacles st))
    as [[j o]|] eqn:Ho.
  { injection H as <-. exists 0%nat.
    replace (x + Z.of_nat 0 * dx) with x by lia.
    replace (y + Z.of_nat 0 * dy) with y by lia.
    by apply entityAt_obstacle. }
  case_decide; [discriminate|].
  apply IH in H as [n Hn]. exists (S n).
  replace (x + Z.of_nat (S n) * dx) with (x + dx + Z.of_nat n * dx) by lia.
  replace (y + Z.of_nat (S n) * dy) with (y + dy + Z.of_nat n * dy) by lia.
  exact Hn.
Qed.
End Cells.

(** ** Inversion of the accepted actions *)

Section Inversion.
Implicit Types (st : State Z) (p player : Player Z) (tgt : Position Z).

Lemma actingPlayer_lookup st playerId i player position :
  actingPlayer st playerId i player position →
  players st !! i = Some player ∧ p_id player = playerId.
Proof. intros (Hf & _ & _). by apply list_find_Some in Hf as (? & ? & _). Qed.

(** An accepted move: the mover is the acting player, the target is a free
    cell of the grid. *)
Lemma executeMove_inv fuel st playerId (target : JsTarget Z) st' :
  wellFormed st → executeMove fuel st playerId target = Return st' →
  ∃ i player position tgt,
    actingPlayer st playerId i player position
    ∧ inBounds st tgt ∧ ¬ occupied st tgt
    ∧ st' = advanceTurn (cleanupAfterAction
              (set_players (<[i := set_position (Some tgt) player]>
                              (players st)) st)).
Proof.
  intros Hwf H. unfold executeMove in H.
  bind_step H found Hreq. destruct found as [i player].
  bind_step H tgt Htgt. bind_step H position Hpos.
  bind_step H u1 E1. bind_step H u2 E2. bind_step H isClear E3.
  bind_step H u3 E4. injection H as <-.
  apply throwIf_Return in E4. destruct isClear; [|done].
  apply isPathClear_free in E3; [|by apply wellFormed_positioned].
  pose proof Hreq as Hreq'.
  apply requireActivePlayer_Return in Hreq' as [Hf Ha].
  apply requireActivePlayer_lookup in Hreq as [Hi _].
  unfold readPosition in Hpos.
  destruct (p_position player) as [q|] eqn:Hq; [|discriminate].
  injection Hpos as ->.
  exists i, player, position, tgt.
  split; [by repeat split|].
  split; [by eapply ensureTargetValid_Return|]. split; [exact E3|].
  by rewrite (alter_insert _ _ _ _ Hi).
Qed.

(** An accepted obstacle: the acting player has stock left, the target is a
    free cell of the grid. *)
Lemma executePlaceObstacle_inv st playerId (target : JsTarget Z) uuid st' :
  wellFormed st → executePlaceObstacle st playerId target uuid = Return st' →
  ∃ i player position tgt,
    actingPlayer st playerId i player position
    ∧ inBounds st tgt ∧ ¬ occupied st tgt
    ∧ 0 < p_obstaclesRestants player
    ∧ st' = advanceTurn (cleanupAfterAction
              (set_players
                 (<[i := set_obstaclesRestants
                           (p_obstaclesRestants player - 1) player]>
                    (players st))
                 (set_obstacles
                    (obstacles st
                       ++ [mkObstacle uuid tgt OBSTACLE_HP (p_id player)])
                    st))).
Proof.
  intros Hwf H. unfold executePlaceObstacle in H.
  bind_step H found Hreq. destruct found as [i player].
  bind_step H tgt Htgt. bind_step H u1 E1. bind_step H position Hpos.
  bind_step H u2 E2. bind_step H taken E3. bind_step H u3 E4.
  injection H as <-.
  apply throwIf_Return in E1, E4.
  rewrite isOccupied_occupied in E3 by (by apply wellFormed_positioned).
  injection E3 as <-.
  pose proof Hreq as Hreq'.
  apply requireActivePlayer_Return in Hreq' as [Hf Ha].
  apply requireActivePlayer_lookup in Hreq as [Hi _].
  unfold readPosition in Hpos.
  destruct (p_position player) as [q|] eqn:Hq; [|discriminate].
  injection Hpos as ->.
  exists i, player, position, tgt.
  split; [by repeat split|].
  split; [by eapply ensureTargetValid_Return|].
  split; [intros Hocc; apply E4; by apply bool_decide_eq_true|].
  split; [lia|].
  by rewrite (alter_insert _ _ _ _ Hi).
Qed.

(** An accepted attack: the struck entity, found by the ray cast toward the
    validated target, is an Active player other than the caster, or an
    obstacle. *)
Lemma executeAttack_inv fuel st playerId (target : JsTarget Z) st' :
  wellFormed st → executeAttack fuel st playerId target = Return st' →
  ∃ i player position tgt hit,
    actingPlayer st playerId i player position
    ∧ ensureTargetValid st target = Return tgt
    ∧ findFirstEntity fuel st position tgt = Return (Some hit)
    ∧ validHit st hit
    ∧ match hit with HitPlayer k _ => k ≠ i | HitObstacle _ _ => True end
    ∧ st' = advanceTurn (cleanupAfterAction (applyAttack i hit st)).
Proof.
  intros Hwf H. unfold executeAttack in H.
  pose proof (wellFormed_positioned st Hwf) as Hposd.
  bind_step H found Hreq. destruct found as [i player].
  bind_step H tgt Htgt. bind_step H position Hpos.
  bind_step H u1 E1. bind_step H u2 E2. bind_step H entityHit E3.
  destruct entityHit as [hit|]; [|discriminate].
  bind_step H aimed E4. bind_step H u3 E5. injection H as <-.
  apply throwIf_Return in E1, E2.
  pose proof Hreq as Hreq'.
  apply requireActivePlayer_Return in Hreq' as [Hf Ha].
  apply requireActivePlayer_lookup in Hreq as [Hi _].
  unfold readPosition in Hpos.
  destruct (p_position player) as [q|] eqn:Hq; [|discriminate].
  injection Hpos as ->.
  exists i, player, position, tgt, hit.
  split; [by repeat split|]. split; [reflexivity|]. split; [exact E3|].
  split; [by eapply findFirstEntity_loop_valid|].
  split; [|reflexivity].
  destruct hit as [k p|j o]; [|done]. intros ->.
  unfold findFirstEntity in E3.
  apply findFirstEntity_loop_hit in E3 as [n Hn]; [|exact Hposd].
  apply entityAt_HitPlayer in Hn as [Hk Hat].
  rewrite Hi in Hk. injection Hk as <-.
  apply playerAt_iff in Hat as [_ Hat]. rewrite Hq in Hat.
  injection Hat as Hat. apply (f_equal pos_x) in Hat as Hx.
  apply (f_equal pos_y) in Hat as Hy. simpl in Hx, Hy.
  unfold distance in E2. simpl in E2.
  change (num_eq ?a ?b) with (a = b) in E2.
  change (num_lt ?a ?b) with (a < b) in E2.
  assert (Hd : Z.abs (pos_x position - pos_x tgt)
               + Z.abs (pos_y position - pos_y tgt) ≠ 0) by tauto.
  nia.
Qed.
End Inversion.

(** * The rotation of the turn *)

Section Rotation.
Context {N : Type} `{!JsNumber N}.
Implicit Types (st : State N) (p nxt : Player N) (l : list (Player N)).

(** The rotation stops on the first Active player of the [iters] seats that
    follow [idx] around the table, and clears the turn when there is none. *)
Lemma advanceTurn_loop_next iters idx st :
  (0 < length (players st))%nat →
  -1 ≤ idx < Z.of_nat (length (players st)) →
  (∃ nxt d,
      1 ≤ d ≤ Z.of_nat iters
      ∧ players st !! Z.to_nat ((idx + d) `mod` Z.of_nat (length (players st))) = Some nxt
      ∧ p_status nxt = Active
      ∧ (∀ d' q, 1 ≤ d' < d → players st !! Z.to_nat ((idx + d') `mod` Z.of_nat (length (players st))) = Some q →
                 p_status q ≠ Active)
      ∧ advanceTurn_loop iters idx st
        = set_currentPlayerTurn (Some (p_id nxt)) st)
  ∨ (advanceTurn_loop iters idx st = set_currentPlayerTurn None st
     ∧ ∀ d' q, 1 ≤ d' ≤ Z.of_nat iters → players st !! Z.to_nat ((idx + d') `mod` Z.of_nat (length (players st))) = Some q →
               p_status q ≠ Active).
Proof.
  intros Hlen. revert idx.
  induction iters as [|n IH]; intros idx Hidx.
  { right. split; [reflexivity|]. intros d' q Hd. lia. }
  simpl advanceTurn_loop.
  set (len := Z.of_nat (length (players st))) in *.
  assert (Hrem : Z.rem (idx + 1) len = (idx + 1) `mod` len).
  { apply Z.rem_mod_nonneg; lia. }
  rewrite Hrem.
  assert (Hnext : 0 ≤ (idx + 1) `mod` len < len)
    by (apply Z.mod_pos_bound; lia).
  destruct (players st !! Z.to_nat ((idx + 1) `mod` len)) as [p|] eqn:Hp.
  2:{ apply lookup_ge_None in Hp. lia. }
  assert (Hseat : ∀ d, ((idx + 1) `mod` len + d) `mod` len
                       = (idx + (d + 1)) `mod` len).
  { intros d. rewrite Zplus_mod_idemp_l. f_equal. lia. }
  case_decide as Ha.
  { left. exists p, 1. split; [lia|]. split; [exact Hp|]. split; [exact Ha|].
    split; [intros d' q Hd; lia|reflexivity]. }
  destruct (IH ((idx + 1) `mod` len)) as
    [(nxt & d & Hd & Hnxt & Hact & Hmin & Heq)|[Hnone Hall]]; [lia| |].
  - left. exists nxt, (d + 1). split; [lia|].
    split; [by rewrite <- Hseat|]. split; [exact Hact|].
    split; [|exact Heq].
    intros d' q Hd' Hq.
    destruct (decide (d' = 1)) as [->|Hne].
    + rewrite Hp in Hq. by injection Hq as <-.
    + apply (Hmin (d' - 1) q); [lia|].
      rewrite Hseat. by replace (d' - 1 + 1) with d' by lia.
  - right. split; [exact Hnone|].
    intros d' q Hd' Hq.
    destruct (decide (d' = 1)) as [->|Hne].
    + rewrite Hp in Hq. by injection Hq as <-.
    + apply (Hall (d' - 1) q); [lia|].
      rewrite Hseat. by replace (d' - 1 + 1) with d' by lia.
Qed.

(** Every seat is read within one round of the table. *)
Lemma seat_reached l (c : Z) (t : nat) :
  (t < length l)%nat →
  ∃ d, 1 ≤ d ≤ Z.of_nat (length l)
       ∧ Z.to_nat ((c + d) `mod` Z.of_nat (length l)) = t.
Proof.
  intros Ht. set (len := Z.of_nat (length l)).
  exists ((Z.of_nat t - c - 1) `mod` len + 1).
  pose proof (Z.mod_pos_bound (Z.of_nat t - c - 1) len). split; [lia|].
  replace (c + ((Z.of_nat t - c - 1) `mod` len + 1))
    with (c + 1 + (Z.of_nat t - c - 1) `mod` len) by lia.
  rewrite Zplus_mod_idemp_r.
  replace (c + 1 + (Z.of_nat t - c - 1)) with (Z.of_nat t) by lia.
  rewrite Z.mod_small by lia. by rewrite Nat2Z.id.
Qed.



(** [advanceTurn] in a game with two Active players or more: the turn goes
    to the next Active player after the seat of the turn holder, and the
    rest of the store is as before. *)
Lemma advanceTurn_next st :
  gameStatus st = InProgress → (2 ≤ length (activePlayers st))%nat →
  ∃ nxt,
    nextActive (players st)
      (findIndex (λ player, Some (p_id player) = currentPlayerTurn st)
                 (players st)) nxt
    ∧ advanceTurn st = set_currentPlayerTurn (Some (p_id nxt)) st.
Proof.
  intros Hs Hact. unfold advanceTurn.
  rewrite decide_False by congruence. rewrite decide_False by lia.
  set (c := findIndex _ _).
  assert (Hlen : (0 < length (players st))%nat).
  { pose proof (length_filter (λ p, p_status p = Active) (players st)).
    unfold activePlayers in Hact. lia. }
  destruct (advanceTurn_loop_next (length (players st)) c st Hlen)
    as [(nxt & d & Hd & Hseat & Ha & Hmin & Heq)|[_ Hall]].
  { apply findIndex_range. }
  - exists nxt. split; [|exact Heq]. by exists d.
  - exfalso. unfold activePlayers in Hact.
    destruct (filter _ (players st)) as [|q rest] eqn:Hfl;
      [simpl in Hact; lia|].
    assert (Hq : q ∈ filter (λ p, p_status p = Active) (players st))
      by (rewrite Hfl; left).
    apply list_elem_of_filter in Hq as [Hqa Hq].
    apply list_elem_of_lookup in Hq as [t Ht].
    destruct (seat_reached (players st) c t) as (d & Hd & Hseat).
    { by eapply lookup_lt_Some. }
    apply (Hall d q Hd); [by rewrite Hseat|exact Hqa].
Qed.
End Rotation.

(** * The board under the elementary changes of the store *)

Section Board.
Implicit Types (st : State Z) (p q : Player Z) (o : Obstacle Z)
  (c tgt : Position Z).

Lemma elem_of_insert_inv {A} (l : list A) i (x y : A) :
  y ∈ <[i:=x]> l → y = x ∨ y ∈ l.
Proof.
  intros Hy. apply list_elem_of_lookup in Hy as [j Hj].
  apply list_lookup_insert_Some in Hj as [(_ & -> & _)|[_ Hj]];
    [by left|right; by eapply list_elem_of_lookup_2].
Qed.

(** ** Hit points and stocks *)

Lemma vitals_update st st' i p' :
  vitals st → players st' = <[i:=p']> (players st) → vital p' → vitals st'.
Proof.
  intros Hv Hp Hp' q Hq. rewrite Hp in Hq.
  apply elem_of_insert_inv in Hq as [->|Hq]; [done|by apply Hv].
Qed.

Lemma vitals_subset st st' :
  vitals st → (∀ p, p ∈ players st' → p ∈ players st) → vitals st'.
Proof. intros Hv Hsub p Hp. by apply Hv, Hsub. Qed.

Lemma vital_struck p :
  vital p → p_status p = Active → 0 < p_pdv p → vital (struck p).
Proof.
  intros (Hpdv & [z Hz] & Hdef & Hpos & Hstock) Ha Hlive.
  unfold struck, vital, ATTACK_DAMAGE, PLAYER_HP in *. simpl.
  case_decide as Hdead; simpl in *.
  - split; [lia|]. split; [exists (z - 1); lia|].
    split; [split; [lia|reflexivity]|]. split; [reflexivity|exact Hstock].
  - split; [lia|]. split; [exists (z - 1); lia|].
    split; [split; [congruence|lia]|]. split; [congruence|exact Hstock].
Qed.

Lemma vital_move p tgt :
  vital p → p_status p = Active → vital (set_position (Some tgt) p).
Proof.
  intros (Hpdv & Heven & Hdef & Hpos & Hstock) Ha.
  repeat split; simpl; try tauto; try lia. congruence.
Qed.

Lemma vital_stock p :
  vital p → 0 < p_obstaclesRestants p →
  vital (set_obstaclesRestants (p_obstaclesRestants p - 1) p).
Proof.
  intros (Hpdv & Heven & Hdef & Hpos & Hstock) Hr.
  repeat split; simpl; try tauto; lia.
Qed.

(** ** Obstacles *)

Lemma obstaclesIntact_subset st st' :
  obstaclesIntact st → gridSize st' = gridSize st →
  (∀ o, o ∈ obstacles st' → o ∈ obstacles st) → obstaclesIntact st'.
Proof.
  intros Hoi Hg Hsub o Ho. unfold inBounds. rewrite Hg. by apply Hoi, Hsub.
Qed.

Lemma obstaclesIntact_add st st' o :
  obstaclesIntact st → gridSize st' = gridSize st →
  obstacles st' = (obstacles st ++ [o])%list →
  o_pdv o = OBSTACLE_HP → inBounds st (o_position o) → obstaclesIntact st'.
Proof.
  intros Hoi Hg Hobs Hpdv Hin o' Ho'. rewrite Hobs in Ho'.
  unfold inBounds. rewrite Hg.
  apply elem_of_app in Ho' as [Ho'|Ho']; [by apply Hoi|].
  by apply list_elem_of_singleton in Ho' as ->.
Qed.

(** ** One entity per cell *)

Lemma exclusive_update st st' i p p' :
  exclusive st → players st !! i = Some p →
  players st' = <[i:=p']> (players st) → obstacles st' = obstacles st →
  (p_status p' = Active →
     (p_status p = Active ∧ p_position p' = p_position p)
     ∨ (∃ tgt, p_position p' = Some tgt ∧ ¬ occupied st tgt)) →
  exclusive st'.
Proof.
  intros (Hpl & Hob & Hcross) Hi Hp Ho Hnew.
  assert (Hfree : ∀ tgt q, ¬ occupied st tgt → q ∈ players st →
                           p_status q = Active → p_position q ≠ Some tgt).
  { intros tgt q Hfree Hq Hqa Hqp. apply Hfree, occupied_iff.
    left. by exists q. }
  split; [|split].
  - intros a b pa pb Ha Hb Hab Hsa Hsb. rewrite Hp in Ha, Hb.
    apply list_lookup_insert_Some in Ha as [(<- & <- & _)|[Hai Ha]];
      apply list_lookup_insert_Some in Hb as [(<- & <- & _)|[Hbi Hb]];
      try done.
    + destruct (Hnew Hsa) as [[Hpa ->]|(tgt & -> & Hfr)].
      * by apply (Hpl i b p pb).
      * apply not_eq_sym, (Hfree tgt pb Hfr); [|exact Hsb].
        by eapply list_elem_of_lookup_2.
    + destruct (Hnew Hsb) as [[Hpa ->]|(tgt & -> & Hfr)].
      * by apply (Hpl a i pa p).
      * apply (Hfree tgt pa Hfr); [|exact Hsa].
        by eapply list_elem_of_lookup_2.
    + by apply (Hpl a b pa pb).
  - by rewrite Ho.
  - intros q o Hq Hoin Hqa. rewrite Hp in Hq. rewrite Ho in Hoin.
    apply elem_of_insert_inv in Hq as [->|Hq]; [|by apply Hcross].
    destruct (Hnew Hqa) as [[Hpa ->]|(tgt & -> & Hfr)].
    + apply Hcross; [by eapply list_elem_of_lookup_2|exact Hoin|exact Hpa].
    + intros [= ->]. apply Hfr, occupied_iff. right. by exists o.
Qed.

Lemma exclusive_add st st' o :
  exclusive st → players st' = players st →
  obstacles st' = (obstacles st ++ [o])%list →
  ¬ occupied st (o_position o) → exclusive st'.
Proof.
  intros (Hpl & Hob & Hcross) Hp Ho Hfree.
  split; [|split].
  - rewrite Hp. exact Hpl.
  - rewrite Ho, fmap_app. apply NoDup_app. split; [exact Hob|].
    split; [|apply NoDup_singleton].
    intros c Hc Hc'. apply list_elem_of_singleton in Hc' as ->.
    apply list_elem_of_fmap in Hc as (o' & Heq & Ho').
    apply Hfree, occupied_iff. right. by exists o'.
  - intros q o' Hq Ho' Hqa. rewrite Hp in Hq. rewrite Ho in Ho'.
    apply elem_of_app in Ho' as [Ho'|Ho']; [by apply Hcross|].
    apply list_elem_of_singleton in Ho' as ->.
    intros Hqp. apply Hfree, occupied_iff. left. by exists q.
Qed.

Lemma exclusive_filter st st' (P : Obstacle Z → Prop) `{!∀ o, Decision (P o)} :
  exclusive st → players st' = players st →
  obstacles st' = filter P (obstacles st) → exclusive st'.
Proof.
  intros (Hpl & Hob & Hcross) Hp Ho.
  split; [|split].
  - rewrite Hp. exact Hpl.
  - rewrite Ho. eapply sublist_NoDup; [exact Hob|].
    apply fmap_sublist, sublist_filter.
  - intros q o Hq Hoin. rewrite Hp in Hq. rewrite Ho in Hoin.
    apply list_elem_of_filter in Hoin as [_ Hoin]. by apply Hcross.
Qed.

Lemma lookup_delete_Some {A} (l : list A) i j (x : A) :
  delete i l !! j = Some x →
  ∃ j', j' ≠ i ∧ l !! j' = Some x ∧ (j' = j ∨ j' = S j)
        ∧ ((j < i)%nat ↔ j' = j).
Proof.
  intros Hj. destruct (decide (j < i)%nat).
  - rewrite list_lookup_delete_lt in Hj by done.
    exists j. split; [lia|]. split; [done|]. split; [by left|]. tauto.
  - rewrite list_lookup_delete_ge in Hj by lia.
    exists (S j). split; [lia|]. split; [done|]. split; [by right|]. lia.
Qed.

Lemma exclusive_delete st st' i :
  exclusive st → players st' = delete i (players st) →
  obstacles st' = obstacles st → exclusive st'.
Proof.
  intros (Hpl & Hob & Hcross) Hp Ho.
  split; [|split].
  - intros a b pa pb Ha Hb Hab. rewrite Hp in Ha, Hb.
    apply lookup_delete_Some in Ha as (a' & _ & Ha & Hcasea & Hlta).
    apply lookup_delete_Some in Hb as (b' & _ & Hb & Hcaseb & Hltb).
    apply (Hpl a' b' pa pb Ha Hb). lia.
  - by rewrite Ho.
  - intros q o Hq Hoin. rewrite Hp in Hq. rewrite Ho in Hoin.
    apply Hcross; [by eapply list_elem_of_delete_inv|exact Hoin].
Qed.

(** ** The stock ledger *)

Lemma length_filter_filter {A} (P Q : A → Prop) `{!∀ x, Decision (P x)}
    `{!∀ x, Decision (Q x)} (l : list A) :
  (length (filter Q (filter P l)) ≤ length (filter Q l))%nat.
Proof.
  induction l as [|x l IH]; [done|]. rewrite (filter_cons P).
  destruct (decide (P x)); rewrite !(filter_cons Q);
    destruct (decide (Q x)); simpl; lia.
Qed.

Lemma owned_ext st st' playerId :
  obstacles st' = obstacles st → owned st' playerId = owned st playerId.
Proof. unfold owned. by intros ->. Qed.

Lemma stockLedger_update st st' i p p' :
  stockLedger st → players st !! i = Some p →
  players st' = <[i:=p']> (players st) → obstacles st' = obstacles st →
  p_id p' = p_id p → p_obstaclesRestants p' ≤ p_obstaclesRestants p →
  stockLedger st'.
Proof.
  intros Hl Hi Hp Ho Hid Hstock q Hq. rewrite Hp in Hq.
  rewrite (owned_ext st st') by exact Ho.
  apply elem_of_insert_inv in Hq as [->|Hq]; [|by apply Hl].
  rewrite Hid.
  pose proof (Hl p (list_elem_of_lookup_2 _ _ _ Hi)). lia.
Qed.

Lemma stockLedger_place st st' i p uuid tgt :
  stockLedger st → NoDup (p_id <$> players st) → players st !! i = Some p →
  players st'
  = <[i := set_obstaclesRestants (p_obstaclesRestants p - 1) p]> (players st) →
  obstacles st'
  = (obstacles st ++ [mkObstacle uuid tgt OBSTACLE_HP (p_id p)])%list →
  stockLedger st'.
Proof.
  intros Hl Hnd Hi Hp Ho q Hq. rewrite Hp in Hq. unfold owned. rewrite Ho.
  rewrite filter_app, length_app.
  apply list_elem_of_lookup in Hq as [j Hj].
  apply list_lookup_insert_Some in Hj as [(<- & <- & _)|[Hne Hj]].
  - simpl. rewrite filter_cons_True by reflexivity. simpl.
    pose proof (Hl p (list_elem_of_lookup_2 _ _ _ Hi)) as Hp0.
    unfold owned in Hp0. lia.
  - rewrite filter_cons_False, filter_nil.
    + pose proof (Hl q (list_elem_of_lookup_2 _ _ _ Hj)) as Hq0.
      unfold owned in Hq0. simpl. lia.
    + simpl. intros Heq. apply Hne.
      eapply NoDup_lookup; [exact Hnd| |].
      * rewrite list_lookup_fmap, Hi. reflexivity.
      * rewrite list_lookup_fmap, Hj. simpl. by rewrite Heq.
Qed.

Lemma stockLedger_filter st st' (P : Obstacle Z → Prop)
    `{!∀ o, Decision (P o)} :
  stockLedger st → players st' = players st →
  obstacles st' = filter P (obstacles st) → stockLedger st'.
Proof.
  intros Hl Hp Ho q Hq. rewrite Hp in Hq. unfold owned. rewrite Ho.
  pose proof (Hl q Hq) as Hq0. unfold owned in Hq0.
  pose proof (length_filter_filter P (λ o, o_ownerId o = p_id q)
                (obstacles st)). lia.
Qed.
End Board.

(** * The invariant, step by step *)

Section ActionEnd.
Implicit Types (st stX : State Z) (p q w : Player Z) (o : Obstacle Z)
  (c tgt : Position Z).

(** On a well-formed store the cleanup has nothing to clean: it only
    evaluates victory. *)
Lemma cleanupAfterAction_wf stX :
  wellFormed stX → cleanupAfterAction stX = checkVictory stX.
Proof.
  intros [Hids Hact Hobs]. rewrite cleanupAfterAction_players.
  - rewrite filter_all by (by apply Forall_forall). by destruct stX.
  - exact Hids.
  - intros p Hp Hpdv. destruct (p_status p) eqn:Hs; [|reflexivity].
    destruct (Hact p Hp Hs) as [Hpos _]. lia.
Qed.

Lemma action_end_next stX :
  wellFormed stX → gameStatus stX = InProgress →
  (2 ≤ length (activePlayers stX))%nat →
  ∃ nxt,
    nextActive (players stX)
      (findIndex (λ player, Some (p_id player) = currentPlayerTurn stX)
                 (players stX)) nxt
    ∧ advanceTurn (cleanupAfterAction stX)
      = set_currentPlayerTurn (Some (p_id nxt)) stX.
Proof.
  intros Hwf Hs Hact. rewrite cleanupAfterAction_wf by exact Hwf.
  rewrite checkVictory_many by exact Hact. by apply advanceTurn_next.
Qed.

Lemma action_end_won stX w :
  wellFormed stX → gameStatus stX = InProgress → activePlayers stX = [w] →
  advanceTurn (cleanupAfterAction stX)
  = set_winner (Some (p_pseudo w)) (Some (p_id w))
      (set_gameStatus Finished stX).
Proof.
  intros Hwf Hs Hact. rewrite cleanupAfterAction_wf by exact Hwf.
  rewrite (checkVictory_single stX w Hs Hact).
  rewrite advanceTurn_not_in_progress by (simpl; discriminate).
  by destruct stX.
Qed.

Lemma active_nonempty st p :
  p ∈ players st → p_status p = Active → activePlayers st ≠ [].
Proof.
  intros Hp Ha Hnil.
  assert (Hin : p ∈ activePlayers st) by (by apply list_elem_of_filter).
  rewrite Hnil in Hin. by apply elem_of_nil in Hin.
Qed.

(** After an accepted action that leaves a player Active, either the game
    goes on, or the last Active player has won. *)
Lemma census_action_end stX :
  wellFormed stX → gameStatus stX = InProgress →
  winner stX = None → winnerId stX = None → activePlayers stX ≠ [] →
  census (advanceTurn (cleanupAfterAction stX)).
Proof.
  intros Hwf Hs Hw Hwid Hne.
  destruct (activePlayers stX) as [|w [|w' rest]] eqn:Hact; [done| |].
  - rewrite (action_end_won stX w Hwf Hs Hact). unfold census. simpl.
    exists w. split; [by split|].
    intros p Hp Ha.
    assert (Hin : p ∈ activePlayers stX) by (by apply list_elem_of_filter).
    rewrite Hact in Hin. by apply list_elem_of_singleton in Hin.
  - destruct (action_end_next stX Hwf Hs) as (nxt & _ & ->).
    { rewrite Hact. simpl. lia. }
    unfold census. simpl. rewrite Hs.
    split; [|by split].
    change (activePlayers (set_currentPlayerTurn (Some (p_id nxt)) stX))
      with (activePlayers stX).
    rewrite Hact. simpl. lia.
Qed.
End ActionEnd.

Section BoardSteps.
Implicit Types (st stX : State Z) (p q w : Player Z) (o : Obstacle Z)
  (c tgt : Position Z).

Lemma board_ext st st' :
  players st' = players st → obstacles st' = obstacles st →
  gridSize st' = gridSize st → board st → board st'.
Proof.
  intros Hp Ho Hg [Hwf Hv Hoi Hex Hl]. constructor.
  - by eapply wellFormed_ext.
  - intros p. rewrite Hp. apply Hv.
  - eapply obstaclesIntact_subset; [exact Hoi|exact Hg|]. by rewrite Ho.
  - unfold exclusive. rewrite Hp, Ho. exact Hex.
  - intros p. rewrite Hp, (owned_ext st st') by exact Ho. apply Hl.
Qed.

(** The mover steps onto a free cell of the grid. *)
Lemma board_move st i p tgt :
  board st → players st !! i = Some p → p_status p = Active →
  inBounds st tgt → ¬ occupied st tgt →
  board (set_players (<[i := set_position (Some tgt) p]> (players st)) st).
Proof.
  intros [Hwf Hv Hoi Hex Hl] Hi Ha Hin Hfree.
  pose proof (list_elem_of_lookup_2 _ _ _ Hi) as Hp.
  constructor.
  - apply (wellFormed_alter st i p (set_position (Some tgt)));
      [exact Hwf|exact Hi|reflexivity|].
    intros _. simpl. split; [|by eexists].
    by destruct (wf_active st Hwf p Hp Ha).
  - eapply vitals_update; [exact Hv|reflexivity|].
    by apply vital_move; [apply Hv|].
  - by eapply obstaclesIntact_subset.
  - eapply exclusive_update; [exact Hex|exact Hi|reflexivity|reflexivity|].
    intros _. right. by exists tgt.
  - eapply stockLedger_update;
      [exact Hl|exact Hi|reflexivity|reflexivity|reflexivity|simpl; lia].
Qed.

(** The acting player puts one of its obstacles on a free cell of the
    grid. *)
Lemma board_place st i p tgt uuid :
  board st → players st !! i = Some p → p_status p = Active →
  inBounds st tgt → ¬ occupied st tgt → 0 < p_obstaclesRestants p →
  board (set_players
           (<[i := set_obstaclesRestants (p_obstaclesRestants p - 1) p]>
              (players st))
           (set_obstacles
              (obstacles st ++ [mkObstacle uuid tgt OBSTACLE_HP (p_id p)])
              st)).
Proof.
  intros [Hwf Hv Hoi Hex Hl] Hi Ha Hin Hfree Hstock.
  pose proof (list_elem_of_lookup_2 _ _ _ Hi) as Hp.
  set (new := mkObstacle uuid tgt OBSTACLE_HP (p_id p)).
  set (st1 := set_obstacles (obstacles st ++ [new]) st).
  assert (Hwf1 : wellFormed st1).
  { destruct Hwf as [Hids Hact Hobs]. constructor; simpl; [done|done|].
    intros o Ho. apply elem_of_app in Ho as [Ho|Ho]; [by apply Hobs|].
    apply list_elem_of_singleton in Ho as ->. simpl. unfold OBSTACLE_HP. lia. }
  assert (Hex1 : exclusive st1).
  { by apply (exclusive_add st st1 new). }
  constructor.
  - apply (wellFormed_alter st1 i p
             (set_obstaclesRestants (p_obstaclesRestants p - 1)));
      [exact Hwf1|exact Hi|reflexivity|].
    intros _. simpl. apply (wf_active st Hwf p Hp Ha).
  - apply (vitals_update st _ i
             (set_obstaclesRestants (p_obstaclesRestants p - 1) p));
      [exact Hv|reflexivity|].
    by apply vital_stock; [apply Hv|].
  - by apply (obstaclesIntact_add st _ new).
  - apply (exclusive_update st1 _ i p
             (set_obstaclesRestants (p_obstaclesRestants p - 1) p));
      [exact Hex1|exact Hi|reflexivity|reflexivity|].
    intros _. by left.
  - by apply (stockLedger_place st _ i p uuid tgt);
      [|apply (wf_ids st Hwf)|..].
Qed.

(** An attack strikes an Active player. *)
Lemma board_struck st k p :
  board st → players st !! k = Some p → p_status p = Active →
  board (set_players (<[k := struck p]> (players st)) st).
Proof.
  intros [Hwf Hv Hoi Hex Hl] Hk Ha.
  pose proof (list_elem_of_lookup_2 _ _ _ Hk) as Hp.
  destruct (wf_active st Hwf p Hp Ha) as [Hpdv Hposition].
  assert (Hid : p_id (struck p) = p_id p).
  { unfold struck. by case_decide. }
  assert (Hstock : p_obstaclesRestants (struck p) = p_obstaclesRestants p).
  { unfold struck. by case_decide. }
  assert (Hlive : p_status (struck p) = Active →
                  0 < p_pdv (struck p)
                  ∧ p_position (struck p) = p_position p).
  { unfold struck. case_decide; simpl; [discriminate|]. intros _.
    simpl in *. split; [lia|reflexivity]. }
  constructor.
  - apply (wellFormed_alter st k p struck); [exact Hwf|exact Hk|exact Hid|].
    intros Hs. destruct (Hlive Hs) as [Hpos ->]. by split.
  - eapply vitals_update; [exact Hv|reflexivity|].
    by apply vital_struck; [apply Hv|..].
  - by eapply obstaclesIntact_subset.
  - eapply exclusive_update; [exact Hex|exact Hk|reflexivity|reflexivity|].
    intros Hs. left. split; [exact Ha|]. by destruct (Hlive Hs).
  - eapply stockLedger_update;
      [exact Hl|exact Hk|reflexivity|reflexivity|exact Hid|lia].
Qed.

(** Obstacles leave the grid. *)
Lemma board_filter st (P : Obstacle Z → Prop) `{!∀ o, Decision (P o)} :
  board st → board (set_obstacles (filter P (obstacles st)) st).
Proof.
  intros [Hwf Hv Hoi Hex Hl]. constructor.
  - destruct Hwf as [Hids Hact Hobs]. constructor; simpl; [done|done|].
    intros o Ho. apply list_elem_of_filter in Ho as [_ Ho]. by apply Hobs.
  - exact Hv.
  - eapply obstaclesIntact_subset; [exact Hoi|reflexivity|].
    intros o Ho. simpl in Ho. by apply list_elem_of_filter in Ho as [_ Ho].
  - by eapply exclusive_filter.
  - by eapply stockLedger_filter.
Qed.

(** A player leaves the list. *)
Lemma board_delete st i :
  board st → board (set_players (delete i (players st)) st).
Proof.
  intros [Hwf Hv Hoi Hex Hl]. constructor.
  - by apply wellFormed_delete.
  - eapply vitals_subset; [exact Hv|]. intros p Hp. simpl in Hp.
    by eapply list_elem_of_delete_inv.
  - by eapply obstaclesIntact_subset.
  - by eapply exclusive_delete.
  - intros p Hp. simpl in Hp. apply list_elem_of_delete_inv in Hp.
    by apply Hl.
Qed.

Lemma corners_distinct st (a b : nat) c :
  gridSize st = 9 → a ≠ b →
  getStartingPositions st !! a = Some c →
  getStartingPositions st !! b ≠ Some c.
Proof.
  intros Hg Hab. unfold getStartingPositions. rewrite Hg. simpl.
  destruct a as [|[|[|[|a]]]], b as [|[|[|[|b]]]]; simpl;
    try done; intros [= <-]; discriminate.
Qed.

(** The players seated in order on the starting positions of an empty
    grid. *)
Lemma board_seating st :
  NoDup (p_id <$> players st) → gridSize st = 9 →
  (length (players st) ≤ MAX_PLAYERS)%nat → obstacles st = [] →
  (∀ k p, players st !! k = Some p → seatedAt st k p) →
  board st.
Proof.
  intros Hnd Hg Hlen Hobs Hseat.
  assert (Hseat' : ∀ p, p ∈ players st → ∃ k, (k < MAX_PLAYERS)%nat
                     ∧ players st !! k = Some p ∧ seatedAt st k p).
  { intros p Hp. apply list_elem_of_lookup in Hp as [k Hk]. exists k.
    split; [apply lookup_lt_Some in Hk; lia|]. split; [exact Hk|].
    by apply Hseat. }
  constructor.
  - constructor; [exact Hnd| |].
    + intros p Hp _. destruct (Hseat' p Hp) as (k & Hk & _ & _ & -> & _ & ->).
      split; [unfold PLAYER_HP; lia|]. by apply corner_inBounds.
    + intros o. rewrite Hobs. intros Ho. by apply elem_of_nil in Ho.
  - intros p Hp. destruct (Hseat' p Hp) as (k & _ & _ & Ha & Hpdv & Hst & _).
    unfold vital. rewrite Hpdv, Hst, Ha.
    unfold PLAYER_HP, ATTACK_DAMAGE, OBSTACLE_STOCK.
    split; [lia|]. split; [by exists 5|].
    split; [split; [discriminate|lia]|]. split; [discriminate|lia].
  - intros o. rewrite Hobs. intros Ho. by apply elem_of_nil in Ho.
  - split; [|split].
    + intros a b pa pb Ha Hb Hab _ _.
      destruct (Hseat a pa Ha) as (_ & _ & _ & Hpa).
      destruct (Hseat b pb Hb) as (_ & _ & _ & Hpb).
      rewrite Hpa, Hpb.
      destruct (corner_inBounds st a Hg) as (ca & Hca & _).
      { apply lookup_lt_Some in Ha. lia. }
      rewrite Hca. apply not_eq_sym. by eapply corners_distinct.
    + rewrite Hobs. apply NoDup_nil_2.
    + intros p o _. rewrite Hobs. intros Ho. by apply elem_of_nil in Ho.
  - intros p Hp. destruct (Hseat' p Hp) as (k & _ & _ & _ & _ & -> & _).
    unfold owned. rewrite Hobs. simpl. unfold OBSTACLE_STOCK. lia.
Qed.
End BoardSteps.

(** ** The attack, spelled out *)

Section AttackEffect.
Implicit Types (st : State Z) (p player : Player Z) (o : Obstacle Z).

Lemma applyAttack_player st i player k p :
  wellFormed st → players st !! i = Some player → p_status player = Active →
  players st !! k = Some p → p_status p = Active →
  applyAttack i (HitPlayer k p) st
  = set_players (<[k := struck p]> (players st)) st.
Proof.
  intros Hwf Hi Ha Hk Hpa.
  rewrite (applyAttack_caster st i player _ Hwf Hi Ha). cbv zeta.
  set (hurt := λ q : Player Z, set_pdv (p_pdv q - ATTACK_DAMAGE) q).
  set (st3 := set_players (alter hurt k (players st)) st).
  assert (Hk3 : players st3 !! k = Some (hurt p)).
  { simpl. by rewrite list_lookup_alter_eq, Hk. }
  assert (Hnd3 : NoDup (p_id <$> players st3)).
  { simpl. rewrite alter_ids by reflexivity. apply (wf_ids st Hwf). }
  rewrite Hk3. unfold struck. fold (hurt p).
  destruct (decide (p_pdv (hurt p) ≤ 0)) as [Hdead|Hlive].
  - unfold markPlayerDefeated.
    rewrite (list_find_own_id (players st3) k (hurt p) Hnd3 Hk3).
    rewrite decide_False by (simpl; congruence).
    unfold st3, set_players. simpl. f_equal.
    rewrite (alter_insert _ _ k (hurt p)).
    + rewrite (alter_insert hurt _ k p Hk). apply list_insert_insert_eq.
    + by rewrite list_lookup_alter_eq, Hk.
  - unfold st3. by rewrite (alter_insert hurt _ k p Hk).
Qed.

Lemma applyAttack_obstacle st i player j o :
  wellFormed st → players st !! i = Some player → p_status player = Active →
  obstacles st !! j = Some o → o_pdv o = OBSTACLE_HP →
  applyAttack i (HitObstacle j o) st
  = set_obstacles (filter (λ o', o_id o' ≠ o_id o) (obstacles st)) st.
Proof.
  intros Hwf Hi Ha Hj Hpdv.
  rewrite (applyAttack_caster st i player _ Hwf Hi Ha). cbv zeta.
  set (hurt := λ q : Obstacle Z, set_o_pdv (o_pdv q - ATTACK_DAMAGE) q).
  set (st3 := set_obstacles (alter hurt j (obstacles st)) st).
  assert (Hj3 : obstacles st3 !! j = Some (hurt o)).
  { simpl. by rewrite list_lookup_alter_eq, Hj. }
  rewrite Hj3.
  rewrite decide_True
    by (simpl; rewrite Hpdv; unfold OBSTACLE_HP, ATTACK_DAMAGE; lia).
  unfold st3, set_obstacles. simpl. f_equal.
  apply (filter_alter_out _ hurt (obstacles st) j o Hj); simpl; tauto.
Qed.
End AttackEffect.

(** * The invariant of the reachable stores *)

Section InvariantSteps.
Implicit Types (st stX : State Z) (p q w player : Player Z) (o : Obstacle Z)
  (c tgt : Position Z).

Lemma gameInvariant_action_end stX st' :
  board stX → gridSize stX = 9 → (length (players stX) ≤ MAX_PLAYERS)%nat →
  gameStatus stX = InProgress → winner stX = None → winnerId stX = None →
  (∃ p, p ∈ players stX ∧ p_status p = Active) →
  turnInvariant st' →
  st' = advanceTurn (cleanupAfterAction stX) →
  gameInvariant st'.
Proof.
  intros Hb Hg Hlen Hs Hw Hwid (p & Hp & Ha) Hturn ->.
  pose proof (bd_wellFormed stX Hb) as Hwf.
  destruct (action_end_frame stX Hwf) as (Hpl & Hob & Hgr).
  constructor.
  - by apply (board_ext stX).
  - congruence.
  - by rewrite Hpl.
  - exact Hturn.
  - apply census_action_end; try done. by eapply active_nonempty.
Qed.

(** An action request keeps the invariant. *)
Lemma gameInvariant_action fuel st meta (payload : ActionPayload Z) uuid
    reply st' :
  gameInvariant st →
  handleRequestAction fuel st meta payload uuid = Some (reply, st') →
  gameInvariant st'.
Proof.
  intros Hinv H.
  assert (Hturn' : turnInvariant st').
  { eapply turnInvariant_step; [by eapply step_action|].
    apply (gi_turn st Hinv). }
  pose proof Hinv as [Hb Hg Hlen Hturn Hc].
  pose proof (bd_wellFormed st Hb) as Hwf.
  unfold handleRequestAction in H.
  destruct meta as [user|user playerId]; [by injection H as _ <-|].
  destruct (decide (gameStatus st ≠ InProgress)) as [|Hs];
    [by injection H as _ <-|].
  destruct (decide (currentPlayerTurn st ≠ Some playerId));
    [by injection H as _ <-|].
  apply dec_stable in Hs. unfold census in Hc. rewrite Hs in Hc.
  destruct Hc as (Hact & Hw & Hwid).
  destruct (actionType payload).
  - destruct (executeMove _ _ _ _) as [st''| |] eqn:E;
      [|by injection H as _ <-|discriminate].
    injection H as _ <-.
    apply executeMove_inv in E
      as (i & player & position & tgt & Hacting & Hin & Hfree & ->);
      [|exact Hwf].
    destruct (actingPlayer_lookup _ _ _ _ _ Hacting) as [Hi _].
    destruct Hacting as (_ & Ha & _).
    eapply gameInvariant_action_end;
      [by apply board_move|done|simpl; by rewrite length_insert
      |done|done|done| |exact Hturn'|reflexivity].
    exists (set_position (Some tgt) player). split; [|done]. simpl.
    apply list_elem_of_insert. by eapply lookup_lt_Some.
  - destruct (executeAttack _ _ _ _) as [st''| |] eqn:E;
      [|by injection H as _ <-|discriminate].
    injection H as _ <-.
    apply executeAttack_inv in E
      as (i & player & position & tgt & hit & Hacting & _ & _ & Hvalid
          & Hother & ->);
      [|exact Hwf].
    destruct (actingPlayer_lookup _ _ _ _ _ Hacting) as [Hi _].
    destruct Hacting as (_ & Ha & _).
    destruct hit as [k p|j o]; simpl in Hvalid.
    + destruct Hvalid as [Hk Hpa].
      rewrite (applyAttack_player st i player k p Hwf Hi Ha Hk Hpa)
        in Hturn' |- *.
      eapply gameInvariant_action_end;
        [exact (board_struck st k p Hb Hk Hpa)|done
        |simpl; by rewrite length_insert
        |done|done|done| |exact Hturn'|reflexivity].
      exists player. split; [|done]. simpl.
      eapply list_elem_of_lookup_2.
      rewrite list_lookup_insert_ne by done. exact Hi.
    + destruct (bd_obstacles st Hb o (list_elem_of_lookup_2 _ _ _ Hvalid))
        as [Hpdv _].
      rewrite (applyAttack_obstacle st i player j o Hwf Hi Ha Hvalid Hpdv)
        in Hturn' |- *.
      eapply gameInvariant_action_end;
        [exact (board_filter st (λ o', o_id o' ≠ o_id o) Hb)
        |done|done|done|done|done| |exact Hturn'|reflexivity].
      exists player. split; [|done]. simpl. by eapply list_elem_of_lookup_2.
  - destruct (executePlaceObstacle _ _ _ _) as [st''| |] eqn:E;
      [|by injection H as _ <-|discriminate].
    injection H as _ <-.
    apply executePlaceObstacle_inv in E
      as (i & player & position & tgt & Hacting & Hin & Hfree & Hstock & ->);
      [|exact Hwf].
    destruct (actingPlayer_lookup _ _ _ _ _ Hacting) as [Hi _].
    destruct Hacting as (_ & Ha & _).
    eapply gameInvariant_action_end;
      [by apply board_place|done|simpl; by rewrite length_insert
      |done|done|done| |exact Hturn'|reflexivity].
    exists (set_obstaclesRestants (p_obstaclesRestants player - 1) player).
    split; [|done]. simpl.
    apply list_elem_of_insert. by eapply lookup_lt_Some.
  - by injection H as _ <-.
Qed.

(** The empty lobby. *)
Lemma gameInvariant_initial : gameInvariant (createInitialState 9).
Proof.
  constructor.
  - apply board_seating; simpl; [apply NoDup_nil_2|done|lia|done|].
    intros k p Hk. by rewrite lookup_nil in Hk.
  - reflexivity.
  - simpl. lia.
  - apply turnInvariant_initial.
  - unfold census, pristineLobby. simpl. do 4 (split; [reflexivity|]).
    intros k p Hk. by rewrite lookup_nil in Hk.
Qed.

Lemma gameInvariant_reset st :
  gameInvariant st → gameInvariant (handleResetGame st).2.
Proof.
  intros Hinv. unfold handleResetGame, resetGame.
  case_decide; [done|]. simpl.
  rewrite decide_False by (rewrite (gi_gridSize st Hinv); lia).
  rewrite (gi_gridSize st Hinv). apply gameInvariant_initial.
Qed.
End InvariantSteps.

(** * Joining and leaving *)

Section AddPlayer.
Context {N : Type} `{!JsNumber N}.
Implicit Types (st : State N) (p player : Player N).

(** The grid size requested by a join is the size the grid already has, or
    is not applied. *)
Lemma gridOverride_cases st (size : option Z) :
  let st1 := match size with
             | Some size0 => if decide (size0 = 0) then st
                             else setGridSizeIfLobby size0 st
             | None => st
             end in
  st1 = st ∨ st1 = set_gridSize 9 st.
Proof.
  cbv zeta. destruct size as [size|]; [|by left].
  case_decide; [by left|]. unfold setGridSizeIfLobby.
  case_decide as Hc; [by left|]. right.
  assert (Hin : size ∈ ALLOWED_GRID_SIZES).
  { destruct (decide (size ∈ ALLOWED_GRID_SIZES)); [done|]. tauto. }
  apply list_elem_of_singleton in Hin. by subst.
Qed.

Lemma addPlayer_inv st pseudo color size userId uuid player st' :
  addPlayer st pseudo color size userId uuid = Return (player, st') →
  ∃ name c st1,
    pseudo = VString name ∧ trim name ≠ []
    ∧ normalizeColor color = Some c
    ∧ (length (players st) < MAX_PLAYERS)%nat
    ∧ (st1 = st ∨ st1 = set_gridSize 9 st)
    ∧ player = newPlayer st1 (length (players st)) uuid userId name c
    ∧ st' = seat st1 player.
Proof.
  unfold addPlayer. intros H.
  bind_step H u1 E1. apply throwIf_Return in E1.
  destruct pseudo as [name| |]; try discriminate.
  bind_step H u2 E2. apply throwIf_Return in E2.
  destruct (normalizeColor color) as [c|]; [|discriminate].
  pose proof (gridOverride_cases st size) as H1. cbv zeta in H1.
  set (st1 := match size with
              | Some size0 => if decide (size0 = 0) then st
                              else setGridSizeIfLobby size0 st
              | None => st
              end) in *.
  assert (Hp1 : players st1 = players st) by (by destruct H1 as [->| ->]).
  injection H as <- <-. exists name, c, st1.
  split; [reflexivity|].
  split; [intros Ht; apply E2; right; by rewrite Ht|].
  split; [reflexivity|]. split; [lia|]. split; [exact H1|].
  unfold newPlayer, seat, storedUserId. rewrite Hp1. by split.
Qed.
End AddPlayer.

Section LeaveLemmas.
Context {N : Type} `{!JsNumber N}.
Implicit Types (st : State N) (p : Player N) (l : list (Player N)).

(** Once its first bearer is deleted, a unique id is no longer found. *)
Lemma list_find_delete_own l playerId i p :
  NoDup (p_id <$> l) →
  list_find (λ q, p_id q = playerId) l = Some (i, p) →
  list_find (λ q, p_id q = playerId) (delete i l) = None.
Proof.
  intros Hnd Hf. apply list_find_Some in Hf as (Hi & Hid & _).
  apply list_find_None, Forall_forall. intros q Hq Hqid.
  apply list_elem_of_lookup in Hq as [j Hj].
  apply lookup_delete_Some in Hj as (j' & Hne & Hj' & _).
  apply Hne. eapply NoDup_lookup; [exact Hnd| |].
  - rewrite list_lookup_fmap, Hj'. reflexivity.
  - rewrite list_lookup_fmap, Hi. simpl. congruence.
Qed.

Lemma length_filter_delete {A} (P : A → Prop) `{!∀ x, Decision (P x)}
    (l : list A) i x :
  l !! i = Some x →
  length (filter P l)
  = (length (filter P (delete i l)) + (if decide (P x) then 1 else 0))%nat.
Proof.
  intros Hi. rewrite delete_take_drop.
  rewrite <- (take_drop_middle l i x Hi) at 1.
  rewrite !filter_app, filter_cons, !length_app.
  destruct (decide (P x)); simpl; lia.
Qed.
End LeaveLemmas.

Section InvariantJoinLeave.
Implicit Types (st : State Z) (p q w player : Player Z) (o : Obstacle Z).

Lemma set_gridSize_same {N} (st : State N) :
  set_gridSize (gridSize st) st = st.
Proof. by destruct st. Qed.

Lemma gameInvariant_join st meta payload uuid :
  uuid ∉ p_id <$> players st →
  gameInvariant st → gameInvariant (handleJoin st meta payload uuid).2.
Proof.
  intros Hfresh Hinv.
  assert (Hturn' : turnInvariant (handleJoin st meta payload uuid).2).
  { eapply turnInvariant_step; [apply step_join|apply (gi_turn st Hinv)]. }
  revert Hturn'. unfold handleJoin.
  destruct meta as [user|user pid]; [|done].
  case_decide as Hfull; [done|].
  destruct (addPlayer _ _ _ _ _ _) as [[player st']| |] eqn:Hadd; try done.
  simpl. intros Hturn'.
  destruct Hinv as [Hb Hg Hlen Hturn Hc].
  assert (Hs : gameStatus st = Lobby).
  { destruct (decide (gameStatus st = Lobby)); [done|]. tauto. }
  unfold census in Hc. rewrite Hs in Hc.
  destruct Hc as (Hobs & Hnoturn & Hw & Hwid & Hseat).
  apply addPlayer_inv in Hadd
    as (name & c & st1 & _ & _ & _ & Hroom & Hst1 & Hplayer & ->).
  assert (Hst1' : st1 = st).
  { destruct Hst1 as [->| ->]; [done|]. rewrite <- Hg.
    apply set_gridSize_same. }
  subst st1.
  set (stL := set_players (players st ++ [player]) st).
  assert (HseatL : ∀ k p, players stL !! k = Some p → seatedAt stL k p).
  { intros k p Hk. simpl in Hk.
    apply lookup_app_Some in Hk as [Hk|[Hge Hk]]; [by apply Hseat|].
    apply list_lookup_singleton_Some in Hk as [Hk0 <-].
    assert (k = length (players st)) as -> by lia.
    rewrite Hplayer. by repeat split. }
  assert (HbL : board stL).
  { apply board_seating; [|exact Hg| |exact Hobs|exact HseatL].
    - simpl. rewrite fmap_app. apply NoDup_app.
      split; [apply (wf_ids st (bd_wellFormed st Hb))|].
      split; [|apply NoDup_singleton].
      intros x Hx Hx'. apply list_elem_of_singleton in Hx'. simpl in Hx'.
      subst x. rewrite Hplayer in Hx. by apply Hfresh.
    - simpl. rewrite length_app. simpl. lia. }
  unfold seat in *. fold stL in Hturn' |- *.
  destruct (decide (length (players stL) = MAX_PLAYERS)) as [Hfour|Hless].
  - constructor.
    + by apply (board_ext stL).
    + exact Hg.
    + simpl. rewrite length_app. simpl. lia.
    + exact Hturn'.
    + unfold census. simpl. split; [|by split].
      unfold activePlayers. simpl. simpl in Hfour.
      rewrite filter_all; [rewrite Hfour; unfold MAX_PLAYERS; lia|].
      apply Forall_forall. intros p Hp.
      apply list_elem_of_lookup in Hp as [k Hk].
      by destruct (HseatL k p Hk).
  - constructor.
    + exact HbL.
    + exact Hg.
    + simpl. rewrite length_app. simpl. lia.
    + exact Hturn'.
    + unfold census, pristineLobby. simpl. rewrite Hs.
      split; [exact Hobs|]. split; [exact Hnoturn|]. split; [exact Hw|].
      split; [exact Hwid|exact HseatL].
Qed.

Lemma gameInvariant_leave st meta :
  gameInvariant st → gameInvariant (handleDisconnect st meta).
Proof.
  intros Hinv.
  assert (Hturn' : turnInvariant (handleDisconnect st meta)).
  { eapply turnInvariant_step; [apply step_leave|apply (gi_turn st Hinv)]. }
  pose proof Hinv as [Hb Hg Hlen Hturn Hc].
  pose proof (bd_wellFormed st Hb) as Hwf.
  assert (Hstore' : storeInvariant (handleDisconnect st meta)).
  { by apply storeInvariant_leave. }
  revert Hturn' Hstore'. unfold handleDisconnect.
  destruct meta as [user|user pid]; [done|]. unfold removePlayer.
  destruct (list_find _ _) as [[index leaver]|] eqn:Hf; [|done].
  pose proof (list_find_delete_own _ _ _ _ (wf_ids st Hwf) Hf) as Hgone.
  apply list_find_Some in Hf as (Hindex & Hid & _).
  set (st1 := set_players (delete index (players st)) st).
  pose proof (board_delete st index Hb) as Hb1. fold st1 in Hb1.
  assert (Hcount :
            (p_status leaver = Active →
             length (activePlayers st) = S (length (activePlayers st1)))
            ∧ (p_status leaver ≠ Active →
               length (activePlayers st) = length (activePlayers st1))).
  { unfold activePlayers. simpl.
    rewrite (length_filter_delete (λ p, p_status p = Active)
               (players st) index leaver Hindex).
    destruct (decide (p_status leaver = Active)); split; intros; try done;
      lia. }
  destruct Hcount as [HcountA HcountD].
  case_decide as Hempty.
  { intros _ _. simpl. rewrite Hg. apply gameInvariant_initial. }
  case_decide as Hact.
  { destruct Hact as [Hla Hs]. simpl in Hs.
    rewrite markPlayerDefeated_noop.
    2:{ intros j q Hq. simpl in Hq. rewrite Hid, Hgone in Hq.
        discriminate. }
    unfold census in Hc. rewrite Hs in Hc. destruct Hc as (Htwo & Hw & Hwid).
    specialize (HcountA Hla).
    destruct (activePlayers st1) as [|w [|w' rest]] eqn:Hact1.
    - simpl in HcountA. lia.
    - assert (Hadv : advanceTurn st1 = checkVictory st1).
      { unfold advanceTurn. rewrite decide_False by (simpl; congruence).
        rewrite decide_True; [done|]. rewrite Hact1. simpl. lia. }
      rewrite Hadv.
      rewrite (checkVictory_single st1 w Hs Hact1).
      rewrite checkVictory_not_in_progress by (simpl; discriminate).
      intros Hturn' (Hwf' & Hg' & Hlen').
      constructor.
      + by apply (board_ext st1).
      + exact Hg'.
      + exact Hlen'.
      + exact Hturn'.
      + unfold census. simpl. exists w. split; [by split|].
        intros p Hp Hpa.
        assert (Hin : p ∈ activePlayers st1)
          by (by apply list_elem_of_filter).
        rewrite Hact1 in Hin. by apply list_elem_of_singleton in Hin.
    - destruct (advanceTurn_next st1 Hs) as (nxt & _ & ->).
      { rewrite Hact1. simpl. lia. }
      rewrite checkVictory_many.
      2:{ change (activePlayers (set_currentPlayerTurn _ st1))
            with (activePlayers st1). rewrite Hact1. simpl. lia. }
      intros Hturn' (Hwf' & Hg' & Hlen').
      constructor.
      + by apply (board_ext st1).
      + exact Hg'.
      + exact Hlen'.
      + exact Hturn'.
      + unfold census. simpl. rewrite Hs. split; [|by split].
        change (activePlayers (set_currentPlayerTurn _ st1))
          with (activePlayers st1). rewrite Hact1. simpl. lia. }
  case_decide as Hlobby.
  { simpl in Hlobby. unfold census in Hc. rewrite Hlobby in Hc.
    destruct Hc as (Hobs & Hnoturn & Hw & Hwid & Hseat).
    intros Hturn' (Hwf' & Hg' & Hlen').
    set (stR := set_players _ st1) in *.
    assert (HseatR : ∀ k p, players stR !! k = Some p → seatedAt stR k p).
    { intros k p Hk. simpl in Hk. rewrite list_lookup_imap in Hk.
      destruct (delete index (players st) !! k) as [r|] eqn:Hr; [|done].
      simpl in Hk. injection Hk as <-.
      apply lookup_delete_Some in Hr as (k' & _ & Hk' & _).
      destruct (Hseat k' r Hk') as (Hra & Hrp & Hrs & _).
      by repeat split. }
    constructor.
    - apply board_seating;
        [apply (wf_ids stR Hwf')|exact Hg'|exact Hlen'|exact Hobs|exact HseatR].
    - exact Hg'.
    - exact Hlen'.
    - exact Hturn'.
    - unfold census, pristineLobby. simpl. rewrite Hlobby.
      split; [exact Hobs|]. split; [exact Hnoturn|]. split; [exact Hw|].
      split; [exact Hwid|exact HseatR]. }
  intros Hturn' (Hwf' & Hg' & Hlen').
  constructor; [exact Hb1|exact Hg'|exact Hlen'|exact Hturn'|].
  unfold census in *. simpl in *.
  destruct (gameStatus st) eqn:Hs; [done| |].
  - destruct Hc as (Htwo & Hw & Hwid). split; [|by split].
    rewrite <- HcountD; [exact Htwo|]. intros Hla. apply Hact. by split.
  - destruct Hc as (w & Hwon & Hall). exists w. split; [exact Hwon|].
    intros p Hp. apply Hall. by eapply list_elem_of_delete_inv.
Qed.

Lemma gameInvariant_step st st' :
  FreshStep st st' → gameInvariant st → gameInvariant st'.
Proof.
  intros Hstep Hinv. destruct Hstep as [st meta payload uuid Hfresh
    | fuel st meta payload uuid reply st' Hact | st | st meta].
  - by apply gameInvariant_join.
  - by eapply gameInvariant_action.
  - by apply gameInvariant_reset.
  - by apply gameInvariant_leave.
Qed.

(** Every store reached with fresh player ids satisfies the invariant. *)
Lemma reachableFresh_gameInvariant st : reachableFresh st → gameInvariant st.
Proof.
  revert st. apply (rtc_ind_r (R:=FreshStep) (λ s, gameInvariant s)).
  - apply gameInvariant_initial.
  - intros st1 st2 _ Hstep IH. by eapply gameInvariant_step.
Qed.
End InvariantJoinLeave.

(** * The accepted actions in a game *)

Section TurnLemmas.
Context {N : Type} `{!JsNumber N}.
Implicit Types (st : State N) (p : Player N) (l : list (Player N)).



(** An id that no player bears is not found. *)
Lemma findIndex_absent l playerId :
  playerId ∉ p_id <$> l →
  findIndex (λ player, Some (p_id player) = Some playerId) l = -1.
Proof.
  intros Hout. unfold findIndex.
  destruct (list_find _ l) as [[j q]|] eqn:Hf; [|reflexivity].
  apply list_find_Some in Hf as (Hj & Hq & _). injection Hq as Hq.
  exfalso. apply Hout. rewrite <- Hq.
  apply list_elem_of_fmap_2. by eapply list_elem_of_lookup_2.
Qed.

End TurnLemmas.

Section ActionEndTurn.
Implicit Types (st stX : State Z) (p actor : Player Z).


End ActionEndTurn.

(** * Leaving, joining, names and colors *)

Section RemoveLemmas.
Context {N : Type} `{!JsNumber N}.
Implicit Types (st : State N) (p : Player N).

Lemma markPlayerDefeated_ids playerId st :
  p_id <$> players (markPlayerDefeated playerId st) = p_id <$> players st.
Proof.
  unfold markPlayerDefeated.
  destruct (list_find _ _) as [[i p]|]; [|done].
  case_decide; [done|]. simpl. by rewrite alter_ids.
Qed.

(** A player who leaves others behind is taken out of the list; the grid
    keeps its size. *)
Lemma removePlayer_found st playerId i p :
  list_find (λ q, p_id q = playerId) (players st) = Some (i, p) →
  delete i (players st) ≠ [] →
  p_id <$> players (removePlayer playerId st) = p_id <$> delete i (players st)
  ∧ gridSize (removePlayer playerId st) = gridSize st.
Proof.
  unfold removePlayer. intros -> Hne.
  rewrite decide_False
    by (simpl; destruct (delete i (players st)); [done|discriminate]).
  repeat case_decide.
  - by rewrite checkVictory_players, advanceTurn_players,
      markPlayerDefeated_ids, checkVictory_gridSize, advanceTurn_gridSize,
      markPlayerDefeated_gridSize.
  - simpl. split; [|done]. rewrite fmap_imap. apply list_eq. intros j.
    rewrite list_lookup_imap, list_lookup_fmap.
    by destruct (delete i (players st) !! j).
  - done.
Qed.

(** The last player to leave takes the game along. *)
Lemma removePlayer_last st playerId i p :
  list_find (λ q, p_id q = playerId) (players st) = Some (i, p) →
  delete i (players st) = [] →
  removePlayer playerId st = createInitialState (gridSize st).
Proof.
  unfold removePlayer. intros -> Hnil.
  by rewrite decide_True by (simpl; by rewrite Hnil).
Qed.
End RemoveLemmas.

(** ** Characters of a color *)

Section Characters.

Lemma hex_not_space (d : Z) : hexDigit d → isWhiteSpace d = false.
Proof.
  intros Hd. apply isWhiteSpace_false. unfold hexDigit, whiteSpace in *. lia.
Qed.

Lemma upperChar_hex (d : Z) :
  hexDigit d →
  hexDigit (upperChar d) ∧ upperChar (upperChar d) = upperChar d.
Proof.
  unfold hexDigit. intros Hd. unfold upperChar.
  destruct (decide (97 ≤ d ∧ d ≤ 122)) as [Hlow|Hup].
  - rewrite (bool_decide_eq_true_2 _ Hlow).
    rewrite bool_decide_eq_false_2 by lia. lia.
  - rewrite (bool_decide_eq_false_2 _ Hup).
    rewrite (bool_decide_eq_false_2 _ Hup). lia.
Qed.

(** On the digits of a color [toUpperCase] turns [a-f] into [A-F] and
    leaves the rest. *)
Lemma upperChar_upperHex (d : Z) :
  hexDigit d →
  upperChar d = upperHex d ∧ (48 ≤ upperHex d ≤ 57 ∨ 65 ≤ upperHex d ≤ 70).
Proof.
  unfold hexDigit, upperChar, upperHex. intros Hd.
  destruct (decide (97 ≤ d ≤ 102)) as [Hlow|Hup].
  - rewrite bool_decide_eq_true_2 by lia. lia.
  - rewrite bool_decide_eq_false_2 by lia. lia.
Qed.

Lemma trimEnd_id s :
  Forall (λ ch, isWhiteSpace ch = false) s → trimEnd s = s.
Proof.
  induction s as [|c s IH]; simpl; [done|].
  intros H. apply Forall_cons in H as [Hc Hs].
  rewrite (IH Hs). destruct s; [by rewrite Hc|done].
Qed.

Lemma trim_id s :
  Forall (λ ch, isWhiteSpace ch = false) s → trim s = s.
Proof.
  intros H. unfold trim.
  assert (Hstart : trimStart s = s).
  { destruct s as [|c s]; simpl in *; [done|].
    apply Forall_cons in H as [Hc _]. by rewrite Hc. }
  rewrite Hstart. by apply trimEnd_id.
Qed.

Lemma trimEnd_cons c s :
  trimEnd (c :: s)
  = match trimEnd s with
    | [] => if isWhiteSpace c then [] else [c]
    | t => c :: t
    end.
Proof. reflexivity. Qed.

Lemma trimEnd_idem s : trimEnd (trimEnd s) = trimEnd s.
Proof.
  induction s as [|c s IH]; [done|]. rewrite (trimEnd_cons c s).
  destruct (trimEnd s) as [|d t] eqn:Ht.
  - destruct (isWhiteSpace c) eqn:Hc; simpl; [done|]. by rewrite Hc.
  - by rewrite (trimEnd_cons c (d :: t)), IH.
Qed.

Lemma trimEnd_head c s :
  isWhiteSpace c = false → ∃ t, trimEnd (c :: s) = c :: t.
Proof.
  intros Hc. simpl. destruct (trimEnd s) as [|d t].
  - rewrite Hc. by eexists.
  - by eexists.
Qed.

Lemma trim_idem s : trim (trim s) = trim s.
Proof.
  unfold trim. destruct (trimStart s) as [|c t] eqn:Hs; [done|].
  pose proof (trimStart_head s c t Hs) as Hc.
  destruct (trimEnd_head c t Hc) as [t' Ht']. rewrite Ht'.
  simpl trimStart. rewrite Hc. rewrite <- Ht'. apply trimEnd_idem.
Qed.

Lemma strict_upper s :
  isStrictHexColor s →
  isStrictHexColor (toUpperCase s)
  ∧ toUpperCase (toUpperCase s) = toUpperCase s.
Proof.
  intros (d1 & d2 & d3 & d4 & d5 & d6 & -> & Hd).
  inversion Hd as [|? ? H1 Hd1]; subst.
  inversion Hd1 as [|? ? H2 Hd2]; subst.
  inversion Hd2 as [|? ? H3 Hd3]; subst.
  inversion Hd3 as [|? ? H4 Hd4]; subst.
  inversion Hd4 as [|? ? H5 Hd5]; subst.
  inversion Hd5 as [|? ? H6 Hd6]; subst.
  destruct (upperChar_hex d1 H1) as [U1 I1].
  destruct (upperChar_hex d2 H2) as [U2 I2].
  destruct (upperChar_hex d3 H3) as [U3 I3].
  destruct (upperChar_hex d4 H4) as [U4 I4].
  destruct (upperChar_hex d5 H5) as [U5 I5].
  destruct (upperChar_hex d6 H6) as [U6 I6].
  split.
  - exists (upperChar d1), (upperChar d2), (upperChar d3), (upperChar d4),
      (upperChar d5), (upperChar d6).
    split; [reflexivity|].
    repeat (apply Forall_cons_2; [assumption|]). apply Forall_nil_2.
  - unfold toUpperCase. simpl. rewrite I1, I2, I3, I4, I5, I6. reflexivity.
Qed.

(** In upper case a strict color is canonical. *)
Lemma strict_canonical s :
  isStrictHexColor s →
  toUpperCase s = upperHex <$> s ∧ isCanonicalColor (upperHex <$> s).
Proof.
  intros (d1 & d2 & d3 & d4 & d5 & d6 & -> & Hd).
  inversion Hd as [|? ? H1 Hd1]; subst.
  inversion Hd1 as [|? ? H2 Hd2]; subst.
  inversion Hd2 as [|? ? H3 Hd3]; subst.
  inversion Hd3 as [|? ? H4 Hd4]; subst.
  inversion Hd4 as [|? ? H5 Hd5]; subst.
  inversion Hd5 as [|? ? H6 Hd6]; subst.
  destruct (upperChar_upperHex d1 H1) as [U1 C1].
  destruct (upperChar_upperHex d2 H2) as [U2 C2].
  destruct (upperChar_upperHex d3 H3) as [U3 C3].
  destruct (upperChar_upperHex d4 H4) as [U4 C4].
  destruct (upperChar_upperHex d5 H5) as [U5 C5].
  destruct (upperChar_upperHex d6 H6) as [U6 C6].
  split.
  - unfold toUpperCase. simpl. by rewrite U1, U2, U3, U4, U5, U6.
  - exists (upperHex d1), (upperHex d2), (upperHex d3), (upperHex d4),
      (upperHex d5), (upperHex d6).
    split; [reflexivity|].
    repeat (apply Forall_cons_2; [assumption|]). apply Forall_nil_2.
Qed.

Lemma canonical_strict s : isCanonicalColor s → isStrictHexColor s.
Proof.
  intros (d1 & d2 & d3 & d4 & d5 & d6 & -> & Hd).
  exists d1, d2, d3, d4, d5, d6. split; [reflexivity|].
  eapply Forall_impl; [exact Hd|]. intros d. unfold hexDigit. lia.
Qed.

Lemma strict_trim s : isStrictHexColor s → trim s = s.
Proof.
  intros (d1 & d2 & d3 & d4 & d5 & d6 & -> & Hd).
  apply trim_id. constructor; [reflexivity|].
  eapply Forall_impl; [exact Hd|]. apply hex_not_space.
Qed.

(** What [normalizeColor] returns: the input without the white space
    around it, a strict color, in upper case. *)
Lemma normalizeColor_inv color c :
  normalizeColor color = Some c →
  ∃ s, color = VString s ∧ isStrictHexColor (trim s)
       ∧ c = upperHex <$> trim s.
Proof.
  destruct color as [s| |]; simpl; try discriminate.
  destruct (matchesHexColor (trim s)) eqn:Hm; [|discriminate].
  intros [= <-]. apply matchesHexColor_strict in Hm.
  exists s. split; [reflexivity|]. split; [exact Hm|].
  by destruct (strict_canonical _ Hm).
Qed.

(** The color that [normalizeColor] returns is one that it leaves as it
    is. *)
Lemma normalizeColor_fixed color c :
  normalizeColor color = Some c →
  isStrictHexColor c ∧ toUpperCase c = c
  ∧ normalizeColor (VString c) = Some c.
Proof.
  destruct color as [s| |]; simpl; try discriminate.
  destruct (matchesHexColor (trim s)) eqn:Hm; [|discriminate].
  intros [= <-]. apply matchesHexColor_strict in Hm.
  destruct (strict_upper (trim s) Hm) as [Hstrict Hidem].
  split; [exact Hstrict|]. split; [exact Hidem|].
  rewrite (strict_trim _ Hstrict).
  apply matchesHexColor_strict in Hstrict. rewrite Hstrict.
  by rewrite Hidem.
Qed.

Lemma normalizeColor_canonical_form color c :
  normalizeColor color = Some c → isCanonicalColor c.
Proof.
  intros Hc. apply normalizeColor_inv in Hc as (s & _ & Hstrict & ->).
  by destruct (strict_canonical _ Hstrict).
Qed.
End Characters.

(** ** The names and colors never change *)

Section Badges.
Context {N : Type} `{!JsNumber N}.
Implicit Types (st : State N) (p : Player N) (l : list (Player N)).

Lemma sameBadges_refl l : sameBadges l l.
Proof. intros p Hp. by exists p. Qed.

Lemma sameBadges_trans l1 l2 l3 :
  sameBadges l1 l2 → sameBadges l2 l3 → sameBadges l1 l3.
Proof.
  intros H12 H23 p3 Hp3.
  destruct (H23 p3 Hp3) as (p2 & Hp2 & Hi2 & Hn2 & Hc2).
  destruct (H12 p2 Hp2) as (p1 & Hp1 & Hi1 & Hn1 & Hc1).
  exists p1. split; [exact Hp1|]. repeat split; congruence.
Qed.

Lemma sameBadges_alter (f : Player N → Player N) i l :
  (∀ p, p_id (f p) = p_id p
        ∧ p_pseudo (f p) = p_pseudo p ∧ p_couleur (f p) = p_couleur p) →
  sameBadges l (alter f i l).
Proof.
  intros Hf p' Hp'. apply list_elem_of_lookup in Hp' as [j Hj].
  destruct (decide (i = j)) as [<-|Hne].
  - rewrite list_lookup_alter_eq in Hj.
    destruct (l !! i) as [p|] eqn:Hi; [|discriminate].
    injection Hj as <-. exists p.
    split; [by eapply list_elem_of_lookup_2|apply Hf].
  - rewrite list_lookup_alter_ne in Hj by done. exists p'.
    split; [by eapply list_elem_of_lookup_2|done].
Qed.

Lemma sameBadges_sub l l' : (∀ p, p ∈ l' → p ∈ l) → sameBadges l l'.
Proof. intros Hsub p Hp. exists p. split; [by apply Hsub|done]. Qed.

Lemma sameBadges_canonical l l' :
  sameBadges l l' → Forall canonicalBadge l → Forall canonicalBadge l'.
Proof.
  rewrite !Forall_forall. intros Hsame Hl p' Hp'.
  destruct (Hsame p' Hp') as (p & Hp & _ & Hn & Hc).
  unfold canonicalBadge. rewrite Hn, Hc. by apply Hl.
Qed.

Lemma markPlayerDefeated_badges playerId st :
  sameBadges (players st) (players (markPlayerDefeated playerId st)).
Proof.
  unfold markPlayerDefeated.
  destruct (list_find _ _) as [[i p]|]; [|apply sameBadges_refl].
  case_decide; [apply sameBadges_refl|]. simpl.
  by apply sameBadges_alter.
Qed.

Lemma defeat_fold_badges (l : list (Player N)) st :
  sameBadges (players st)
    (players (foldl (λ s player,
                       if decide (p_pdv player ≤ 0)
                       then markPlayerDefeated (p_id player) s else s)
                    st l)).
Proof.
  revert st. induction l as [|q l IH]; intros st; simpl;
    [apply sameBadges_refl|].
  eapply sameBadges_trans; [|apply IH].
  case_decide; [apply markPlayerDefeated_badges|apply sameBadges_refl].
Qed.

Lemma action_end_badges st :
  sameBadges (players st) (players (advanceTurn (cleanupAfterAction st))).
Proof.
  rewrite advanceTurn_players. unfold cleanupAfterAction.
  rewrite checkVictory_players.
  apply (defeat_fold_badges _ (set_obstacles _ st)).
Qed.

Lemma applyAttack_badges i hit st :
  sameBadges (players st) (players (applyAttack i hit st)).
Proof.
  unfold applyAttack.
  set (st1 := set_players _ st).
  assert (H1 : sameBadges (players st) (players st1))
    by (by apply sameBadges_alter).
  set (st2 := match players st1 !! i with
              | Some p => if decide (p_pdv p ≤ 0)
                          then markPlayerDefeated (p_id p) st1 else st1
              | None => st1
              end).
  assert (H2 : sameBadges (players st) (players st2)).
  { eapply sameBadges_trans; [exact H1|]. unfold st2.
    destruct (players st1 !! i); [|apply sameBadges_refl].
    case_decide; [apply markPlayerDefeated_badges|apply sameBadges_refl]. }
  destruct hit as [k p|k o].
  - set (st3 := set_players _ st2).
    assert (H3 : sameBadges (players st) (players st3)).
    { eapply sameBadges_trans; [exact H2|]. by apply sameBadges_alter. }
    destruct (players st3 !! k); [|exact H3].
    case_decide; [|exact H3].
    eapply sameBadges_trans; [exact H3|apply markPlayerDefeated_badges].
  - set (st3 := set_obstacles _ st2).
    destruct (obstacles st3 !! k); [|exact H2].
    case_decide; exact H2.
Qed.

Lemma handleRequestAction_badges fuel st meta payload uuid reply st' :
  handleRequestAction fuel st meta payload uuid = Some (reply, st') →
  sameBadges (players st) (players st').
Proof.
  unfold handleRequestAction.
  destruct meta as [user|user playerId];
    [intros [= _ <-]; apply sameBadges_refl|].
  case_decide; [intros [= _ <-]; apply sameBadges_refl|].
  case_decide; [intros [= _ <-]; apply sameBadges_refl|].
  destruct (actionType payload).
  - destruct (executeMove _ _ _ _) as [st''| |] eqn:E; intros [= _ <-];
      [|apply sameBadges_refl].
    unfold executeMove in E. outcome_inv E. injection E as <-.
    eapply sameBadges_trans; [|apply action_end_badges]. simpl.
    by apply sameBadges_alter.
  - destruct (executeAttack _ _ _ _) as [st''| |] eqn:E; intros [= _ <-];
      [|apply sameBadges_refl].
    unfold executeAttack in E. outcome_inv E. injection E as <-.
    eapply sameBadges_trans; [|apply action_end_badges].
    apply applyAttack_badges.
  - destruct (executePlaceObstacle _ _ _ _) as [st''| |] eqn:E;
      intros [= _ <-]; [|apply sameBadges_refl].
    unfold executePlaceObstacle in E. outcome_inv E. injection E as <-.
    eapply sameBadges_trans; [|apply action_end_badges]. simpl.
    by apply sameBadges_alter.
  - intros [= _ <-]. apply sameBadges_refl.
Qed.

Lemma removePlayer_badges playerId st :
  sameBadges (players st) (players (removePlayer playerId st)).
Proof.
  unfold removePlayer.
  destruct (list_find _ _) as [[index leaver]|]; [|apply sameBadges_refl].
  set (st1 := set_players (delete index (players st)) st).
  assert (H1 : sameBadges (players st) (players st1)).
  { apply sameBadges_sub. intros p Hp. simpl in Hp.
    by eapply list_elem_of_delete_inv. }
  case_decide; [intros p Hp; by apply elem_of_nil in Hp|].
  case_decide.
  { rewrite checkVictory_players, advanceTurn_players.
    eapply sameBadges_trans; [exact H1|apply markPlayerDefeated_badges]. }
  case_decide; [|exact H1].
  eapply sameBadges_trans; [exact H1|]. simpl.
  intros p' Hp'. apply list_elem_of_lookup in Hp' as [j Hj].
  rewrite list_lookup_imap in Hj.
  destruct (delete index (players st) !! j) as [r|] eqn:Hr; [|done].
  simpl in Hj. injection Hj as <-. exists r.
  split; [by eapply list_elem_of_lookup_2|done].
Qed.

Lemma canonical_step st st' :
  Step st st' →
  Forall canonicalBadge (players st) → Forall canonicalBadge (players st').
Proof.
  intros Hstep Hcan. destruct Hstep as [st meta payload uuid
    | fuel st meta payload uuid reply st' Hact | st | st meta].
  - unfold handleJoin. destruct meta as [user|user pid]; [|done].
    case_decide; [done|].
    destruct (addPlayer _ _ _ _ _ _) as [[player st']| |] eqn:Hadd;
      try done. simpl.
    apply addPlayer_inv in Hadd
      as (name & c & st1 & _ & Hname & Hcolor & _ & Hst1 & -> & ->).
    assert (Hp1 : players st1 = players st) by (by destruct Hst1 as [->| ->]).
    assert (Hnew : Forall canonicalBadge
                     (players st1 ++ [newPlayer st1 (length (players st)) uuid
                                        (user ≫= u_id) name c])).
    { rewrite Hp1. apply Forall_app. split; [exact Hcan|].
      apply Forall_singleton. unfold canonicalBadge. simpl.
      split; [exact Hname|]. split; [apply trim_idem|].
      by destruct (normalizeColor_fixed _ _ Hcolor) as (_ & _ & ?). }
    unfold seat. by case_decide.
  - eapply sameBadges_canonical; [|exact Hcan].
    by eapply handleRequestAction_badges.
  - unfold handleResetGame. case_decide; [done|]. simpl. constructor.
  - unfold handleDisconnect. destruct meta as [user|user pid]; [done|].
    eapply sameBadges_canonical; [|exact Hcan]. apply removePlayer_badges.
Qed.

Lemma same_id_same_player l p q :
  NoDup (p_id <$> l) → p ∈ l → q ∈ l → p_id p = p_id q → p = q.
Proof.
  intros Hnd Hp Hq Hid.
  apply list_elem_of_lookup in Hp as [i Hi].
  apply list_elem_of_lookup in Hq as [j Hj].
  assert (i = j) as ->.
  { eapply NoDup_lookup; [exact Hnd| |].
    - by rewrite list_lookup_fmap, Hi.
    - rewrite list_lookup_fmap, Hj. simpl. by rewrite Hid. }
  congruence.
Qed.

Lemma sameBadges_by_id l l' p p' :
  NoDup (p_id <$> l) → sameBadges l l' →
  p ∈ l → p' ∈ l' → p_id p' = p_id p →
  p_pseudo p' = p_pseudo p ∧ p_couleur p' = p_couleur p.
Proof.
  intros Hnd Hsame Hp Hp' Hid.
  destruct (Hsame p' Hp') as (q & Hq & Hi & Hn & Hc).
  assert (q = p) as -> by (eapply same_id_same_player; eauto; congruence).
  by split.
Qed.

(** A step keeps the pseudo and the color of the players that stay seated:
    the player of an id after the step bears the pseudo and the color of
    the player of that id before it. *)
Lemma freshStep_badges st st' p p' :
  NoDup (p_id <$> players st) → FreshStep st st' →
  p ∈ players st → p' ∈ players st' → p_id p' = p_id p →
  p_pseudo p' = p_pseudo p ∧ p_couleur p' = p_couleur p.
Proof.
  intros Hnd Hstep Hp Hp' Hid.
  destruct Hstep as [st meta payload uuid Hfresh
    | fuel st meta payload uuid reply st' Hact | st | st meta].
  - assert (Hsame : p' ∈ players st →
                    p_pseudo p' = p_pseudo p ∧ p_couleur p' = p_couleur p).
    { intros Hin. assert (p' = p) as ->; [|done].
      by eapply same_id_same_player. }
    revert Hp'. unfold handleJoin.
    destruct meta as [user|user pid]; [|exact Hsame].
    case_decide; [exact Hsame|].
    destruct (addPlayer _ _ _ _ _ _) as [[player st']| |] eqn:Hadd;
      try exact Hsame. simpl.
    apply addPlayer_inv in Hadd
      as (name & c & st1 & _ & Hname & Hcolor & _ & Hst1 & -> & ->).
    assert (Hp1 : players st1 = players st) by (by destruct Hst1 as [->| ->]).
    intros Hp'.
    assert (Hin : p' ∈ (players st1
                        ++ [newPlayer st1 (length (players st)) uuid
                              (user ≫= u_id) name c])%list)
      by (revert Hp'; unfold seat; by case_decide).
    rewrite Hp1 in Hin. apply elem_of_app in Hin as [Hin|Hin].
    + by apply Hsame.
    + apply list_elem_of_singleton in Hin. subst p'. simpl in Hid.
      exfalso. apply Hfresh. rewrite Hid. by apply list_elem_of_fmap_2.
  - eapply sameBadges_by_id; eauto.
    by eapply handleRequestAction_badges.
  - revert Hp'. unfold handleResetGame. case_decide; simpl.
    + intros Hp'. assert (p' = p) as ->; [|done].
      by eapply same_id_same_player.
    + intros Hp'. by apply elem_of_nil in Hp'.
  - revert Hp'. unfold handleDisconnect. destruct meta as [user|user pid].
    + intros Hp'. assert (p' = p) as ->; [|done].
      by eapply same_id_same_player.
    + intros Hp'. eapply sameBadges_by_id; eauto.
      apply removePlayer_badges.
Qed.

Lemma reachable_canonical st :
  reachable st → Forall canonicalBadge (players st).
Proof.
  revert st.
  apply (rtc_ind_r (R:=Step) (λ s, Forall canonicalBadge (players s))).
  - constructor.
  - intros st1 st2 _ Hstep IH. by eapply canonical_step.
Qed.
End Badges.

(** * The loops and their fuel *)

Section Returns.
Context {N : Type} `{!JsNumber N}.
Implicit Types (st : State N) (p : Player N).




(** A sequence whose first call does not depend on the fuel. *)
Lemma bind_ext_fuel {A B} (m : Outcome A) (f g : A → Outcome B) :
  (∀ a, m = Return a → f a ≠ OutOfFuel → g a = f a) →
  m ≫= f ≠ OutOfFuel → m ≫= g = m ≫= f.
Proof.
  intros Hfg. destruct m as [a| |]; cbn [mbind Outcome_bind]; try done.
  intros Hne. by apply Hfg.
Qed.

(** A sequence whose first call has returned with less fuel. *)
Lemma bind_more_fuel {A B} (m m' : Outcome A) (f : A → Outcome B) :
  (m ≠ OutOfFuel → m' = m) →
  m ≫= f ≠ OutOfFuel → m' ≫= f = m ≫= f.
Proof.
  intros Hm. destruct m as [a| |]; cbn [mbind Outcome_bind];
    intros Hne; try done; by rewrite Hm.
Qed.

(** More fuel does not change the answer of a loop that has returned. *)
Lemma isPathClear_loop_more_fuel (fuel : nat) st t dx dy x y :
  isPathClear_loop fuel st t dx dy x y ≠ OutOfFuel →
  isPathClear_loop (S fuel) st t dx dy x y
  = isPathClear_loop fuel st t dx dy x y.
Proof.
  revert x y. induction fuel as [|fuel IH]; intros x y Hne; [done|].
  change (isPathClear_loop (S (S fuel)) st t dx dy x y)
    with (if decide (¬ num_eq x (pos_x t) ∨ ¬ num_eq y (pos_y t)) then
            isOccupied st (mkPosition x y) ≫= λ occupied : bool,
              if occupied then Return false
              else isPathClear_loop (S fuel) st t dx dy
                     (num_add x dx) (num_add y dy)
          else
            isOccupied st t ≫= λ occupied : bool,
              if occupied then Return false else Return true).
  change (isPathClear_loop (S fuel) st t dx dy x y)
    with (if decide (¬ num_eq x (pos_x t) ∨ ¬ num_eq y (pos_y t)) then
            isOccupied st (mkPosition x y) ≫= λ occupied : bool,
              if occupied then Return false
              else isPathClear_loop fuel st t dx dy
                     (num_add x dx) (num_add y dy)
          else
            isOccupied st t ≫= λ occupied : bool,
              if occupied then Return false else Return true) in Hne |- *.
  case_decide; [|reflexivity].
  apply bind_ext_fuel; [|exact Hne].
  intros [|] _ Hrec; [reflexivity|]. by apply IH.
Qed.

Lemma isPathClear_more_fuel (fuel fuel' : nat) st a b :
  (fuel ≤ fuel')%nat → isPathClear fuel st a b ≠ OutOfFuel →
  isPathClear fuel' st a b = isPathClear fuel st a b.
Proof.
  intros Hle Hne. induction Hle as [|fuel' Hle IH]; [reflexivity|].
  rewrite <- IH. unfold isPathClear in *.
  apply isPathClear_loop_more_fuel. by rewrite IH.
Qed.

Lemma findFirstEntity_loop_S (fuel : nat) st a b dx dy x y :
  findFirstEntity_loop (S fuel) st a b dx dy x y
  = if decide (num_le (num_of_Z 0) x
               ∧ num_le (num_of_Z 0) y
               ∧ num_lt x (num_of_Z (gridSize st))
               ∧ num_lt y (num_of_Z (gridSize st))
               ∧ num_le (num_add (num_abs (num_sub x (pos_x a)))
                                 (num_abs (num_sub y (pos_y a))))
                        (num_of_Z ATTACK_RANGE))
    then
      getPlayerAt st (mkPosition x y) ≫= λ player,
        match player with
        | Some (i, p) => Return (Some (HitPlayer i p))
        | None =>
            match getObstacleAt st (mkPosition x y) with
            | Some (j, o) => Return (Some (HitObstacle j o))
            | None =>
                if decide (num_eq x (pos_x b) ∧ num_eq y (pos_y b))
                then Return None
                else findFirstEntity_loop fuel st a b dx dy
                       (num_add x dx) (num_add y dy)
            end
        end
    else Return None.
Proof. reflexivity. Qed.

Lemma findFirstEntity_loop_more_fuel (fuel : nat) st a b dx dy x y :
  findFirstEntity_loop fuel st a b dx dy x y ≠ OutOfFuel →
  findFirstEntity_loop (S fuel) st a b dx dy x y
  = findFirstEntity_loop fuel st a b dx dy x y.
Proof.
  revert x y. induction fuel as [|fuel IH]; intros x y Hne; [done|].
  rewrite (findFirstEntity_loop_S fuel st a b dx dy x y) in Hne |- *.
  rewrite (findFirstEntity_loop_S (S fuel)).
  case_decide; [|reflexivity].
  apply bind_ext_fuel; [|exact Hne].
  intros [[i p]|] _ Hrec; [reflexivity|].
  destruct (getObstacleAt st (mkPosition x y)) as [[j o]|]; [reflexivity|].
  case_decide; [reflexivity|]. by apply IH.
Qed.

Lemma findFirstEntity_more_fuel (fuel fuel' : nat) st a b :
  (fuel ≤ fuel')%nat → findFirstEntity fuel st a b ≠ OutOfFuel →
  findFirstEntity fuel' st a b = findFirstEntity fuel st a b.
Proof.
  intros Hle Hne. induction Hle as [|fuel' Hle IH]; [reflexivity|].
  rewrite <- IH. unfold findFirstEntity in *.
  apply findFirstEntity_loop_more_fuel. by rewrite IH.
Qed.

Lemma executeMove_more_fuel (fuel fuel' : nat) st playerId target :
  (fuel ≤ fuel')%nat → executeMove fuel st playerId target ≠ OutOfFuel →
  executeMove fuel' st playerId target = executeMove fuel st playerId target.
Proof.
  intros Hle. unfold executeMove.
  apply bind_ext_fuel. intros [i player] _.
  apply bind_ext_fuel. intros tgt _.
  apply bind_ext_fuel. intros position _.
  apply bind_ext_fuel. intros u1 _.
  apply bind_ext_fuel. intros u2 _.
  apply bind_more_fuel. by apply isPathClear_more_fuel.
Qed.

Lemma executeAttack_more_fuel (fuel fuel' : nat) st playerId target :
  (fuel ≤ fuel')%nat → executeAttack fuel st playerId target ≠ OutOfFuel →
  executeAttack fuel' st playerId target
  = executeAttack fuel st playerId target.
Proof.
  intros Hle. unfold executeAttack.
  apply bind_ext_fuel. intros [i player] _.
  apply bind_ext_fuel. intros tgt _.
  apply bind_ext_fuel. intros position _.
  apply bind_ext_fuel. intros u1 _.
  apply bind_ext_fuel. intros u2 _.
  apply bind_more_fuel. by apply findFirstEntity_more_fuel.
Qed.

Lemma handleRequestAction_more_fuel (fuel fuel' : nat) st meta payload uuid :
  (fuel ≤ fuel')%nat →
  is_Some (handleRequestAction fuel st meta payload uuid) →
  handleRequestAction fuel' st meta payload uuid
  = handleRequestAction fuel st meta payload uuid.
Proof.
  intros Hle. unfold handleRequestAction.
  destruct meta as [user|user playerId]; [done|].
  case_decide; [done|]. case_decide; [done|].
  destruct (actionType payload); try done.
  - intros Hsome. rewrite (executeMove_more_fuel fuel fuel'); [done|done|].
    intros Hout. rewrite Hout in Hsome. by destruct Hsome.
  - intros Hsome. rewrite (executeAttack_more_fuel fuel fuel'); [done|done|].
    intros Hout. rewrite Hout in Hsome. by destruct Hsome.
Qed.

End Returns.

(** ** The ray cast on rational coordinates *)

Section RationalRays.
Implicit Types (st : State Q) (a b : Position Q).





End RationalRays.

(** * The server and its connections *)

(** ** The map of the clients *)

Section ClientMap.
Implicit Types (cs : list (Ws * ClientMeta)) (ws : Ws) (meta : ClientMeta).


Lemma getClient_Some ws cs meta :
  getClient ws cs = Some meta → (ws, meta) ∈ cs.
Proof.
  induction cs as [|[w m] cs IH]; simpl; [discriminate|].
  case_decide as Hw.
  - intros [= ->]. subst w. left.
  - intros Hcs. right. by apply IH.
Qed.

Lemma getClient_elem ws cs meta :
  NoDup cs.*1 → (ws, meta) ∈ cs → getClient ws cs = Some meta.
Proof.
  induction cs as [|[w m] cs IH]; simpl; intros Hnd Hin.
  - by apply elem_of_nil in Hin.
  - apply NoDup_cons in Hnd as [Hw Hnd].
    apply elem_of_cons in Hin as [[= <- <-]|Hin].
    + by rewrite decide_True.
    + rewrite decide_False; [by apply IH|].
      intros ->. apply Hw. by apply (list_elem_of_fmap_2 fst) in Hin.
Qed.










End ClientMap.

(** ** The ids of the players *)

Section Ids.
Context {N : Type} `{!JsNumber N}.
Implicit Types (st : State N) (p : Player N) (l : list (Player N)).





(** What a join does to the ids: an accepted join, of a socket that was not
    seated, adds the new id; any other join leaves the store as it is. *)
Lemma handleJoin_ids st meta payload uuid :
  match (handleJoin st meta payload uuid).1 with
  | JOINED_AS_PLAYER playerId =>
      playerId = uuid
      ∧ (∃ user, meta = Spectator user)
      ∧ p_id <$> players (handleJoin st meta payload uuid).2
        = ((p_id <$> players st) ++ [uuid])%list
  | _ => (handleJoin st meta payload uuid).2 = st
  end.
Proof.
  unfold handleJoin. destruct meta as [user|user pid]; [|done].
  case_decide; [done|].
  destruct (addPlayer _ _ _ _ _ _) as [[player st']| |] eqn:Ha; [|done|done].
  simpl. pose proof (addPlayer_Return _ _ _ _ _ _ _ _ Ha) as (Hp & _).
  assert (Hid : p_id player = uuid).
  { unfold addPlayer in Ha. outcome_inv Ha.
    destruct (joinPseudo user payload); try discriminate. outcome_inv Ha.
    by injection Ha as <- _. }
  split; [exact Hid|]. split; [by exists user|].
  by rewrite Hp, fmap_app, <- Hid.
Qed.

(** A request that is not accepted leaves the store as it is. *)
Lemma handleRequestAction_refused fuel st meta payload uuid reply st' :
  handleRequestAction fuel st meta payload uuid = Some (reply, st') →
  reply = GAME_STATE_UPDATE ∨ ((∃ e, reply = ACTION_INVALID e) ∧ st' = st).
Proof.
  unfold handleRequestAction.
  destruct meta as [user|user playerId];
    [intros [= <- <-]; right; by eauto|].
  case_decide; [intros [= <- <-]; right; by eauto|].
  case_decide; [intros [= <- <-]; right; by eauto|].
  destruct (match actionType payload with
            | MOVE => _ | ATTACK => _ | PLACE_OBSTACLE => _
            | OtherActionType => _ end) as [st''|e|];
    [intros [= <- <-]; by left|intros [= <- <-]; right; by eauto
    |discriminate].
Qed.

End Ids.

(** ** The invariant of the server *)

Lemma Some_snd_inv {A B} (x : A * B) (a : A) (b : B) :
  Some x = Some (a, b) → b = x.2.
Proof. by intros [= ->]. Qed.

Section ServerInvariant.
Implicit Types (srv : Server Z) (st : State Z).

(** Every event of the server is a public operation on the store, or leaves
    the store as it is. *)
Lemma ServerStep_game {N} `{!JsNumber N} (s s' : Server N) out :
  ServerStep s out s' → game s' = game s ∨ FreshStep (game s) (game s').
Proof.
  intros [ws user srv Hnew|fuel ws message uuid srv out' srv' Hfresh Hm|ws srv].
  - by left.
  - destruct message as [|payload|payload| |]; simpl in Hm.
    + left. by apply Some_snd_inv in Hm as ->.
    + right. apply Some_snd_inv in Hm as ->. unfold joinGame.
      pose proof (fresh_join (game srv) (clientMeta ws srv) payload uuid
                    (Hfresh payload eq_refl)) as Hstep.
      destruct (handleJoin _ _ _ _) as [[] st']; exact Hstep.
    + right. unfold requestAction in Hm.
      destruct (handleRequestAction _ _ _ _ _) as [[reply st']|] eqn:Hact;
        [|discriminate].
      pose proof (fresh_action _ _ _ _ _ _ _ Hact) as Hstep.
      destruct reply; by apply Some_snd_inv in Hm as ->.
    + right. apply Some_snd_inv in Hm as ->. unfold resetGameFor.
      pose proof (fresh_reset (game srv)) as Hstep.
      destruct (handleResetGame _) as [[] st']; exact Hstep.
    + left. by apply Some_snd_inv in Hm as ->.
  - right. apply fresh_leave.
Qed.

Lemma served_reachableFresh {N} `{!JsNumber N} (srv : Server N) :
  served srv → reachableFresh (game srv).
Proof.
  unfold served, reachableFresh. intros Hs.
  apply rtc_nsteps in Hs as [n Hs]. revert srv Hs.
  induction n as [|n IH]; intros srv Hs.
  - inversion Hs; subst. apply rtc_refl.
  - apply nsteps_inv_r in Hs as (mid & Hmid & out & Hstep).
    specialize (IH mid Hmid).
    destruct (ServerStep_game _ _ _ Hstep) as [->|Hf]; [exact IH|].
    eapply rtc_r; [exact IH|exact Hf].
Qed.


End ServerInvariant.

(** * The stores reached with targets that are not cells *)

Section Places.
Implicit Types (st : State Q) (p q : Player Q) (o : Obstacle Q)
  (a b c tgt : Position Q).







End Places.

(** ** The elementary changes of the store *)

Section Changes.
Implicit Types (st : State Q) (p q : Player Q) (o : Obstacle Q)
  (a b c tgt : Position Q).










End Changes.

(** ** The operations *)

Section Operations.
Implicit Types (st : State Q) (p q player : Player Q) (o : Obstacle Q)
  (a b c position tgt : Position Q).













End Operations.

(** ** The requests *)

Section Requests.
Implicit Types (st : State Q) (p q player : Player Q) (o : Obstacle Q).







End Requests.

(** * Properties of every game *)

(** X1. Whatever grid size the join requests carry, the grid of every store
    reachable through the public operations is the 9 x 9 grid. *)
Theorem grid_size_constant {N} `{!JsNumber N} (st : State N) :
  reachable st → gridSize st = 9.
Proof. apply reachable_gridSize. Qed.





(** X6. A lobby reached with fresh player ids holds no trace of a game: no
    obstacle, no turn holder, no winner, and its players are Active, with
    all their hit points and obstacles, seated in list order on the starting
    positions. *)
Theorem lobby_is_pristine (st : State Z) :
  reachableFresh st → gameStatus st = Lobby →
  obstacles st = []
  ∧ currentPlayerTurn st = None
  ∧ winner st = None ∧ winnerId st = None
  ∧ ∀ k p, players st !! k = Some p →
           p_status p = Active
           ∧ p_pdv p = PLAYER_HP
           ∧ p_obstaclesRestants p = OBSTACLE_STOCK
           ∧ p_position p = getStartingPositions st !! k.
Proof.
  intros Hr Hs. apply reachableFresh_gameInvariant in Hr as [_ _ _ _ Hc].
  unfold census in Hc. by rewrite Hs in Hc.
Qed.



(** * Properties of the actions and of the turn *)

Section PlaceLemmas.
Implicit Types (st : State Z) (p player : Player Z).

End PlaceLemmas.


(** X10. For the acting player of a well-formed store and a target cell at
    distance 1 or 2 on its row or column, a Move to the target is accepted
    exactly when an Attack on the same target is refused for lack of a
    target: both scan the same cells. *)
Theorem move_iff_no_target (st : State Z) (playerId : Id) (i : nat)
    (player : Player Z) (position target : Position Z) (fuel : nat) :
  wellFormed st →
  actingPlayer st playerId i player position →
  inBounds st target →
  isStraightLine position target →
  1 ≤ distance position target ≤ ATTACK_RANGE →
  (3 ≤ fuel)%nat →
  (∃ st', executeMove fuel st playerId (targetOf target) = Return st')
  ↔ executeAttack fuel st playerId (targetOf target) = Throw AucuneCible.
Proof.
  intros Hwf Hacting Hin Hline Hd Hfuel.
  pose proof (wellFormed_positioned st Hwf) as Hposd.
  pose proof (ensureTargetValid_inBounds st target Hin) as Htgt.
  assert (Hstart : inBounds st position).
  { destruct (actingPlayer_lookup _ _ _ _ _ Hacting) as [Hi _].
    destruct Hacting as (_ & Ha & Hq).
    destruct (wf_active st Hwf player (list_elem_of_lookup_2 _ _ _ Hi) Ha)
      as (_ & q & Hq' & Hinq). congruence. }
  unfold ATTACK_RANGE in Hd.
  rewrite (executeMove_run st playerId i player position target
             (targetOf target) fuel Hacting Htgt).
  rewrite (executeAttack_run st playerId i player position target
             (targetOf target) fuel Hposd Hacting Htgt).
  rewrite !(throwIf_False (¬ isStraightLine position target)) by tauto.
  cbn [mbind Outcome_bind].
  rewrite (throwIf_False (distance position target = 0
                          ∨ MOVE_RANGE < distance position target))
    by (unfold MOVE_RANGE; lia).
  rewrite (throwIf_False (distance position target = 0
                          ∨ ATTACK_RANGE < distance position target))
    by (unfold ATTACK_RANGE; lia).
  cbn [mbind Outcome_bind].
  rewrite isPathClear_pathCells by (try done; lia).
  rewrite findFirstEntity_pathCells
    by (try done; unfold ATTACK_RANGE; lia).
  cbn [mbind Outcome_bind].
  destruct (firstEntity st (pathCells position target)) as [hit|] eqn:Hhit.
  - assert (Hblocked : ¬ Forall (λ c, ¬ occupied st c)
                         (pathCells position target)).
    { intros Hfree. apply firstEntity_None in Hfree. congruence. }
    rewrite bool_decide_eq_false_2 by exact Hblocked.
    rewrite (throwIf_True (false = false)) by reflexivity. cbn [mbind Outcome_bind].
    split; [by intros [st' ?]|].
    unfold throwIf. case_decide; cbn [mbind Outcome_bind]; discriminate.
  - apply firstEntity_None in Hhit.
    rewrite bool_decide_eq_true_2 by exact Hhit.
    rewrite (throwIf_False (true = false)) by discriminate. cbn [mbind Outcome_bind].
    split; [done|intros _; by eexists].
Qed.





(** * Properties of the lobby, of joins and of departures *)

(** X15. When all the players of a store leave, one after the other in any
    order, the store ends as the initial store of its grid size, whatever
    its status was: an empty Lobby without obstacle, turn or winner. *)
Theorem all_leave_resets {N} `{!JsNumber N} (order : list Id) (st : State N) :
  NoDup (p_id <$> players st) → players st ≠ [] →
  order ≡ₚ p_id <$> players st →
  foldl (λ s playerId, removePlayer playerId s) st order
  = createInitialState (gridSize st).
Proof.
  revert st. induction order as [|playerId rest IH]; intros st Hnd Hne Hperm.
  { apply Permutation_nil_l in Hperm. symmetry in Hperm.
    apply fmap_nil_inv in Hperm. contradiction. }
  assert (Hin : playerId ∈ p_id <$> players st)
    by (rewrite <- Hperm; left).
  apply list_elem_of_fmap in Hin as (q & Hq & Hqin).
  destruct (list_find_elem_of (λ p, p_id p = playerId) (players st) q Hqin)
    as [[i p] Hf]; [by symmetry|].
  pose proof Hf as Hf'. apply list_find_Some in Hf' as (Hi & Hid & _).
  assert (Hrest : rest ≡ₚ p_id <$> delete i (players st)).
  { apply (Permutation_cons_inv (a:=playerId)). rewrite Hperm.
    rewrite list_fmap_delete, <- Hid.
    apply delete_Permutation. by rewrite list_lookup_fmap, Hi. }
  simpl. destruct (decide (delete i (players st) = [])) as [Hnil|Hmore].
  - rewrite (removePlayer_last st playerId i p Hf Hnil).
    rewrite Hnil in Hrest. apply Permutation_nil_r in Hrest. by subst rest.
  - destruct (removePlayer_found st playerId i p Hf Hmore) as [Hids Hg].
    rewrite IH.
    + by rewrite Hg.
    + rewrite Hids, list_fmap_delete.
      eapply sublist_NoDup; [exact Hnd|apply sublist_delete].
    + intros Hnil. rewrite Hnil in Hids. symmetry in Hids.
      by apply fmap_nil_inv in Hids.
    + by rewrite Hids.
Qed.

(** X16. A join request from a connection that is not seated, on a 9 x 9
    Lobby with a free seat, is accepted when the pseudo is a string that,
    without the white space around it, is not empty, and the color is a
    string that, without the white space around it, is [#] and six
    hexadecimal digits: the reply names the new id, and the new player is
    appended to the list, Active, with that pseudo, that color with its
    letters in upper case, [PLAYER_HP] hit points, [OBSTACLE_STOCK]
    obstacles, on the corner of the grid of its seat.  The fourth player
    starts the game, and the turn goes to the first player of the list. *)
Theorem join_accepted {N} `{!JsNumber N} (st : State N) (user : option User)
    (payload : JoinPayload) (uuid : Id) (name pseudo c hex : JsString) :
  gameStatus st = Lobby →
  (length (players st) < MAX_PLAYERS)%nat →
  gridSize st = 9 →
  joinPseudo user payload = VString name →
  trimmedTo name pseudo → pseudo ≠ [] →
  joinColor payload = VString c →
  trimmedTo c hex → isStrictHexColor hex →
  let player :=
    mkPlayer uuid (storedUserId (user ≫= u_id)) pseudo (upperHex <$> hex)
             PLAYER_HP (corners !! length (players st))
             OBSTACLE_STOCK Active in
  ∃ st',
    handleJoin st (Spectator user) payload uuid = (JOINED_AS_PLAYER uuid, st')
    ∧ players st' = (players st ++ [player])%list
    ∧ obstacles st' = obstacles st
    ∧ gridSize st' = 9
    ∧ winner st' = winner st ∧ winnerId st' = winnerId st
    ∧ (if decide (length (players st) = 3%nat)
       then gameStatus st' = InProgress
            ∧ currentPlayerTurn st' = p_id <$> head (players st')
       else gameStatus st' = Lobby
            ∧ currentPlayerTurn st' = currentPlayerTurn st).
Proof.
  intros Hs Hroom Hg Hname Hpseudo Hne Hcolor Hhex Hstrict player.
  apply trimmedTo_trim in Hpseudo, Hhex. subst pseudo hex.
  unfold handleJoin.
  rewrite decide_False
    by (intros [?|?]; [unfold MAX_PLAYERS in *; lia|congruence]).
  destruct (addPlayer _ _ _ _ _ _) as [[joined st']| |] eqn:Hadd.
  - apply addPlayer_inv in Hadd
      as (name' & c' & st1 & Hn & _ & Hc & _ & Hst1 & -> & ->).
    rewrite Hname in Hn. injection Hn as <-.
    rewrite Hcolor in Hc.
    apply normalizeColor_inv in Hc as (s & [= <-] & _ & ->).
    assert (Hst1' : st1 = st).
    { destruct Hst1 as [->| ->]; [done|]. rewrite <- Hg. by destruct st. }
    subst st1. eexists. split; [reflexivity|].
    assert (Hcorners : getStartingPositions st = corners)
      by (unfold getStartingPositions, corners; by rewrite Hg).
    unfold seat, newPlayer. rewrite Hcorners. fold player. simpl.
    rewrite length_app. simpl.
    destruct (decide (length (players st) = 3%nat)) as [H3|H3].
    + rewrite decide_True by (unfold MAX_PLAYERS; lia). simpl.
      by repeat split.
    + rewrite decide_False by (unfold MAX_PLAYERS; lia). simpl.
      by repeat split.
  - exfalso. revert Hadd. unfold addPlayer.
    rewrite throwIf_False by lia. cbn [mbind Outcome_bind].
    rewrite Hname.
    rewrite throwIf_False.
    2:{ intros [->|Hlen]; [by apply Hne|].
        by apply length_zero_empty in Hlen. }
    cbn [mbind Outcome_bind]. rewrite Hcolor. simpl.
    apply matchesHexColor_strict in Hstrict. by rewrite Hstrict.
  - by apply addPlayer_terminates in Hadd.
Qed.

(** X17. A color that [normalizeColor] accepts is a string that, without
    the white space around it, is [#] and six hexadecimal digits; what is
    returned is that color with its letters in upper case: a [#] followed
    by six of [0-9] and [A-F], which [normalizeColor] returns unchanged. *)
Theorem normalizeColor_canonical (color : JsValue) (c : JsString) :
  normalizeColor color = Some c →
  (∃ s hex, color = VString s ∧ trimmedTo s hex ∧ isStrictHexColor hex
            ∧ c = upperHex <$> hex)
  ∧ isCanonicalColor c
  ∧ normalizeColor (VString c) = Some c.
Proof.
  intros Hc. split; [|split].
  - apply normalizeColor_inv in Hc as (s & -> & Hstrict & ->).
    exists s, (trim s). split; [reflexivity|].
    split; [apply trim_trimmedTo|by split].
  - by eapply normalizeColor_canonical_form.
  - by destruct (normalizeColor_fixed _ _ Hc) as (_ & _ & ?).
Qed.

(** X18. In every store reachable through the public operations, the
    pseudo of a player is not empty and neither starts nor ends with white
    space, and its color is [#] followed by six of [0-9] and [A-F].  And no
    operation changes the pseudo or the color of a seated player: when the
    ids of the store are distinct, after a join (whose new id is not the id
    of a seated player), a request of action, a reset or a departure, the
    player that bears the id of a player of the store before the operation
    bears its pseudo and its color. *)
Theorem roster_is_canonical {N} `{!JsNumber N} (st : State N)
    (p : Player N) :
  reachable st → p ∈ players st →
  (p_pseudo p ≠ []
   ∧ (∀ c, head (p_pseudo p) = Some c → ¬ whiteSpace c)
   ∧ (∀ c, last (p_pseudo p) = Some c → ¬ whiteSpace c)
   ∧ isCanonicalColor (p_couleur p))
  ∧ (NoDup (p_id <$> players st) →
     ∀ st' p', FreshStep st st' → p' ∈ players st' → p_id p' = p_id p →
               p_pseudo p' = p_pseudo p ∧ p_couleur p' = p_couleur p).
Proof.
  intros Hr Hp. split.
  - apply reachable_canonical in Hr.
    rewrite Forall_forall in Hr. destruct (Hr p Hp) as (Hne & Htrim & Hcol).
    split; [exact Hne|].
    destruct (trim_trimmedTo (p_pseudo p)) as (_ & Hhead & Hlast).
    rewrite Htrim in Hhead, Hlast.
    split; [exact Hhead|]. split; [exact Hlast|].
    by eapply normalizeColor_canonical_form.
  - intros Hnd st' p' Hstep Hp' Hid. by eapply freshStep_badges.
Qed.

(** * Requests are answered *)

(** X19. With integer coordinates every action request is answered, on
    every store: the two ray loops stop within four iterations, and more
    iterations do not change the answer. *)
Theorem integer_requests_answered (st : State Z) meta
    (payload : ActionPayload Z) uuid (fuel : nat) :
  (4 ≤ fuel)%nat →
  is_Some (handleRequestAction 4 st meta payload uuid)
  ∧ handleRequestAction fuel st meta payload uuid
    = handleRequestAction 4 st meta payload uuid.
Proof.
  intros Hfuel.
  assert (Hsome : is_Some (handleRequestAction 4 st meta payload uuid))
    by (by apply handleRequestAction_total).
  split; [exact Hsome|]. by apply handleRequestAction_more_fuel.
Qed.


(** * Properties of the server *)

(** X21. Whatever connections, messages and disconnections the server
    serves, its store is one that the public operations reach with fresh
    player ids: the properties of those stores hold on the running
    server. *)
Theorem served_store_is_reachable {N} `{!JsNumber N} (srv : Server N) :
  served srv → reachableFresh (game srv).
Proof. apply served_reachableFresh. Qed.




(** X25. The server tells every change of the store: an event that changes
    the store broadcasts the new store, and every snapshot it sends or
    broadcasts is the store as the event leaves it. *)
Theorem every_change_is_broadcast {N} `{!JsNumber N} (srv srv' : Server N)
    out :
  ServerStep srv out srv' →
  (game srv' ≠ game srv → Broadcast (Snapshot (game srv')) ∈ out)
  ∧ (∀ st, Broadcast (Snapshot st) ∈ out → st = game srv')
  ∧ (∀ ws st, SendTo ws (Snapshot st) ∈ out → st = game srv').
Proof.
  assert (Hb : ∀ st st0 : State N,
             Broadcast (Snapshot st0) ∈ broadcastGameState st → st0 = st).
  { intros st st0 Hin. unfold broadcastGameState in Hin.
    apply elem_of_cons in Hin as [[= ->]|Hin]; [done|].
    case_decide; [|by apply elem_of_nil in Hin].
    apply list_elem_of_singleton in Hin. discriminate. }
  assert (Hs : ∀ (st : State N) ws st0,
             SendTo ws (Snapshot st0) ∉ broadcastGameState st).
  { intros st ws st0 Hin. unfold broadcastGameState in Hin.
    apply elem_of_cons in Hin as [|Hin]; [discriminate|].
    case_decide; [|by apply elem_of_nil in Hin].
    apply list_elem_of_singleton in Hin. discriminate. }
  assert (Hone : ∀ (m m' : Sent N), m ∈ [m'] → m = m')
    by (intros m m' Hin; by apply list_elem_of_singleton in Hin).
  intros [ws user s Hnew|fuel ws message uuid s out' s' Hfresh Hm|ws s].
  - simpl. split; [done|].
    split; intros; [by apply Hone in H|].
    apply Hone in H. by injection H as _ ->.
  - destruct message as [|payload|payload| |]; simpl in Hm.
    + injection Hm as <- <-. split; [done|].
      split; intros; apply Hone in H; discriminate.
    + injection Hm as Hm. unfold joinGame in Hm.
      pose proof (handleJoin_ids (game s) (clientMeta ws s) payload uuid)
        as Hj.
      destruct (handleJoin _ _ _ _) as [reply st']. simpl in Hj.
      destruct reply; injection Hm as <- <-; simpl;
        try (subst st'; split; [done|];
             split; intros; apply Hone in H; discriminate).
      split; [intros _; right; left|].
      split; [intros st Hin|intros ws' st Hin];
        (apply elem_of_cons in Hin as [|Hin]; [discriminate|]);
        [by apply Hb|by apply Hs in Hin].
    + unfold requestAction in Hm.
      destruct (handleRequestAction _ _ _ _ _) as [[reply st']|] eqn:Hact;
        [|discriminate].
      apply handleRequestAction_refused in Hact
        as [->|[[e ->] ->]]; injection Hm as <- <-; simpl.
      * split; [intros _; left|].
        split; [intros st Hin; by apply Hb|intros ws' st Hin].
        by apply Hs in Hin.
      * split; [done|]. split; intros; apply Hone in H; discriminate.
    + injection Hm as Hm. unfold resetGameFor, handleResetGame in Hm.
      case_decide; injection Hm as <- <-; simpl.
      * split; [done|]. split; intros; apply Hone in H0; discriminate.
      * split; [intros _; apply elem_of_app; right; left|].
        split; [intros st Hin|intros ws' st Hin];
          (apply elem_of_app in Hin as [Hin|Hin];
           [apply list_elem_of_fmap in Hin as (c & Hc & _); discriminate|]);
          [by apply Hb|by apply Hs in Hin].
    + injection Hm as <- <-. split; [done|].
      split; intros; apply Hone in H; discriminate.
  - unfold onClose. simpl.
    destruct (clientMeta ws s) as [u|u pid]; simpl.
    + split; [done|]. split; intros; by apply elem_of_nil in H.
    + split; [intros _; left|].
      split; [intros st Hin; by apply Hb|intros ws' st Hin].
      by apply Hs in Hin.
Qed.

(** X26. A message that the server answers without a broadcast changes
    nothing: the store and the map of the clients are as they were.  So a
    refused request, a join as a spectator, a text that is not JSON and a
    message of unknown type leave no trace. *)
Theorem silent_message_changes_nothing {N} `{!JsNumber N} (fuel : nat)
    (ws : Ws) (message : Message N) (uuid : Id) (srv srv' : Server N) out :
  onMessage fuel ws message uuid srv = Some (out, srv') →
  (∀ m, Broadcast m ∉ out) →
  srv' = srv.
Proof.
  intros Hm Hquiet.
  assert (Hloud : ∀ st : State N, ¬ ∀ m, Broadcast m ∉ broadcastGameState st).
  { intros st Hq. apply (Hq (Snapshot st)). left. }
  destruct message as [|payload|payload| |]; simpl in Hm.
  - by injection Hm as _ <-.
  - injection Hm as Hm. unfold joinGame in Hm.
    pose proof (handleJoin_ids (game srv) (clientMeta ws srv) payload uuid)
      as Hj.
    destruct (handleJoin _ _ _ _) as [reply st']. simpl in Hj.
    destruct reply; injection Hm as <- <-;
      try (subst st'; by destruct srv).
    exfalso. apply (Hloud st'). intros m Hin. apply (Hquiet m). by right.
  - unfold requestAction in Hm.
    destruct (handleRequestAction _ _ _ _ _) as [[reply st']|] eqn:Hact;
      [|discriminate].
    apply handleRequestAction_refused in Hact
      as [->|[[e ->] ->]]; injection Hm as <- <-.
    + by destruct (Hloud st').
    + by destruct srv.
  - injection Hm as Hm. unfold resetGameFor, handleResetGame in Hm.
    case_decide; injection Hm as <- <-; [by destruct srv|].
    exfalso. apply (Hloud (resetGame (game srv))). intros m Hin.
    apply (Hquiet m), elem_of_app. by right.
  - by injection Hm as _ <-.
Qed.

(** * The properties on sample games *)

(** ** The sample games and runs are reachable *)

Section GameFacts.
Import Samples Games.

Lemma reachableFresh_joinAs {N} `{!JsNumber N} name color uuid
    (st : State N) :
  uuid ∉ p_id <$> players st →
  reachableFresh st → reachableFresh (joinAs name color uuid st).
Proof. intros Hfresh Hr. eapply rtc_r; [exact Hr|]. by apply fresh_join. Qed.

Lemma reachableFresh_requestAs {N} `{!JsNumber N} playerId kind target uuid
    (st : State N) :
  reachableFresh st → reachableFresh (requestAs playerId kind target uuid st).
Proof.
  intros Hr. unfold requestAs.
  destruct (handleRequestAction _ _ _ _ _) as [[reply st']|] eqn:Hact;
    [|exact Hr].
  eapply rtc_r; [exact Hr|]. by eapply fresh_action.
Qed.

Lemma reachableFresh_leaveAs playerId (st : State Z) :
  reachableFresh st → reachableFresh (leaveAs playerId st).
Proof. intros Hr. eapply rtc_r; [exact Hr|]. apply fresh_leave. Qed.

Ltac fresh_joins :=
  repeat (apply reachableFresh_joinAs; [by_evaluation|]); apply rtc_refl.

Lemma reachableFresh_started : reachableFresh started.
Proof.
  replace started
    with (joinAs "Dan" "#abcdef" "p4"
            (joinAs "Cleo" "#0000fF" "p3"
               (joinAs "Bob" " #00ff00 " "p2"
                  (joinAs "Ada" "#ff0000" "p1" (initialState (N:=Z))))))
    by (vm_compute; reflexivity).
  fresh_joins.
Qed.

Lemma reachableFresh_waiting : reachableFresh waiting.
Proof.
  replace waiting
    with (leaveAs "p1"
            (joinAs "Cleo" "#0000fF" "p3"
               (joinAs "Bob" " #00ff00 " "p2"
                  (joinAs "Ada" "#ff0000" "p1" (initialState (N:=Z))))))
    by (vm_compute; reflexivity).
  apply reachableFresh_leaveAs. fresh_joins.
Qed.

Lemma reachableFresh_opened : reachableFresh opened.
Proof.
  replace opened with (actAs "p1" MOVE 0 1 "" started)
    by (vm_compute; reflexivity).
  apply reachableFresh_requestAs, reachableFresh_started.
Qed.



Lemma reachableFresh_screened : reachableFresh screened.
Proof.
  replace screened
    with (actAs "p4" MOVE 8 8 ""
            (actAs "p3" MOVE 0 2 ""
               (actAs "p2" MOVE 8 0 ""
                  (actAs "p1" PLACE_OBSTACLE 1 0 "o2"
                     (actAs "p4" MOVE 8 7 ""
                        (actAs "p3" MOVE 0 5 ""
                           (actAs "p2" MOVE 8 1 ""
                              (actAs "p1" PLACE_OBSTACLE 0 1 "o1"
                                 started))))))))
    by (vm_compute; reflexivity).
  do 8 apply reachableFresh_requestAs. apply reachableFresh_started.
Qed.

Lemma reachableFresh_skirmish : reachableFresh skirmish.
Proof.
  replace skirmish
    with (actAs "p4" MOVE 8 7 ""
            (actAs "p3" MOVE 0 7 ""
               (actAs "p2" MOVE 5 0 ""
                  (actAs "p1" MOVE 3 0 "" started))))
    by (vm_compute; reflexivity).
  do 4 apply reachableFresh_requestAs. apply reachableFresh_started.
Qed.



(** *** Runs of the server *)

Lemma served_connectAs ws (srv : Server Z) :
  getClient ws (clients srv) = None → served srv → served (connectAs ws srv).
Proof.
  intros Hnew Hs. eapply rtc_r; [exact Hs|].
  exists (onConnection ws None srv).1. by apply serve_connection.
Qed.

Lemma served_sendAs ws message uuid (srv : Server Z) :
  uuid ∉ p_id <$> players (game srv) →
  served srv → served (sendAs ws message uuid srv).
Proof.
  intros Hfresh Hs. unfold sendAs.
  destruct (onMessage _ _ _ _ _) as [[out srv']|] eqn:Hm; [|exact Hs].
  eapply rtc_r; [exact Hs|]. exists out.
  by eapply serve_message.
Qed.

Lemma served_closeAs ws (srv : Server Z) :
  served srv → served (closeAs ws srv).
Proof.
  intros Hs. eapply rtc_r; [exact Hs|].
  exists (onClose ws srv).1. apply serve_close.
Qed.

Lemma served_table : served table.
Proof.
  replace table
    with (connectAs 4%nat
            (sendAs 3%nat (joinWith "Dan" "#abcdef") "p4"
               (connectAs 3%nat
                  (sendAs 2%nat (joinWith "Cleo" "#0000fF") "p3"
                     (connectAs 2%nat
                        (sendAs 1%nat (joinWith "Bob" " #00ff00 ") "p2"
                           (connectAs 1%nat
                              (sendAs 0%nat (joinWith "Ada" "#ff0000") "p1"
                                 (connectAs 0%nat initialServer)))))))))
    by (vm_compute; reflexivity).
  repeat first
    [ apply served_connectAs; [vm_compute; reflexivity|]
    | apply served_sendAs; [by_evaluation|] ].
  apply rtc_refl.
Qed.

Lemma served_duel : served duel.
Proof.
  replace duel with (closeAs 1%nat (closeAs 0%nat table))
    by (vm_compute; reflexivity).
  do 2 apply served_closeAs. apply served_table.
Qed.
End GameFacts.

(** C3 as stated fails on a sample: [p1] stands on (3,0), [p2] on (5,0), two
    cells away, and the cell (4,0) between them is free.  Aimed at (4,0),
    the attack has [p2] as the first entity of its ray within the attack
    range, yet it is refused for want of a target: the ray cast stops at the
    named cell. *)
Lemma attack_resolution_counterexample :
  reachable Games.skirmish
  ∧ actingPlayer Games.skirmish "p1" 0 (Samples.ada 3 0 3) (Samples.cell 3 0)
  ∧ inBounds Games.skirmish (Samples.cell 4 0)
  ∧ aligned (Samples.cell 3 0) (Samples.cell 4 0)
  ∧ taxicab (Samples.cell 3 0) (Samples.cell 4 0) = 1
  ∧ firstEntity Games.skirmish
      (rayCells (Samples.cell 3 0) (Samples.cell 4 0))
    = Some (HitPlayer 1 (Games.bob 5 0 10))
  ∧ executeAttack 2 Games.skirmish "p1" (targetOf (Samples.cell 4 0))
    = Throw AucuneCible.
Proof.
  split; [apply reachableFresh_reachable, reachableFresh_skirmish|].
  split; [by repeat split|]. split; [unfold inBounds; simpl; lia|].
  split; [by right|]. by repeat split.
Qed.

(** ** The properties of every game, on the samples *)

(** X1 on a sample: the grid of the walled game. *)
Lemma grid_size_constant_witness : gridSize Samples.walled = 9.
Proof. apply (grid_size_constant Samples.walled), reachable_walled. Defined.





(** X6 on a sample: the Lobby in which [p2] and [p3] wait after [p1] has
    left. *)
Lemma lobby_is_pristine_witness :
  obstacles Games.waiting = []
  ∧ currentPlayerTurn Games.waiting = None
  ∧ winner Games.waiting = None ∧ winnerId Games.waiting = None
  ∧ ∀ k p, players Games.waiting !! k = Some p →
           p_status p = Active
           ∧ p_pdv p = PLAYER_HP
           ∧ p_obstaclesRestants p = OBSTACLE_STOCK
           ∧ p_position p = getStartingPositions Games.waiting !! k.
Proof.
  apply (lobby_is_pristine Games.waiting);
    [apply reachableFresh_waiting|reflexivity].
Defined.



(** ** The properties of the actions, on the samples *)


(** X10 on a sample: in the started game the cells between [p1] and (0,2)
    are free, so [p1] may move there and an attack there finds no target. *)
Lemma move_iff_no_target_witness :
  (∃ st', executeMove 4 Samples.started "p1" (targetOf (Samples.cell 0 2))
          = Return st')
  ↔ executeAttack 4 Samples.started "p1" (targetOf (Samples.cell 0 2))
    = Throw AucuneCible.
Proof.
  apply (move_iff_no_target Samples.started "p1" 0 (Samples.ada 0 0 3)
           (Samples.cell 0 0) (Samples.cell 0 2) 4).
  - apply started_wellFormed.
  - repeat split; reflexivity.
  - unfold inBounds. simpl. lia.
  - left. reflexivity.
  - vm_compute. split; discriminate.
  - lia.
Defined.





(** ** The properties of joining and leaving, on the samples *)

(** X15 on a sample: the four players of the started game leave, in any
    order. *)
Lemma all_leave_resets_witness :
  foldl (λ s playerId, removePlayer playerId s) Samples.started
        ["p3"; "p1"; "p4"; "p2"]
  = createInitialState (gridSize Samples.started).
Proof.
  apply (all_leave_resets ["p3"; "p1"; "p4"; "p2"] Samples.started).
  - by_evaluation.
  - discriminate.
  - by_evaluation.
Defined.

(** X16 on a sample: a first join, with a pseudo between spaces and a
    color between an em space (U+2003) and a byte order mark (U+FEFF). *)
Lemma join_accepted_witness :
  ∃ st',
    handleJoin (initialState (N:=Z)) (Spectator None)
      (mkJoinPayload (VString (js " Ada "))
                     (VString (8195 :: js "#ff0000" ++ [65279])%list)
                     VFalsy None) "p1"
    = (JOINED_AS_PLAYER "p1", st')
    ∧ players st'
      = [mkPlayer "p1" None (js "Ada") (js "#FF0000") 10
                  (Some (Samples.cell 0 0)) 3 Active]
    ∧ obstacles st' = []
    ∧ gridSize st' = 9
    ∧ winner st' = None
    ∧ winnerId st' = None
    ∧ gameStatus st' = Lobby
    ∧ currentPlayerTurn st' = None.
Proof.
  assert (Hpseudo : trimmedTo (js " Ada ") (js "Ada")).
  { split; [|split].
    - exists [32], [32]. split; [reflexivity|].
      split; (repeat (apply Forall_cons_2; [unfold whiteSpace; lia|]));
        apply Forall_nil_2.
    - intros c Hc. vm_compute in Hc. injection Hc as <-.
      unfold whiteSpace. lia.
    - intros c Hc. vm_compute in Hc. injection Hc as <-.
      unfold whiteSpace. lia. }
  assert (Hhex : trimmedTo (8195 :: js "#ff0000" ++ [65279])%list
                           (js "#ff0000")).
  { split; [|split].
    - exists [8195], [65279]. split; [reflexivity|].
      split; (repeat (apply Forall_cons_2; [unfold whiteSpace; lia|]));
        apply Forall_nil_2.
    - intros c Hc. vm_compute in Hc. injection Hc as <-.
      unfold whiteSpace. lia.
    - intros c Hc. vm_compute in Hc. injection Hc as <-.
      unfold whiteSpace. lia. }
  assert (Hstrict : isStrictHexColor (js "#ff0000")).
  { exists 102, 102, 48, 48, 48, 48. split; [reflexivity|].
    repeat (apply Forall_cons_2; [unfold hexDigit; lia|]).
    apply Forall_nil_2. }
  assert (Hroom : (length (players (initialState (N:=Z))) < MAX_PLAYERS)%nat)
    by (simpl; unfold MAX_PLAYERS; lia).
  assert (Hne : js "Ada" ≠ []) by discriminate.
  exact (join_accepted (initialState (N:=Z)) None
           (mkJoinPayload (VString (js " Ada "))
                          (VString (8195 :: js "#ff0000" ++ [65279])%list)
                          VFalsy None)
           "p1" (js " Ada ") (js "Ada")
           (8195 :: js "#ff0000" ++ [65279])%list (js "#ff0000")
           eq_refl Hroom eq_refl eq_refl Hpseudo Hne eq_refl Hhex Hstrict).
Defined.

(** X17 on a sample: a color in lower case between a no-break space
    (U+00A0) and a line separator (U+2028). *)
Lemma normalizeColor_canonical_witness :
  (∃ s hex, VString (160 :: js "#00ff00" ++ [8232])%list = VString s
            ∧ trimmedTo s hex ∧ isStrictHexColor hex
            ∧ js "#00FF00" = upperHex <$> hex)
  ∧ isCanonicalColor (js "#00FF00")
  ∧ normalizeColor (VString (js "#00FF00")) = Some (js "#00FF00").
Proof.
  apply (normalizeColor_canonical
           (VString (160 :: js "#00ff00" ++ [8232])%list) (js "#00FF00")).
  vm_compute. reflexivity.
Defined.

(** X18 on a sample: [p1] of the started game, who joined as Ada with the
    color #ff0000, and who keeps both when it moves to (0,1). *)
Lemma roster_is_canonical_witness :
  (p_pseudo (Samples.ada 0 0 3) ≠ []
   ∧ (∀ c, head (p_pseudo (Samples.ada 0 0 3)) = Some c → ¬ whiteSpace c)
   ∧ (∀ c, last (p_pseudo (Samples.ada 0 0 3)) = Some c → ¬ whiteSpace c)
   ∧ isCanonicalColor (p_couleur (Samples.ada 0 0 3)))
  ∧ Samples.ada 0 1 3 ∈ players Samples.opened
  ∧ p_pseudo (Samples.ada 0 1 3) = js "Ada"
  ∧ p_couleur (Samples.ada 0 1 3) = js "#FF0000".
Proof.
  destruct (roster_is_canonical Samples.started (Samples.ada 0 0 3))
    as [Hcanonical Hkept].
  - apply reachable_started.
  - apply (list_elem_of_lookup_2 _ 0%nat). reflexivity.
  - split; [exact Hcanonical|].
    assert (Hin : Samples.ada 0 1 3 ∈ players Samples.opened)
      by (apply (list_elem_of_lookup_2 _ 0%nat); reflexivity).
    split; [exact Hin|].
    assert (Hnd : NoDup (p_id <$> players Samples.started))
      by (by apply (bool_decide_unpack _)).
    apply (Hkept Hnd Samples.opened (Samples.ada 0 1 3)).
    + apply (fresh_action 4 Samples.started (PlayerClient None "p1")
               (mkActionPayload MOVE (targetOf (Samples.cell 0 1))) ""
               GAME_STATE_UPDATE).
      reflexivity.
    + exact Hin.
    + reflexivity.
Defined.

(** ** Requests are answered, on the samples *)

(** X19 on a sample: a move of [p1] in the started game, with more
    iterations than needed. *)
Lemma integer_requests_answered_witness :
  is_Some (handleRequestAction 4 Samples.started (PlayerClient None "p1")
             (mkActionPayload MOVE (targetOf (Samples.cell 0 3))) "")
  ∧ handleRequestAction 9 Samples.started (PlayerClient None "p1")
      (mkActionPayload MOVE (targetOf (Samples.cell 0 3))) ""
    = handleRequestAction 4 Samples.started (PlayerClient None "p1")
        (mkActionPayload MOVE (targetOf (Samples.cell 0 3))) "".
Proof.
  apply (integer_requests_answered Samples.started (PlayerClient None "p1")
           (mkActionPayload MOVE (targetOf (Samples.cell 0 3))) "" 9).
  lia.
Defined.


(** ** The properties of the server, on the sample runs *)

(** X21 on a sample: the store of the server on which [p3] and [p4] play
    on. *)
Lemma served_store_is_reachable_witness : reachableFresh (game Games.duel).
Proof. apply (served_store_is_reachable Games.duel), served_duel. Defined.




(** X25 on a sample: the socket of [p3] closes during the duel. *)
Lemma every_change_is_broadcast_witness :
  (game (Games.closeAs 2%nat Games.duel) ≠ game Games.duel →
   Broadcast (Snapshot (game (Games.closeAs 2%nat Games.duel)))
   ∈ (onClose 2%nat Games.duel).1)
  ∧ (∀ st, Broadcast (Snapshot st) ∈ (onClose 2%nat Games.duel).1 →
           st = game (Games.closeAs 2%nat Games.duel))
  ∧ (∀ ws st, SendTo ws (Snapshot st) ∈ (onClose 2%nat Games.duel).1 →
              st = game (Games.closeAs 2%nat Games.duel)).
Proof.
  apply (every_change_is_broadcast Games.duel (onClose 2%nat Games.duel).2
           (onClose 2%nat Games.duel).1), serve_close.
Defined.

(** X26 on a sample: the spectator of the table asks for a move. *)
Lemma silent_message_changes_nothing_witness :
  Games.sendAs 4%nat
    (REQUEST_ACTION (mkActionPayload MOVE (targetOf (Samples.cell 0 1)))) ""
    Games.table
  = Games.table.
Proof.
  apply (silent_message_changes_nothing 4 4%nat
           (REQUEST_ACTION (mkActionPayload MOVE (targetOf (Samples.cell 0 1))))
           "" Games.table
           (Games.sendAs 4%nat
              (REQUEST_ACTION
                 (mkActionPayload MOVE (targetOf (Samples.cell 0 1))))
              "" Games.table)
           [SendTo 4%nat (Answer (ACTION_INVALID SpectatorsNotAllowed))]).
  - vm_compute. reflexivity.
  - intros m Hin. apply list_elem_of_singleton in Hin. discriminate.
Defined.
